(** * Garmin Connect data sync: a shallow embedding of [sync_garmin_data.py]

    The script logs in to a remote fitness service, mirrors health and
    activity documents into a tree of JSON files and records the date of the
    last successful run.  Everything it does is an effect: remote calls,
    file-existence checks, file writes, sleeps, prints and prompts.  The
    embedding threads an explicit [World] (file tree, event trace, pending
    keyboard input) through a state-and-exception monad [M]; Python
    exceptions are the [Raise] results of that monad. *)

From Stdlib Require Import Ascii.
From stdpp Require Import gmap strings list pretty.

Set Warnings "-register-all,-clear-no-such-hyp".

Open Scope string_scope.
Open Scope list_scope.
Open Scope stdpp_scope.
Open Scope Z_scope.

(** ** JSON values and the Python operations the script applies to them *)

(** Values returned by the remote service and stored in files.  Python's
    [None] is [JNull]; a dict is an association list (keys are unique in a
    Python dict, lookups take the first binding). Numbers are integers:
    the script only inspects activity identifiers and lengths. *)
Inductive json : Type :=
  | JNull
  | JBool (b : bool)
  | JNum (n : Z)
  | JStr (s : string)
  | JList (items : list json)
  | JObj (fields : list (string * json)).

(** Python truthiness ([if x:], [not x]). *)
Definition truthy (v : json) : bool :=
  match v with
  | JNull => false
  | JBool b => b
  | JNum n => negb (n =? 0)
  | JStr s => negb (String.eqb s "")
  | JList items => match items with [] => false | _ => true end
  | JObj fields => match fields with [] => false | _ => true end
  end.

(** [v == s] for a string literal [s]. *)
Definition str_eq (v : json) (s : string) : bool :=
  match v with
  | JStr t => String.eqb t s
  | _ => false
  end.

(** [x is None] *)
Definition is_None (v : json) : bool :=
  match v with JNull => true | _ => false end.

Definition join_with (sep : string) (parts : list string) : string :=
  match parts with
  | [] => ""
  | p :: ps => fold_left (λ acc q, acc +:+ sep +:+ q) ps p
  end.

(** [repr(x)], used by [str] on containers.  Strings are quoted with single
    quotes; escape sequences inside nested strings are not rendered. *)
Fixpoint py_repr (v : json) : string :=
  match v with
  | JNull => "None"
  | JBool true => "True"
  | JBool false => "False"
  | JNum n => pretty n
  | JStr s => "'" +:+ s +:+ "'"
  | JList items => "[" +:+ join_with ", " (map py_repr items) +:+ "]"
  | JObj fields =>
      "{" +:+ join_with ", "
               (map (λ kv : string * json, "'" +:+ fst kv +:+ "': " +:+ py_repr (snd kv)) fields)
          +:+ "}"
  end.

(** [str(x)] and the [{x}] of an f-string. *)
Definition py_str (v : json) : string :=
  match v with
  | JStr s => s
  | _ => py_repr v
  end.

Fixpoint assoc (k : string) (fields : list (string * json)) : option json :=
  match fields with
  | [] => None
  | (k', v) :: rest => if String.eqb k k' then Some v else assoc k rest
  end.

Fixpoint chars (s : string) : list json :=
  match s with
  | EmptyString => []
  | String c rest => JStr (String c EmptyString) :: chars rest
  end.

(** [needle in hay] on strings. *)
Fixpoint contains (needle hay : string) : bool :=
  String.prefix needle hay
  || match hay with
     | EmptyString => false
     | String _ rest => contains needle rest
     end.

(** ** Exceptions *)

(** The subclasses of [Exception] the script names or can meet.
    [GarthHTTPError] is a subclass of [GarthException]. *)
Inductive exn_class : Type :=
  | FileNotFoundError
  | GarthException
  | GarthHTTPError
  | GarminConnectAuthenticationError
  | GarminConnectConnectionError
  | GarminConnectTooManyRequestsError
  | RequestsHTTPError
  | EOFError
  | ValueError
  | TypeError
  | AttributeError
  | OtherException.

(** A raised exception: an [Exception] with its class and [str(e)], or one
    of the two [BaseException]s outside [Exception] that occur here. *)
Inductive exn : Type :=
  | Exc (c : exn_class) (msg : string)
  | KeyboardInterrupt
  | SystemExit (code : Z).

#[global] Instance exn_class_eq_dec : EqDecision exn_class.
Proof. solve_decision. Defined.

#[global] Instance exn_eq_dec : EqDecision exn.
Proof. solve_decision. Defined.

(** [isinstance(e, cls)] for [e] of class [c]. *)
Definition subclass (c cls : exn_class) : bool :=
  bool_decide (c = cls)
  || match c, cls with
     | GarthHTTPError, GarthException => true
     | _, _ => false
     end.

Definition isinstance (e : exn) (cls : exn_class) : bool :=
  match e with
  | Exc c _ => subclass c cls
  | _ => false
  end.

Definition is_Exception (e : exn) : bool :=
  match e with
  | Exc _ _ => true
  | _ => false
  end.

(** [str(e)] *)
Definition exn_str (e : exn) : string :=
  match e with
  | Exc _ msg => msg
  | KeyboardInterrupt => ""
  | SystemExit code => pretty code
  end.

(** ** The world and the monad *)

(** Calendar dates are proleptic Gregorian ordinals ([date.toordinal()]);
    [timedelta(days=n)] arithmetic is integer arithmetic on them. *)
Definition date : Type := Z.

(** The remote operations of the client object, by method name. *)
Inductive api_method : Type :=
  | get_user_summary
  | get_heart_rates
  | get_sleep_data
  | get_all_day_stress
  | get_respiration_data
  | get_spo2_data
  | get_hrv_data
  | get_training_readiness
  | get_hydration_data
  | get_intensity_minutes_data
  | get_floors
  | get_steps_data
  | get_body_battery
  | get_activities
  | get_activity
  | get_activities_by_date
  | get_body_composition
  | get_weigh_ins
  | get_weekly_steps
  | get_weekly_stress
  | get_user_profile
  | get_devices
  | get_personal_record.

#[global] Instance api_method_eq_dec : EqDecision api_method.
Proof. solve_decision. Defined.

(** Positional arguments of a remote call. *)
Inductive arg : Type :=
  | AStr (s : string)
  | AInt (n : Z).

#[global] Instance arg_eq_dec : EqDecision arg.
Proof. solve_decision. Defined.

(** Requests to the login service. *)
Inductive auth_request : Type :=
  | LoginTokens (tokenstore : string)
  | LoginCredentials (email password : string)
  | ResumeLogin (client_state : json) (mfa_code : string)
  | DumpTokens (tokenstore : string).

(** What the run does, in order. *)
Inductive event : Type :=
  | EPrint (line : string)
  | EPrompt (prompt : string)
  | ESleep (seconds : Z)
  | EWrite (path : string) (data : json)
  | ECall (m : api_method) (args : list arg)
  | EAuth (r : auth_request).

(** One pending keyboard action: a typed line, or Ctrl-C. *)
Inductive keyboard : Type :=
  | Typed (line : string)
  | CtrlC.

Record World : Type := mkWorld {
  fs : gmap string json;      (* file path -> parsed JSON content *)
  trace : list event;         (* events so far, oldest first *)
  stdin : list keyboard       (* keyboard input not yet consumed *)
}.

(** How a call ends: a value, a Python exception, or a loop that is still
    running when the fuel of an unbounded [while True] is used up. *)
Inductive result (A : Type) : Type :=
  | Ret (a : A)
  | Raise (e : exn)
  | OutOfFuel.

Arguments Ret {A} a.
Arguments Raise {A} e.
Arguments OutOfFuel {A}.

Definition M (A : Type) : Type := World → result A * World.

#[global] Instance M_ret : MRet M := λ A a w, (Ret a, w).

#[global] Instance M_bind : MBind M := λ A B f m w,
  match m w with
  | (Ret a, w') => f a w'
  | (Raise e, w') => (Raise e, w')
  | (OutOfFuel, w') => (OutOfFuel, w')
  end.

Definition raise {A} (e : exn) : M A := λ w, (Raise e, w).

Definition out_of_fuel {A} : M A := λ w, (OutOfFuel, w).

(** [try: body  except ...: handler]; the handler re-raises what no clause
    matches. *)
Definition try {A} (body : M A) (handler : exn → M A) : M A := λ w,
  match body w with
  | (Raise e, w') => handler e w'
  | r => r
  end.

(** [for x in xs: body(x)], where [continue] is an early return of the body. *)
Fixpoint for_each {A} (xs : list A) (body : A → M unit) : M unit :=
  match xs with
  | [] => mret tt
  | x :: rest => body x;; for_each rest body
  end.

(** A [for] loop that carries a local variable. *)
Fixpoint for_fold {A S} (xs : list A) (s : S) (body : S → A → M S) : M S :=
  match xs with
  | [] => mret s
  | x :: rest => s' ← body s x; for_fold rest s' body
  end.

Definition log (e : event) (w : World) : World :=
  mkWorld (fs w) (trace w ++ [e]) (stdin w).

Definition print (line : string) : M unit := λ w, (Ret tt, log (EPrint line) w).

(** [time.sleep(seconds)] *)
Definition sleep (seconds : Z) : M unit := λ w, (Ret tt, log (ESleep seconds) w).

(** [path.exists()] *)
Definition path_exists (path : string) : M bool := λ w,
  (Ret (bool_decide (is_Some (fs w !! path))), w).

(** [input(prompt)] and [getpass(prompt)]: show the prompt, take the next
    keyboard action; at end of input Python raises [EOFError]. *)
Definition input (prompt : string) : M string := λ w,
  let w' := log (EPrompt prompt) w in
  match stdin w with
  | [] => (Raise (Exc EOFError "EOF when reading a line"), w')
  | Typed line :: rest => (Ret line, mkWorld (fs w') (trace w') rest)
  | CtrlC :: rest => (Raise KeyboardInterrupt, mkWorld (fs w') (trace w') rest)
  end.

(** Python's [a / b] on paths: an absolute right operand replaces the left. *)
Definition path_join (a b : string) : string :=
  if String.prefix "/" b then b else a +:+ "/" +:+ b.

Infix "</>" := path_join (at level 40, left associativity).

(** [d.get(key)]; on a value that is not a dict the attribute lookup fails. *)
Definition py_get (d : json) (key : string) : M json :=
  match d with
  | JObj fields => mret (default JNull (assoc key fields))
  | _ => raise (Exc AttributeError "object has no attribute 'get'")
  end.

(** The items a [for] loop draws from a value. *)
Definition py_iter (v : json) : M (list json) :=
  match v with
  | JList items => mret items
  | JObj fields => mret (map (λ kv : string * json, JStr (fst kv)) fields)
  | JStr s => mret (chars s)
  | _ => raise (Exc TypeError "object is not iterable")
  end.

(** [len(v)] *)
Definition py_len (v : json) : M Z :=
  match v with
  | JList items => mret (Z.of_nat (length items))
  | JObj fields => mret (Z.of_nat (length fields))
  | JStr s => mret (Z.of_nat (String.length s))
  | _ => raise (Exc TypeError "object has no len()")
  end.

(** How the remote service answers one call. *)
Inductive outcome : Type :=
  | Returns (v : json)
  | Fails (e : exn).

(** The client object [Garmin]: its answer to a call may depend on
    everything that happened before (rate limiting does). *)
Record Garmin : Type := mkGarmin {
  respond : list event → api_method → list arg → outcome
}.

(** [api.method(args)] *)
Definition invoke (api : Garmin) (m : api_method) (args : list arg) : M json := λ w,
  let w' := log (ECall m args) w in
  match respond api (trace w) m args with
  | Returns v => (Ret v, w')
  | Fails e => (Raise e, w')
  end.

(** ** Constants of the script *)

Definition HISTORY_DAYS : Z := 365.
Definition API_DELAY : Z := 1.          (* 1.0 seconds *)
Definition MAX_RETRIES : nat := 3.
Definition RETRY_BACKOFF : Z := 5.

(** [range(n)] *)
Definition range (n : nat) : list Z := map Z.of_nat (seq 0 n).

(** ** [api_call] *)

(** The handler of one attempt: [retry] is the rest of the [for] loop. *)
Definition api_call_except (attempt : Z) (retry : M json) (e : exn) : M json :=
  if isinstance e GarminConnectTooManyRequestsError || isinstance e GarthHTTPError then
    if contains "429" (exn_str e) || isinstance e GarminConnectTooManyRequestsError then
      let wait := RETRY_BACKOFF * (attempt + 1) in
      print ("  Rate limited, waiting " +:+ pretty wait +:+ "s...");;
      sleep wait;;
      retry
    else mret JNull
  else if is_Exception e then
    print ("  Warning: " +:+ exn_str e);;
    mret JNull
  else raise e.

Fixpoint api_call_attempts (operation : M json) (attempts : list Z) : M json :=
  match attempts with
  | [] =>
      print "  Giving up after max retries.";;
      mret JNull
  | attempt :: rest =>
      try operation (api_call_except attempt (api_call_attempts operation rest))
  end.

(** [api_call(api_method, args)]: the operation is [api_method(args)]. *)
Definition api_call (api_method : list arg → M json) (args : list arg) : M json :=
  api_call_attempts (api_method args) (range MAX_RETRIES).

(** ** Calendar: [date.isoformat()] and [datetime.strptime(s, "%Y-%m-%d")] *)

Module Calendar.

(** The ordinals of [date.min] (0001-01-01) and [date.max] (9999-12-31). *)
Definition MIN_ORDINAL : Z := 1.
Definition MAX_ORDINAL : Z := 3652059.

Definition is_leap (y : Z) : bool :=
  (y mod 4 =? 0) && (negb (y mod 100 =? 0) || (y mod 400 =? 0)).

Definition days_before_year (y : Z) : Z :=
  let p := y - 1 in p * 365 + p / 4 - p / 100 + p / 400.

(** Days of each month in a common year. *)
Definition DAYS_IN_MONTH (m : Z) : Z :=
  if m =? 2 then 28
  else if (m =? 4) || (m =? 6) || (m =? 9) || (m =? 11) then 30
  else 31.

(** Days of a common year before the first day of month [m]. *)
Definition DAYS_BEFORE_MONTH (m : Z) : Z :=
  if m <=? 1 then 0
  else if m =? 2 then 31
  else if m =? 3 then 59
  else if m =? 4 then 90
  else if m =? 5 then 120
  else if m =? 6 then 151
  else if m =? 7 then 181
  else if m =? 8 then 212
  else if m =? 9 then 243
  else if m =? 10 then 273
  else if m =? 11 then 304
  else 334.

Definition days_in_month (y m : Z) : Z :=
  if (m =? 2) && is_leap y then 29 else DAYS_IN_MONTH m.

Definition days_before_month (y m : Z) : Z :=
  DAYS_BEFORE_MONTH m + (if (m >? 2) && is_leap y then 1 else 0).

Definition ymd2ord (y m d : Z) : date :=
  days_before_year y + days_before_month y m + d.

(** Year (counted from 1), month and day of day number [n] (from 0) of a
    400-year cycle, by the 100-, 4- and 1-year cycles inside it. *)
Definition cycle_ymd (n : Z) : Z * Z * Z :=
  let n100 := n / 36524 in
  let n := n mod 36524 in
  let n4 := n / 1461 in
  let n := n mod 1461 in
  let n1 := n / 365 in
  let n := n mod 365 in
  let year := 1 + n100 * 100 + n4 * 4 + n1 in
  if (n1 =? 4) || (n100 =? 4) then (year - 1, 12, 31)
  else
    let leapyear := (n1 =? 3) && (negb (n4 =? 24) || (n100 =? 3)) in
    let month := Z.shiftr (n + 50) 5 in
    let preceding := DAYS_BEFORE_MONTH month + (if (month >? 2) && leapyear then 1 else 0) in
    if preceding >? n
    then
      let month := month - 1 in
      let preceding :=
        preceding - (DAYS_IN_MONTH month + (if (month =? 2) && leapyear then 1 else 0)) in
      (year, month, n - preceding + 1)
    else (year, month, n - preceding + 1).

(** Year, month and day of an ordinal. *)
Definition ord2ymd (ordinal : date) : Z * Z * Z :=
  let n := ordinal - 1 in
  let '(y, m, d) := cycle_ymd (n mod 146097) in
  (n / 146097 * 400 + y, m, d).

Fixpoint zeros (k : nat) : string :=
  match k with
  | O => ""
  | S k' => "0" +:+ zeros k'
  end.

(** ["%0<width>d" % n] for [n >= 0]. *)
Definition pad0 (width : nat) (n : Z) : string :=
  let s := pretty n in zeros (width - String.length s) +:+ s.

Definition isoformat (d : date) : string :=
  let '(y, m, dd) := ord2ymd d in
  pad0 4 y +:+ "-" +:+ pad0 2 m +:+ "-" +:+ pad0 2 dd.

Definition digit_value (c : ascii) : option Z :=
  let n := Z.of_nat (nat_of_ascii c) in
  if (48 <=? n) && (n <=? 57) then Some (n - 48) else None.

Fixpoint digits_value (acc : Z) (s : string) : option Z :=
  match s with
  | EmptyString => Some acc
  | String c rest =>
      match digit_value c with
      | Some v => digits_value (acc * 10 + v) rest
      | None => None
      end
  end.

(** A field of exactly [lo] to [hi] digits. *)
Definition number_field (lo hi : nat) (s : string) : option Z :=
  let len := String.length s in
  if (Nat.leb lo len) && (Nat.leb len hi) then digits_value 0 s else None.

Fixpoint split_on (sep : ascii) (cur : string) (s : string) : list string :=
  match s with
  | EmptyString => [cur]
  | String c rest =>
      if Ascii.eqb c sep then cur :: split_on sep "" rest
      else split_on sep (cur +:+ String c "") rest
  end.

(** The day directive also accepts a blank in place of a leading zero. *)
Definition day_field (s : string) : option Z :=
  match s with
  | String " " rest => number_field 1 1 rest
  | _ => number_field 1 2 s
  end.

(** [datetime.strptime(s, "%Y-%m-%d").date()]; [None] is [ValueError]. *)
Definition strptime (s : string) : option date :=
  match split_on "-" "" s with
  | [ys; ms; ds] =>
      match number_field 4 4 ys, number_field 1 2 ms, day_field ds with
      | Some y, Some m, Some d =>
          if (1 <=? y) && (1 <=? m) && (m <=? 12) && (1 <=? d) && (d <=? days_in_month y m)
          then Some (ymd2ord y m d)
          else None
      | _, _, _ => None
      end
  | _ => None
  end.

(** [s] has no character [sep]. *)
Fixpoint lacks (sep : ascii) (s : string) : bool :=
  match s with
  | EmptyString => true
  | String c rest => negb (Ascii.eqb c sep) && lacks sep rest
  end.

(** Day [r] of the 400-year cycle turns into a valid date and back; the
    last year of the cycle starts at day 145731. *)
Definition cycle_ok (r : Z) : bool :=
  let '(y, m, d) := cycle_ymd r in
  (1 <=? y) && (y <=? 400) && ((145730 <? r) || (y <=? 399))
  && (1 <=? m) && (m <=? 12) && (1 <=? d) && (d <=? days_in_month y m)
  && (ymd2ord y m d =? r + 1).

(** The decimal fields of a date are read back as they were written. *)
Definition year_field_ok (n : Z) : bool :=
  lacks "-" (pad0 4 n) && bool_decide (number_field 4 4 (pad0 4 n) = Some n).

Definition month_day_field_ok (n : Z) : bool :=
  lacks "-" (pad0 2 n)
  && bool_decide (number_field 1 2 (pad0 2 n) = Some n)
  && bool_decide (day_field (pad0 2 n) = Some n).

(** [check] holds on [count] consecutive integers from [first]. *)
Fixpoint holds_from (check : Z → bool) (count : nat) (first : Z) : bool :=
  match count with
  | O => true
  | S count' => check first && holds_from check count' (first + 1)
  end.

End Calendar.

Export Calendar.

(** ** The host the script runs on *)

(** What [garmin.login()] gives with credentials: the pair it returns, or
    the exception it raises. *)
Inductive login_outcome : Type :=
  | LoginReturns (result1 result2 : json)
  | LoginFails (e : exn).

(** Everything outside the script.  Answers of the login service may depend
    on the events so far; [None] is success for the calls that return
    nothing. *)
Record Host : Type := mkHost {
  home : string;                                        (* Path.home() *)
  getenv : string → option string;                      (* os.getenv *)
  clock : list event → date;                            (* date.today() *)
  login_tokens : list event → string → option exn;      (* Garmin().login(tokenstore) *)
  login_credentials : list event → string → string → login_outcome;
  resume_login : list event → json → string → option exn;
  dump_tokens : list event → string → option exn;       (* garmin.garth.dump(path) *)
  garmin : Garmin                                       (* the client object *)
}.

Definition auth_call (r : auth_request) (answer : list event → option exn) : M unit := λ w,
  match answer (trace w) with
  | None => (Ret tt, log (EAuth r) w)
  | Some e => (Raise e, log (EAuth r) w)
  end.

(** [sys.exit(code)] *)
Definition sys_exit {A} (code : Z) : M A := raise (SystemExit code).

(** The line feed of Python's ["\n"]. *)
Definition nl : string := String (ascii_of_nat 10) "".

(** [json.load] of an existing file. *)
Definition load_json (path : string) : M json := λ w,
  match fs w !! path with
  | Some v => (Ret v, w)
  | None => (Raise (Exc FileNotFoundError path), w)
  end.

(** [save_json(path, data)]: parent directories are created, the file is
    overwritten. *)
Definition save_json (path : string) (data : json) : M unit := λ w,
  (Ret tt, mkWorld (<[path := data]> (fs w)) (trace w ++ [EWrite path data]) (stdin w)).

(** ** The script *)

Section Program.

Variable host : Host.

Definition BASE_DIR : string := home host </> "garmin_data".
Definition SYNC_STATE_FILE : string := BASE_DIR </> "sync_state.json".

(** [date.today()] *)
Definition date_today : M date := λ w, (Ret (clock host (trace w)), w).

(** [Path(p).expanduser()] for a leading [~]. *)
Definition expanduser (p : string) : string :=
  match p with
  | String "~" EmptyString => home host
  | String "~" (String "/" rest) => home host </> rest
  | _ => p
  end.

(** [os.getenv(name) or input(prompt)] *)
Definition getenv_or (name : string) (ask : M string) : M string :=
  match getenv host name with
  | Some v => if negb (String.eqb v "") then mret v else ask
  | None => ask
  end.

(** The [except] clauses around [garmin.resume_login]: [true] goes on to
    store the tokens, [false] is [continue]. *)
Definition resume_except (e : exn) : M bool :=
  if isinstance e GarthHTTPError then
    if contains "429" (exn_str e) then
      print "Rate limited during MFA. Try again later.";;
      sys_exit 1
    else if contains "401" (exn_str e) || contains "403" (exn_str e) then
      print "Invalid MFA code. Try again.";;
      mret false
    else sys_exit 1
  else if isinstance e GarthException then
    print "MFA failed. Try again.";;
    mret false
  else raise e.

(** [Garmin(email=..., password=..., return_on_mfa=True).login()] *)
Definition credentials_login (email password : string) : M login_outcome := λ w,
  (Ret (login_credentials host (trace w) email password),
   log (EAuth (LoginCredentials email password)) w).

(** The body of the [try] in the prompting loop: [None] is [continue],
    [Some r] is [return r]. *)
Definition login_attempt (tokenstore_path : string) : M (option (option Garmin)) :=
  email ← getenv_or "EMAIL" (input "Login email: ");
  password ← getenv_or "PASSWORD" (input "Enter password: ");
  answer ← credentials_login email password;
  match answer with
  | LoginFails e => raise e
  | LoginReturns result1 result2 =>
      proceed ← (if str_eq result1 "needs_mfa" then
                   mfa_code ← input "Enter MFA code: ";
                   try (auth_call (ResumeLogin result2 mfa_code)
                          (λ h, resume_login host h result2 mfa_code);;
                        mret true)
                       resume_except
                 else mret true);
      if proceed : bool then
        auth_call (DumpTokens tokenstore_path) (λ h, dump_tokens host h tokenstore_path);;
        print "Authenticated successfully.";;
        mret (Some (Some (garmin host)))
      else mret None
  end.

(** The [except] clauses of the prompting loop. *)
Definition login_except (e : exn) : M (option (option Garmin)) :=
  if isinstance e GarminConnectAuthenticationError then
    print "Invalid credentials. Try again.";;
    mret None
  else if isinstance e FileNotFoundError || isinstance e GarthHTTPError
          || isinstance e GarminConnectConnectionError || isinstance e RequestsHTTPError then
    print "Connection error during login.";;
    mret (Some None)
  else if bool_decide (e = KeyboardInterrupt) then mret (Some None)
  else raise e.

(** [while True:] of [init_api]; [fuel] bounds the number of rounds. *)
Fixpoint prompt_loop (fuel : nat) (tokenstore_path : string) : M (option Garmin) :=
  match fuel with
  | O => out_of_fuel
  | S fuel' =>
      step ← try (login_attempt tokenstore_path) login_except;
      match step with
      | Some r => mret r
      | None => prompt_loop fuel' tokenstore_path
      end
  end.

Definition init_api (fuel : nat) : M (option Garmin) :=
  let tokenstore := default "~/.garminconnect" (getenv host "GARMINTOKENS") in
  let tokenstore_path := expanduser tokenstore in
  stored ← try (auth_call (LoginTokens tokenstore_path)
                  (λ h, login_tokens host h tokenstore_path);;
                print "Authenticated with stored tokens.";;
                mret true)
               (λ e, if isinstance e FileNotFoundError || isinstance e GarthHTTPError
                        || isinstance e GarminConnectAuthenticationError
                        || isinstance e GarminConnectConnectionError
                     then mret false else raise e);
  if stored : bool then mret (Some (garmin host))
  else prompt_loop fuel tokenstore_path.

Definition load_sync_state : M (option date) :=
  present ← path_exists SYNC_STATE_FILE;
  if present : bool then
    state ← load_json SYNC_STATE_FILE;
    last ← py_get state "last_sync_date";
    if truthy last then
      match last with
      | JStr s =>
          match strptime s with
          | Some d => mret (Some d)
          | None => raise (Exc ValueError "time data does not match format '%Y-%m-%d'")
          end
      | _ => raise (Exc TypeError "strptime() argument 1 must be str")
      end
    else mret None
  else mret None.

Definition save_sync_state (sync_date : date) : M unit :=
  save_json SYNC_STATE_FILE (JObj [("last_sync_date", JStr (isoformat sync_date))]).

Definition daily_calls : list (string * api_method) :=
  [ ("summary.json", get_user_summary);
    ("heart_rate.json", get_heart_rates);
    ("sleep.json", get_sleep_data);
    ("stress.json", get_all_day_stress);
    ("respiration.json", get_respiration_data);
    ("spo2.json", get_spo2_data);
    ("hrv.json", get_hrv_data);
    ("training_readiness.json", get_training_readiness);
    ("hydration.json", get_hydration_data);
    ("intensity_minutes.json", get_intensity_minutes_data);
    ("floors.json", get_floors);
    ("steps_detail.json", get_steps_data) ].

(** Body of [for filename, method in daily_calls]. *)
Definition daily_metric (api : Garmin) (day_dir date_str : string)
    (call : string * api_method) : M unit :=
  let filepath := day_dir </> fst call in
  cached ← path_exists filepath;
  if cached : bool then mret tt
  else
    data ← api_call (invoke api (snd call)) [AStr date_str];
    (if negb (is_None data) then save_json filepath data else mret tt);;
    sleep API_DELAY.

(** Body of [while current <= end]. *)
Definition daily_day (api : Garmin) (days i : Z) (current : date) : M unit :=
  let date_str := isoformat current in
  let day_dir := BASE_DIR </> "daily" </> date_str in
  print ("Syncing daily data: " +:+ date_str +:+ "... " +:+ pretty i +:+ "/" +:+ pretty days);;
  for_each daily_calls (daily_metric api day_dir date_str);;
  let bb_path := day_dir </> "body_battery.json" in
  cached ← path_exists bb_path;
  if cached : bool then mret tt
  else
    data ← api_call (invoke api get_body_battery) [AStr date_str; AStr date_str];
    (if negb (is_None data) then save_json bb_path data else mret tt);;
    sleep API_DELAY.

(** [while current <= end]; the caller gives one unit of [fuel] per day of
    the range, so the loop test alone decides when it stops. *)
Fixpoint daily_loop (fuel : nat) (api : Garmin) (end_ : date) (days i : Z)
    (current : date) : M unit :=
  match fuel with
  | O => mret tt
  | S fuel' =>
      if current <=? end_ then
        let i := i + 1 in
        daily_day api days i current;;
        daily_loop fuel' api end_ days i (current + 1)
      else mret tt
  end.

Definition sync_daily_data (api : Garmin) (start end_ : date) : M unit :=
  let days := (end_ - start) + 1 in
  daily_loop (Z.to_nat (end_ + 1 - start)) api end_ days 0 start.

(** Body of [for activity in batch] in the full sync; returns [total]. *)
Definition full_activity (api : Garmin) (activities_dir : string) (total : Z)
    (activity : json) : M Z :=
  aid ← py_get activity "activityId";
  if negb (truthy aid) then mret total
  else
    let filepath := activities_dir </> (py_str aid +:+ ".json") in
    cached ← path_exists filepath;
    if cached : bool then mret (total + 1)
    else
      detail ← api_call (invoke api get_activity) [AStr (py_str aid)];
      (if negb (is_None detail) then save_json filepath detail
       else save_json filepath activity);;
      let total := total + 1 in
      print ("  Activity " +:+ py_str aid +:+ " (" +:+ pretty total +:+ ")");;
      sleep API_DELAY;;
      mret total.

(** [while True:] of the full sync; [fuel] bounds the number of pages. *)
Fixpoint full_pages (fuel : nat) (api : Garmin) (activities_dir : string)
    (start limit total : Z) : M Z :=
  match fuel with
  | O => out_of_fuel
  | S fuel' =>
      batch ← api_call (invoke api get_activities) [AInt start; AInt limit];
      if negb (truthy batch) then mret total
      else
        items ← py_iter batch;
        total ← for_fold items total (full_activity api activities_dir);
        size ← py_len batch;
        if size <? limit then mret total
        else
          sleep API_DELAY;;
          full_pages fuel' api activities_dir (start + limit) limit total
  end.

Definition sync_activities_full (fuel : nat) (api : Garmin) : M unit :=
  print "Syncing all activities (paginated)...";;
  let activities_dir := BASE_DIR </> "activities" in
  total ← full_pages fuel api activities_dir 0 100 0;
  print ("  " +:+ pretty total +:+ " activities synced.").

(** Body of [for activity in activities] in the incremental sync. *)
Definition incremental_activity (api : Garmin) (activities_dir : string)
    (activity : json) : M unit :=
  aid ← py_get activity "activityId";
  if negb (truthy aid) then mret tt
  else
    let filepath := activities_dir </> (py_str aid +:+ ".json") in
    cached ← path_exists filepath;
    if cached : bool then mret tt
    else
      detail ← api_call (invoke api get_activity) [AStr (py_str aid)];
      (if negb (is_None detail) then save_json filepath detail
       else save_json filepath activity);;
      print ("  Activity " +:+ py_str aid);;
      sleep API_DELAY.

Definition sync_activities_incremental (api : Garmin) (start_date end_date : date) : M unit :=
  print ("Syncing activities from " +:+ isoformat start_date +:+ " to "
         +:+ isoformat end_date +:+ "...");;
  let activities_dir := BASE_DIR </> "activities" in
  activities ← api_call (invoke api get_activities_by_date)
                 [AStr (isoformat start_date); AStr (isoformat end_date)];
  if negb (truthy activities) then print "  No new activities."
  else
    items ← py_iter activities;
    for_each items (incremental_activity api activities_dir).

(** [data = api_call(...); if data is not None: save_json(path, data)] *)
Definition refresh (api : Garmin) (path : string) (m : api_method) (args : list arg) : M unit :=
  data ← api_call (invoke api m) args;
  if negb (is_None data) then save_json path data else mret tt.

Definition sync_body_composition (api : Garmin) (start_date end_date : date) : M unit :=
  print "Syncing body composition...";;
  let bc_dir := BASE_DIR </> "body_composition" in
  refresh api (bc_dir </> "body_comp.json") get_body_composition
    [AStr (isoformat start_date); AStr (isoformat end_date)];;
  sleep API_DELAY;;
  refresh api (bc_dir </> "weigh_ins.json") get_weigh_ins
    [AStr (isoformat start_date); AStr (isoformat end_date)].

Definition sync_weekly (api : Garmin) : M unit :=
  print "Syncing weekly trends...";;
  let weekly_dir := BASE_DIR </> "weekly" in
  today ← date_today;
  let today_str := isoformat today in
  refresh api (weekly_dir </> "steps.json") get_weekly_steps [AStr today_str; AInt 52];;
  sleep API_DELAY;;
  refresh api (weekly_dir </> "stress.json") get_weekly_stress [AStr today_str; AInt 52].

Definition sync_profile (api : Garmin) : M unit :=
  print "Syncing profile...";;
  let profile_dir := BASE_DIR </> "profile" in
  refresh api (profile_dir </> "user_profile.json") get_user_profile [];;
  sleep API_DELAY;;
  refresh api (profile_dir </> "devices.json") get_devices [].

Definition sync_personal_records (api : Garmin) : M unit :=
  print "Syncing personal records...";;
  refresh api (BASE_DIR </> "personal_records.json") get_personal_record [].

(** [main] from the line after the authentication check: everything that
    runs once a client object is at hand. *)
Definition sync_all (fuel : nat) (api : Garmin) : M unit :=
  today ← date_today;
  last_sync ← load_sync_state;
  start_date ← match last_sync with
                | Some d =>
                    print ("Incremental sync from " +:+ isoformat d +:+ " to "
                           +:+ isoformat today);;
                    mret d
                | None =>
                    let start_date := today - HISTORY_DAYS in
                    print ("Initial sync: " +:+ isoformat start_date +:+ " to "
                           +:+ isoformat today +:+ " (" +:+ pretty HISTORY_DAYS +:+ " days)");;
                    mret start_date
                end;
  sync_daily_data api start_date today;;
  sleep API_DELAY;;
  match last_sync with
  | Some _ => sync_activities_incremental api start_date today
  | None => sync_activities_full fuel api
  end;;
  sleep API_DELAY;;
  sync_body_composition api start_date today;;
  sleep API_DELAY;;
  sync_weekly api;;
  sleep API_DELAY;;
  sync_profile api;;
  sleep API_DELAY;;
  sync_personal_records api;;
  save_sync_state today;;
  print (nl +:+ "Sync complete. Data stored in " +:+ BASE_DIR).

Definition main (fuel : nat) : M unit :=
  api ← init_api fuel;
  match api with
  | None =>
      print "Failed to authenticate.";;
      sys_exit 1
  | Some api => sync_all fuel api
  end.

(** The [if __name__ == "__main__":] block. *)
Definition script (fuel : nat) : M unit :=
  try (main fuel)
      (λ e, if bool_decide (e = KeyboardInterrupt)
            then print (nl +:+ "Sync interrupted.")
            else raise e).

End Program.

(** The exit status the operating system sees: 0 when the script runs to
    its end, the code of an uncaught [SystemExit], 1 after the traceback of
    any other uncaught exception.  An uncaught [KeyboardInterrupt] ends the
    process by the interrupt signal (status 130 in a shell).  A run that is
    still looping has no status. *)
Definition exit_code (r : result unit) : option Z :=
  match r with
  | Ret _ => Some 0
  | Raise (SystemExit code) => Some code
  | Raise (Exc _ _) => Some 1
  | Raise KeyboardInterrupt => Some 130
  | OutOfFuel => None
  end.

(** ** Observations on a run *)

(** The events a computation added when it took the world from [w] to [w']. *)
Definition events_since (w w' : World) : list event :=
  drop (length (trace w)) (trace w').

(** The file writes among some events, in order. *)
Definition written (evs : list event) : list (string * json) :=
  omap (λ e, match e with EWrite path data => Some (path, data) | _ => None end) evs.

Definition write_paths (evs : list event) : list string := (written evs).*1.

(** The argument lists of the calls of method [m] among some events. *)
Definition calls_of (m : api_method) (evs : list event) : list (list arg) :=
  omap (λ e, match e with
             | ECall m' args => if decide (m' = m) then Some args else None
             | _ => None
             end) evs.

(** The durations slept among some events. *)
Definition sleeps (evs : list event) : list Z :=
  omap (λ e, match e with ESleep s => Some s | _ => None end) evs.

(** The exceptions [api_call] treats as a rate-limit signal. *)
Definition rate_limited (e : exn) : bool :=
  (isinstance e GarminConnectTooManyRequestsError || isinstance e GarthHTTPError)
  && (contains "429" (exn_str e) || isinstance e GarminConnectTooManyRequestsError).

(** The world after the wait that follows rate-limited attempt number
    [attempt] (counted from 1): a notice, then the sleep. *)
Definition backoff (attempt : Z) (w : World) : World :=
  log (ESleep (RETRY_BACKOFF * attempt))
      (log (EPrint ("  Rate limited, waiting " +:+ pretty (RETRY_BACKOFF * attempt) +:+ "s...")) w).

(** The world in which [api_call] returns absent after a failure that is
    not a rate limit: an HTTP error of the login library is dropped without
    a word, any other [Exception] is printed as a warning. *)
Definition soft_failure (e : exn) (w : World) : World :=
  if isinstance e GarminConnectTooManyRequestsError || isinstance e GarthHTTPError then w
  else log (EPrint ("  Warning: " +:+ exn_str e)) w.

(** The events [api_call] adds around the remote method [m] called with
    [args]: the calls themselves, notices and sleeps. *)
Definition api_events (m : api_method) (args : list arg) (evs : list event) : Prop :=
  Forall (λ e, match e with
               | EPrint _ | ESleep _ => True
               | ECall m' args' => m' = m ∧ args' = args
               | _ => False
               end) evs.

(** A client object that never fails with Ctrl-C or [SystemExit]: the run
    is not interrupted while it waits for the service. *)
Definition uninterrupted (api : Garmin) : Prop :=
  ∀ h m args e, respond api h m args = Fails e → is_Exception e = true.

(** Hoare triples over [M]: from a world satisfying [P], the computation
    ends in a result and a world satisfying [Q], whatever the result is. *)
Definition hoare {A} (P : World → Prop) (m : M A) (Q : result A → World → Prop) : Prop :=
  ∀ w, P w → Q (m w).1 (m w).2.

(** The cache file whose presence makes [sync_daily_data] skip the call of
    [m] with [args] for the day written [date_str]. *)
Definition daily_guard (host : Host) (date_str file : string) (m : api_method)
    (args : list arg) : Prop :=
  ((file, m) ∈ daily_calls ∧ args = [AStr date_str])
  ∨ (file = "body_battery.json" ∧ m = get_body_battery ∧ args = [AStr date_str; AStr date_str]).

(** The cache file of a daily metric. *)
Definition daily_path (host : Host) (date_str file : string) : string :=
  BASE_DIR host </> "daily" </> date_str </> file.

(** What holds while [sync_daily_data] runs from the world [w0]: files only
    appear; every file written so far is written once, was absent at the
    start and is the cache file of a metric of a day in the range; no call
    was made whose cache file was there at the start. *)
Definition daily_inv (host : Host) (start end_ : date) (w0 w : World) : Prop :=
  ∃ evs,
    trace w = trace w0 ++ evs
    ∧ dom (fs w0) ⊆ dom (fs w)
    ∧ NoDup (write_paths evs)
    ∧ (∀ p, p ∈ write_paths evs →
         p ∈ dom (fs w) ∧ (p ∉ dom (fs w0))
         ∧ (∃ d file m args, (start ≤ d ≤ end_)
              ∧ daily_guard host (isoformat d) file m args
              ∧ p = daily_path host (isoformat d) file))
    ∧ (∀ date_str file m args,
         daily_guard host date_str file m args →
         daily_path host date_str file ∈ dom (fs w0) →
         args ∉ calls_of m evs).

(** [activity.get("activityId")] of a summary record with these fields. *)
Definition activity_id (fields : list (string * json)) : json :=
  default JNull (assoc "activityId" fields).

(** The cache file of the activity with identifier [aid]. *)
Definition activity_file (activities_dir : string) (aid : json) : string :=
  activities_dir </> (py_str aid +:+ ".json").

(** What is stored for an activity: the detail, or the summary record when
    the detail fetch gave nothing. *)
Definition cached_activity (detail summary : json) : json :=
  if is_None detail then summary else detail.

(** A batch of activity summary records: every item is a dict. *)
Definition records (items : list json) : Prop :=
  Forall (λ a, ∃ fields, a = JObj fields) items.

(** The remote activity list, seen through [get_activities(start, limit)]
    with [limit = 100]: page number [i] (from 0) is what the service
    returns at offset [100 * i], whenever it is asked. *)
Definition serves_pages (api : Garmin) (pages : list (list json)) : Prop :=
  ∀ (i : nat) items, pages !! i = Some items →
    ∀ h, respond api h get_activities [AInt (Z.of_nat i * 100); AInt 100] = Returns (JList items).

(** The list requests of a full sync that reads [n] pages. *)
Definition page_requests (first n : nat) : list (list arg) :=
  (λ i : nat, [AInt (Z.of_nat i * 100); AInt 100]) <$> seq first n.

(** The steps of [main] that follow the choice of the range: the sync of
    [start_date .. today], incremental or initial, up to the saved state. *)
Definition sync_from (host : Host) (fuel : nat) (api : Garmin) (incremental : bool)
    (start_date today : date) : M unit :=
  sync_daily_data host api start_date today;;
  sleep API_DELAY;;
  (if incremental then sync_activities_incremental host api start_date today
   else sync_activities_full host fuel api);;
  sleep API_DELAY;;
  sync_body_composition host api start_date today;;
  sleep API_DELAY;;
  sync_weekly host api;;
  sleep API_DELAY;;
  sync_profile host api;;
  sleep API_DELAY;;
  sync_personal_records host api;;
  save_sync_state host today;;
  print (nl +:+ "Sync complete. Data stored in " +:+ BASE_DIR host).

(** The two announcements of [main]. *)
Definition incremental_notice (start_date today : date) : string :=
  "Incremental sync from " +:+ isoformat start_date +:+ " to " +:+ isoformat today.

Definition initial_notice (start_date today : date) : string :=
  "Initial sync: " +:+ isoformat start_date +:+ " to " +:+ isoformat today
  +:+ " (" +:+ pretty HISTORY_DAYS +:+ " days)".

(** A round of the prompting loop that starts in [w] gets as far as the MFA
    code: the login with the credentials answered "needs_mfa" with the
    client state [client_state], and the code [mfa_code] was typed, which
    leaves the world [w4]. *)
Definition asks_mfa_code (host : Host) (w w4 : World) (client_state : json)
    (mfa_code : string) : Prop :=
  ∃ email w1 password w2 result1,
    getenv_or host "EMAIL" (input "Login email: ") w = (Ret email, w1)
    ∧ getenv_or host "PASSWORD" (input "Enter password: ") w1 = (Ret password, w2)
    ∧ login_credentials host (trace w2) email password = LoginReturns result1 client_state
    ∧ str_eq result1 "needs_mfa" = true
    ∧ input "Enter MFA code: " (log (EAuth (LoginCredentials email password)) w2)
      = (Ret mfa_code, w4).

(** A remote service that returns the same data whenever it is asked:
    the answer to a call is [answers m args], whatever happened before. *)
Definition stateless (api : Garmin) (answers : api_method → list arg → outcome) : Prop :=
  ∀ h m args, respond api h m args = answers m args.

(** What [api_call] gives for a call that is answered by [o] at every
    attempt: the value, absent for every [Exception] (after the retries
    when it is a rate limit), and Ctrl-C or [SystemExit] passed on. *)
Definition api_value (o : outcome) : result json :=
  match o with
  | Returns v => Ret v
  | Fails e => if is_Exception e then Ret JNull else Raise e
  end.


(** The content of the sync-state file for the date [d]. *)
Definition state_record (d : date) : json :=
  JObj [("last_sync_date", JStr (isoformat d))].


(** From [w0] to [w] files have only appeared and events have only been
    added. *)
Definition grows (w0 w : World) : Prop :=
  dom (fs w0) ⊆ dom (fs w) ∧ ∃ evs, trace w = trace w0 ++ evs.

(** From [w0] to [w] no file was written: the files are the same and the
    events added hold no write. *)
Definition idle (w0 w : World) : Prop :=
  fs w = fs w0 ∧ ∃ evs, trace w = trace w0 ++ evs ∧ written evs = [].

(** The daily metrics of the day written [date_str] are settled in [w]:
    each has its cache file, or the service has nothing for it. *)
Definition day_settled (host : Host) (answers : api_method → list arg → outcome)
    (date_str : string) (w : World) : Prop :=
  ∀ file m args, daily_guard host date_str file m args →
    daily_path host date_str file ∈ dom (fs w) ∨ api_value (answers m args) = Ret JNull.

(** The computation [m] run in [w] returns [a] in the world [w'], and the
    files it wrote on the way are exactly [ws], in order. *)
Definition runs {A} (m : M A) (w : World) (a : A) (ws : list (string * json))
    (w' : World) : Prop :=
  m w = (Ret a, w') ∧ ∃ evs, trace w' = trace w ++ evs ∧ written evs = ws.

(** The data of the service cause no interruption (no Ctrl-C, no
    [SystemExit]). *)
Definition never_interrupts (answers : api_method → list arg → outcome) : Prop :=
  ∀ m args e, answers m args = Fails e → is_Exception e = true.



(** ** Example hosts and worlds *)

Definition empty_world : World := mkWorld ∅ [] [].

(** The summary record of activity number [n]. *)
Definition summary (n : nat) : json :=
  JObj [("activityId", JNum (Z.of_nat n)); ("activityName", JStr "Run")].

Definition summaries (first count : nat) : list json := summary <$> seq first count.

(** A service with 237 activities, served in slices; it has no detail for
    any of them and nothing else. *)
Definition paged_answers (m : api_method) (args : list arg) : json :=
  match m, args with
  | get_activities, [AInt start; AInt limit] =>
      JList (take (Z.to_nat limit) (drop (Z.to_nat start) (summaries 1 237)))
  | _, _ => JNull
  end.

Definition paged_service : Garmin := mkGarmin (λ _ m args, Returns (paged_answers m args)).

(** A service that answers the same way every time: sleep data is rate
    limited, floors are not found, there is no HRV data, activity details
    time out, two activities and a record without identifier are listed. *)
Definition steady_answers (m : api_method) (args : list arg) : outcome :=
  match m with
  | get_sleep_data => Fails (Exc GarthHTTPError "429 Client Error: Too Many Requests")
  | get_floors => Fails (Exc GarthHTTPError "404 Client Error: Not Found")
  | get_hrv_data => Returns JNull
  | get_activity => Fails (Exc OtherException "timed out")
  | get_activities | get_activities_by_date =>
      Returns (JList [summary 7; JObj [("activityName", JStr "Walk")]; summary 8])
  | _ => Returns (JStr "data")
  end.

Definition steady_service : Garmin := mkGarmin (λ _ m args, steady_answers m args).

(** A service that is rate limited on the first two calls of each method. *)
Definition flaky_service : Garmin :=
  mkGarmin (λ h m args,
    if (length (calls_of m h) <? 2)%nat
    then Fails (Exc GarminConnectTooManyRequestsError "Too many requests")
    else Returns (JStr "profile")).

(** A machine with stored tokens, on 2021-07-29. *)
Definition steady_host : Host :=
  mkHost "/home/user" (λ _, None) (λ _, 738000)
    (λ _ _, None)
    (λ _ _ _, LoginFails (Exc GarminConnectConnectionError "offline"))
    (λ _ _ _, None) (λ _ _, None) steady_service.

(** A machine without stored tokens: the login asks for an MFA code and
    judges it by its digits. *)
Definition login_host : Host :=
  mkHost "/home/user" (λ _, None) (λ _, 738000)
    (λ _ path, Some (Exc FileNotFoundError path))
    (λ _ _ _, LoginReturns (JStr "needs_mfa") (JObj [("signin", JStr "pending")]))
    (λ _ _ code,
       if String.eqb code "429429"
       then Some (Exc GarthHTTPError "429 Client Error: Too Many Requests")
       else if String.eqb code "000000" then Some (Exc GarthException "MFA rejected")
       else None)
    (λ _ _, None) steady_service.

(** The file tree after a sync on 2021-07-28. *)
Definition synced_yesterday : World :=
  mkWorld {[ SYNC_STATE_FILE steady_host := JObj [("last_sync_date", JStr "2021-07-28")] ]}
    [] [].


(** A state file without a date, and one summary already cached for today. *)
Definition blank_state : World :=
  mkWorld {[ SYNC_STATE_FILE steady_host := JObj [("last_sync_date", JStr "")];
             daily_path steady_host "2021-07-29" "summary.json" := JStr "cached" ]}
    [] [].

(** The world after the first run of the script from [synced_yesterday]. *)
Abbreviation after_first_run := ((main steady_host 1 synced_yesterday).2).

(** Keyboard scripts for the login prompts. *)
Definition typed (lines : list string) : World := mkWorld ∅ [] (Typed <$> lines).

(** ** Further observations *)

(** Every run of [m] takes the world to one related to it by [R], whatever
    the outcome. *)
Definition steps {A} (R : relation World) (m : M A) : Prop := ∀ w, R w (m w).2.

(** Every file of [w0] is in [w] with the same content. *)
Definition files_kept (w0 w : World) : Prop :=
  ∀ p v, fs w0 !! p = Some v → fs w !! p = Some v.

(** The same, but for the files at [paths]. *)
Definition files_kept_except (paths : list string) (w0 w : World) : Prop :=
  ∀ p v, p ∉ paths → fs w0 !! p = Some v → fs w !! p = Some v.

(** From [w0] to [w] events were only added, and each of them is [ok]. *)
Definition emits (ok : event → Prop) (w0 w : World) : Prop :=
  ∃ evs, trace w = trace w0 ++ evs ∧ Forall ok evs.

(** An event that is no file write, or the write of a value other than
    [None]. *)
Definition writes_data (e : event) : Prop :=
  match e with
  | EWrite _ data => is_None data = false
  | _ => True
  end.

(** The documents [main] refreshes without a cache check. *)
Definition refreshed_paths (host : Host) : list string :=
  [ BASE_DIR host </> "body_composition" </> "body_comp.json";
    BASE_DIR host </> "body_composition" </> "weigh_ins.json";
    BASE_DIR host </> "weekly" </> "steps.json";
    BASE_DIR host </> "weekly" </> "stress.json";
    BASE_DIR host </> "profile" </> "user_profile.json";
    BASE_DIR host </> "profile" </> "devices.json";
    BASE_DIR host </> "personal_records.json" ].

(** All the documents [main] overwrites: the refreshed ones and the sync
    state. *)
Definition rewritten_paths (host : Host) : list string :=
  refreshed_paths host ++ [SYNC_STATE_FILE host].

(** The cache files of the days [start .. end_] all satisfy [cache]. *)
Definition daily_files_in (host : Host) (cache : string → Prop) (start end_ : date) : Prop :=
  ∀ d file m args, start ≤ d ≤ end_ →
    daily_guard host (isoformat d) file m args → cache (daily_path host (isoformat d) file).

(** The cache file of the record [a], when it has one, satisfies [cache]. *)
Definition activity_file_in (cache : string → Prop) (dir : string) (a : json) : Prop :=
  ∀ fields, a = JObj fields → truthy (activity_id fields) = true →
    cache (activity_file dir (activity_id fields)).

(** The cache files of all the records the service lists with method [m]
    satisfy [cache]. *)
Definition listed_files_in (api : Garmin) (m : api_method) (cache : string → Prop)
    (dir : string) : Prop :=
  ∀ h args items a, respond api h m args = Returns (JList items) → a ∈ items →
    activity_file_in cache dir a.

(** The token store [init_api] reads and writes: [GARMINTOKENS], or
    [~/.garminconnect], with the home directory expanded. *)
Definition tokenstore_path (host : Host) : string :=
  expanduser host (default "~/.garminconnect" (getenv host "GARMINTOKENS")).

(** The events of session acquisition: prints, prompts and requests to the
    login service, where tokens are read from and stored at [ts] only. *)
Definition login_event (ts : string) (e : event) : Prop :=
  match e with
  | EPrint _ | EPrompt _ => True
  | EAuth (LoginTokens p) | EAuth (DumpTokens p) => p = ts
  | EAuth _ => True
  | _ => False
  end.

(** From [w0] to [w] nothing happened but a login with the token store
    [ts]: the files are the same, keyboard input was only consumed, and
    every event is a [login_event]. *)
Definition logging_in (ts : string) (w0 w : World) : Prop :=
  fs w = fs w0 ∧ stdin w `suffix_of` stdin w0 ∧ emits (login_event ts) w0 w.

(** The exceptions after which [init_api] gives up the stored tokens and
    goes on to the credentials. *)
Definition token_fallback (e : exn) : bool :=
  isinstance e FileNotFoundError || isinstance e GarthHTTPError
  || isinstance e GarminConnectAuthenticationError
  || isinstance e GarminConnectConnectionError.

(** The exceptions the prompting loop reports as a connection error. *)
Definition connection_failure (e : exn) : bool :=
  isinstance e FileNotFoundError || isinstance e GarthHTTPError
  || isinstance e GarminConnectConnectionError || isinstance e RequestsHTTPError.

(** The events of one round of the prompting loop in which the credentials
    of the environment are rejected. *)
Definition rejected_round (email password : string) : list event :=
  [EAuth (LoginCredentials email password); EPrint "Invalid credentials. Try again."].

(** The service accepted a login with credentials and the token store
    [ts]: the credentials, the MFA code when one was asked for, and the
    storing of the tokens. *)
Definition accepted_login (host : Host) (ts : string) : Prop :=
  ∃ h email password result1 result2,
    login_credentials host h email password = LoginReturns result1 result2
    ∧ (str_eq result1 "needs_mfa" = true →
       ∃ h' mfa_code, resume_login host h' result2 mfa_code = None)
    ∧ ∃ h'', dump_tokens host h'' ts = None.

(** [m] returns from every world. *)
Definition returns {A} (m : M A) : Prop := ∀ w, ∃ a w', m w = (Ret a, w').

(** The wait after rate-limited attempt number [i] (counted from 0). *)
Definition retry_wait (i : nat) : Z := RETRY_BACKOFF * (Z.of_nat i + 1).

(** A record the activity loops do not skip: a dict with a truthy
    [activityId]. *)
Definition identified (a : json) : bool :=
  match a with
  | JObj fields => truthy (activity_id fields)
  | _ => false
  end.

(** The number the full sync counts up to over [items]. *)
Definition identified_count (items : list json) : Z :=
  Z.of_nat (length (List.filter identified items)).

(** The first line of the incremental activity sync. *)
Definition activities_notice (start_date end_date : date) : string :=
  "Syncing activities from " +:+ isoformat start_date +:+ " to "
  +:+ isoformat end_date +:+ "...".

(** The progress line of the daily sync for the [i]-th day of [days]. *)
Definition progress_line (days i : Z) (d : date) : string :=
  "Syncing daily data: " +:+ isoformat d +:+ "... " +:+ pretty i +:+ "/" +:+ pretty days.

(** The progress lines of the daily sync among some events. *)
Definition progress_lines (evs : list event) : list string :=
  omap (λ e, match e with
             | EPrint line =>
                 if String.prefix "Syncing daily data: " line then Some line else None
             | _ => None
             end) evs.

(** The progress lines for [count] days from [d], the first one numbered
    [i + 1]. *)
Fixpoint progress_from (days : Z) (count : nat) (i : Z) (d : date) : list string :=
  match count with
  | O => []
  | S count' => progress_line days (i + 1) d :: progress_from days count' (i + 1) (d + 1)
  end.

(** [m] returns from every world, and the progress lines it prints are
    [lines]. *)
Definition yields {A} (m : M A) (lines : list string) : Prop :=
  ∀ w, ∃ a w' evs,
    m w = (Ret a, w') ∧ trace w' = trace w ++ evs ∧ progress_lines evs = lines.

(** The sync-state file is the same in [w] as in [w0]: absent in both, or
    with the same content. *)
Definition state_kept (host : Host) (w0 w : World) : Prop :=
  fs w !! SYNC_STATE_FILE host = fs w0 !! SYNC_STATE_FILE host.

(** Every activity the service lists under an identifier, in the full list
    or in the list of a date range, has a number for identifier. *)
Definition numeric_ids (api : Garmin) : Prop :=
  ∀ h m args items fields,
    m = get_activities ∨ m = get_activities_by_date →
    respond api h m args = Returns (JList items) → JObj fields ∈ items →
    truthy (activity_id fields) = true → ∃ n, activity_id fields = JNum n.

(** An event that is no write to the file at [path]. *)
Definition spares (path : string) (e : event) : Prop :=
  match e with
  | EWrite p _ => p ≠ path
  | _ => True
  end.

(** An event that is a printed line. *)
Definition printed (e : event) : Prop :=
  match e with
  | EPrint _ => True
  | _ => False
  end.

(** From [w0] to [w] the sync-state file was left alone: no event added is
    a write to it, and it is the same in [w] as in [w0]. *)
Definition state_untouched (host : Host) (w0 w : World) : Prop :=
  state_kept host w0 w ∧ emits (spares (SYNC_STATE_FILE host)) w0 w.

(** From [w0] to [w] the sync-state file was written once, and last: the
    events before that write spare it, the ones after it are printed
    lines. *)
Definition state_written_last (host : Host) (w0 w : World) : Prop :=
  ∃ pre v post,
    trace w = trace w0 ++ pre ++ EWrite (SYNC_STATE_FILE host) v :: post
    ∧ Forall (spares (SYNC_STATE_FILE host)) pre ∧ Forall printed post.

(** A run of [m] ends in a world related to the one it started in by [Q]
    when it returns, and by [R] when it does not. *)
Definition ends_in {A} (R Q : relation World) (m : M A) : Prop :=
  ∀ w, match (m w).1 with Ret _ => Q w (m w).2 | _ => R w (m w).2 end.

(** What holds from [w0] to [w] while activities are synced into [dir]:
    no file of [w0] has changed; every file written was written once and
    was not there in [w0]; no detail was requested for an activity whose
    cache file was there in [w0]. *)
Definition activity_cache (dir : string) (w0 w : World) : Prop :=
  files_kept w0 w
  ∧ ∃ evs, trace w = trace w0 ++ evs
      ∧ NoDup (write_paths evs)
      ∧ (∀ p, p ∈ write_paths evs → fs w0 !! p = None ∧ is_Some (fs w !! p))
      ∧ (∀ s, [AStr s] ∈ calls_of get_activity evs →
           fs w0 !! (dir </> (s +:+ ".json")) = None).

(** The same, read off the events [evs] of a run that started in [w]. *)
Definition uses_activity_cache (dir : string) (w : World) (evs : list event) : Prop :=
  NoDup (write_paths evs)
  ∧ (∀ p, p ∈ write_paths evs → fs w !! p = None)
  ∧ (∀ s, is_Some (fs w !! (dir </> (s +:+ ".json"))) →
       [AStr s] ∉ calls_of get_activity evs).

(** ** Further example hosts and worlds *)

(** A machine whose environment holds credentials the service rejects, and
    no stored tokens. *)
Definition locked_out_host : Host :=
  mkHost "/home/user"
    (λ name, if String.eqb name "EMAIL" then Some "user@example.org"
             else if String.eqb name "PASSWORD" then Some "secret" else None)
    (λ _, 738000)
    (λ _ path, Some (Exc FileNotFoundError path))
    (λ _ _ _, LoginFails (Exc GarminConnectAuthenticationError "401 Unauthorized"))
    (λ _ _ _, None) (λ _ _, None) steady_service.

(** A state file whose date is no date. *)
Definition garbled_state : World :=
  mkWorld {[ SYNC_STATE_FILE steady_host := JObj [("last_sync_date", JStr "yesterday")] ]}
    [] [].

(** A service that lists two activities and answers every request but the
    one for the weekly stress, during which Ctrl-C is pressed. *)
Definition interrupting_service : Garmin :=
  mkGarmin (λ _ m _, match m with
                     | get_weekly_stress => Fails KeyboardInterrupt
                     | get_activities | get_activities_by_date =>
                         Returns (JList [summary 7; summary 8])
                     | _ => Returns (JStr "data")
                     end).

Definition interrupted_host : Host :=
  mkHost "/home/user" (λ _, None) (λ _, 738000)
    (λ _ _, None)
    (λ _ _ _, LoginFails (Exc GarminConnectConnectionError "offline"))
    (λ _ _ _, None) (λ _ _, None) interrupting_service.

(** A service that cannot be reached. *)
Definition offline_service : Garmin :=
  mkGarmin (λ _ _ _, Fails (Exc GarminConnectConnectionError "connection refused")).

(** A service that answers every request with an error document. *)
Definition confused_service : Garmin :=
  mkGarmin (λ _ _ _, Returns (JObj [("message", JStr "Service unavailable")])).

(** A service whose activity list never ends: every page is full. *)
Definition endless_service : Garmin :=
  mkGarmin (λ _ m _, match m with
                     | get_activities => Returns (JList (summaries 1 100))
                     | _ => Returns JNull
                     end).

(** ** The monad: equations *)

Lemma bind_unfold {A B} (m : M A) (f : A → M B) (w : World) :
  (m ≫= f) w =
  match m w with
  | (Ret a, w') => f a w'
  | (Raise e, w') => (Raise e, w')
  | (OutOfFuel, w') => (OutOfFuel, w')
  end.
Proof. reflexivity. Qed.

Lemma bind_ret {A B} (m : M A) (f : A → M B) w a w' :
  m w = (Ret a, w') → (m ≫= f) w = f a w'.
Proof. intros H. rewrite bind_unfold, H. reflexivity. Qed.

Lemma bind_raise {A B} (m : M A) (f : A → M B) w e w' :
  m w = (Raise e, w') → (m ≫= f) w = (Raise e, w').
Proof. intros H. rewrite bind_unfold, H. reflexivity. Qed.

Lemma bind_out_of_fuel {A B} (m : M A) (f : A → M B) w w' :
  m w = (OutOfFuel, w') → (m ≫= f) w = (OutOfFuel, w').
Proof. intros H. rewrite bind_unfold, H. reflexivity. Qed.

Lemma try_ret {A} (body : M A) handler w a w' :
  body w = (Ret a, w') → try body handler w = (Ret a, w').
Proof. intros H. unfold try. rewrite H. reflexivity. Qed.

Lemma try_raise {A} (body : M A) handler w e w' :
  body w = (Raise e, w') → try body handler w = handler e w'.
Proof. intros H. unfold try. rewrite H. reflexivity. Qed.

Lemma try_out_of_fuel {A} (body : M A) handler w w' :
  body w = (OutOfFuel, w') → try body handler w = (OutOfFuel, w').
Proof. intros H. unfold try. rewrite H. reflexivity. Qed.

Lemma print_run line w : print line w = (Ret tt, log (EPrint line) w).
Proof. reflexivity. Qed.

Lemma sleep_run seconds w : sleep seconds w = (Ret tt, log (ESleep seconds) w).
Proof. reflexivity. Qed.

Lemma save_json_run path data w :
  save_json path data w
  = (Ret tt, mkWorld (<[path := data]> (fs w)) (trace w ++ [EWrite path data]) (stdin w)).
Proof. reflexivity. Qed.

Lemma mret_run {A} (a : A) w : (mret a : M A) w = (Ret a, w).
Proof. reflexivity. Qed.

(** Run the effect at the head of a sequence. *)
Ltac run_head :=
  first
    [ rewrite (bind_ret _ _ _ _ _ (print_run _ _))
    | rewrite (bind_ret _ _ _ _ _ (sleep_run _ _))
    | rewrite (bind_ret _ _ _ _ _ (save_json_run _ _ _))
    | rewrite (bind_ret _ _ _ _ _ (mret_run _ _)) ].

(** ** [api_call]: one attempt at a time *)

Lemma api_call_attempts_nil op w :
  api_call_attempts op [] w = (Ret JNull, log (EPrint "  Giving up after max retries.") w).
Proof. reflexivity. Qed.

Lemma attempt_success op k rest w v w1 :
  op w = (Ret v, w1) → api_call_attempts op (k :: rest) w = (Ret v, w1).
Proof. intros H. simpl. by apply try_ret. Qed.

Lemma attempt_out_of_fuel op k rest w w1 :
  op w = (OutOfFuel, w1) → api_call_attempts op (k :: rest) w = (OutOfFuel, w1).
Proof. intros H. simpl. by apply try_out_of_fuel. Qed.

Lemma attempt_rate_limited op k rest w e w1 :
  op w = (Raise e, w1) → rate_limited e = true →
  api_call_attempts op (k :: rest) w = api_call_attempts op rest (backoff (k + 1) w1).
Proof.
  intros H Hrl. simpl. rewrite (try_raise _ _ _ _ _ H).
  unfold rate_limited in Hrl. apply andb_true_iff in Hrl as [Hc H429].
  unfold api_call_except. rewrite Hc, H429. reflexivity.
Qed.

Lemma attempt_soft_failure op k rest w e w1 :
  op w = (Raise e, w1) → is_Exception e = true → rate_limited e = false →
  api_call_attempts op (k :: rest) w = (Ret JNull, soft_failure e w1).
Proof.
  intros H Hex Hrl. simpl. rewrite (try_raise _ _ _ _ _ H).
  unfold rate_limited in Hrl. unfold api_call_except, soft_failure.
  destruct (isinstance e GarminConnectTooManyRequestsError || isinstance e GarthHTTPError);
    simpl in Hrl.
  - rewrite Hrl. reflexivity.
  - rewrite Hex. reflexivity.
Qed.

Lemma attempt_propagates op k rest w e w1 :
  op w = (Raise e, w1) → is_Exception e = false →
  api_call_attempts op (k :: rest) w = (Raise e, w1).
Proof.
  intros H Hex. simpl. rewrite (try_raise _ _ _ _ _ H).
  unfold api_call_except. destruct e; try discriminate; reflexivity.
Qed.

Lemma api_call_attempts_no_Exception op attempts w e w' :
  api_call_attempts op attempts w = (Raise e, w') → is_Exception e = false.
Proof.
  revert w. induction attempts as [|k rest IH]; intros w H.
  - rewrite api_call_attempts_nil in H. discriminate.
  - destruct (op w) as [[v|e1|] w1] eqn:Hop.
    + rewrite (attempt_success _ _ _ _ _ _ Hop) in H. discriminate.
    + destruct (is_Exception e1) eqn:Hex.
      * destruct (rate_limited e1) eqn:Hrl.
        -- rewrite (attempt_rate_limited _ _ _ _ _ _ Hop Hrl) in H. eauto.
        -- rewrite (attempt_soft_failure _ _ _ _ _ _ Hop Hex Hrl) in H. discriminate.
      * rewrite (attempt_propagates _ _ _ _ _ _ Hop Hex) in H. congruence.
    + rewrite (attempt_out_of_fuel _ _ _ _ _ Hop) in H. discriminate.
Qed.

(** C2 (as amended): the retry policy of [api_call], for every operation
    [api_method args] and every world.  A successful attempt returns its
    value.  A rate-limited attempt number k (1, 2, 3) is followed by a
    notice and a sleep of 5k seconds and then by the next attempt; after
    the third one [api_call] gives up and returns absent ([JNull]), so an
    operation that is rate limited twice and then succeeds returns its
    value after exactly the two waits of 5 and 10 seconds.  Any other
    [Exception] ends the call at once with absent and no retry: silently
    for an HTTP error of the login library, with a warning otherwise.  An
    exception outside [Exception] (Ctrl-C, [SystemExit]) is passed on to
    the caller, and nothing else ever is. *)
Theorem api_call_retry_policy (api_method : list arg → M json) (args : list arg) (w : World) :
  let op := api_method args in
  (∀ v w1, op w = (Ret v, w1) → api_call api_method args w = (Ret v, w1))
  ∧ (∀ e1 w1 v w2,
       op w = (Raise e1, w1) → rate_limited e1 = true →
       op (backoff 1 w1) = (Ret v, w2) →
       api_call api_method args w = (Ret v, w2))
  ∧ (∀ e1 w1 e2 w2 v w3,
       op w = (Raise e1, w1) → rate_limited e1 = true →
       op (backoff 1 w1) = (Raise e2, w2) → rate_limited e2 = true →
       op (backoff 2 w2) = (Ret v, w3) →
       api_call api_method args w = (Ret v, w3))
  ∧ (∀ e1 w1 e2 w2 e3 w3,
       op w = (Raise e1, w1) → rate_limited e1 = true →
       op (backoff 1 w1) = (Raise e2, w2) → rate_limited e2 = true →
       op (backoff 2 w2) = (Raise e3, w3) → rate_limited e3 = true →
       api_call api_method args w
       = (Ret JNull, log (EPrint "  Giving up after max retries.") (backoff 3 w3)))
  ∧ (∀ k rest w0 e w1,
       op w0 = (Raise e, w1) → is_Exception e = true → rate_limited e = false →
       api_call_attempts op (k :: rest) w0 = (Ret JNull, soft_failure e w1))
  ∧ (∀ k rest w0 e w1,
       op w0 = (Raise e, w1) → is_Exception e = false →
       api_call_attempts op (k :: rest) w0 = (Raise e, w1))
  ∧ (∀ e w', api_call api_method args w = (Raise e, w') → is_Exception e = false).
Proof.
  intros op. unfold api_call. fold op.
  change (range MAX_RETRIES) with [0; 1; 2].
  repeat split.
  - intros v w1 H. by apply attempt_success.
  - intros e1 w1 v w2 H1 R1 H2.
    rewrite (attempt_rate_limited _ _ _ _ _ _ H1 R1).
    by apply attempt_success.
  - intros e1 w1 e2 w2 v w3 H1 R1 H2 R2 H3.
    rewrite (attempt_rate_limited _ _ _ _ _ _ H1 R1).
    rewrite (attempt_rate_limited _ _ _ _ _ _ H2 R2).
    by apply attempt_success.
  - intros e1 w1 e2 w2 e3 w3 H1 R1 H2 R2 H3 R3.
    rewrite (attempt_rate_limited _ _ _ _ _ _ H1 R1).
    rewrite (attempt_rate_limited _ _ _ _ _ _ H2 R2).
    rewrite (attempt_rate_limited _ _ _ _ _ _ H3 R3).
    apply api_call_attempts_nil.
  - intros k rest w0 e w1. apply attempt_soft_failure.
  - intros k rest w0 e w1. apply attempt_propagates.
  - intros e w'. apply api_call_attempts_no_Exception.
Qed.

(** ** Hoare rules *)

Lemma hoare_ret {A} (a : A) (Q : result A → World → Prop) :
  hoare (Q (Ret a)) (mret a) Q.
Proof. intros w H. exact H. Qed.

Lemma hoare_bind {A B} (P : World → Prop) (m : M A) (f : A → M B)
    (Q1 : result A → World → Prop) (Q : result B → World → Prop) :
  hoare P m Q1 →
  (∀ a, hoare (Q1 (Ret a)) (f a) Q) →
  (∀ e w, Q1 (Raise e) w → Q (Raise e) w) →
  (∀ w, Q1 OutOfFuel w → Q OutOfFuel w) →
  hoare P (m ≫= f) Q.
Proof.
  intros Hm Hf He Ho w HP. specialize (Hm w HP). rewrite bind_unfold.
  destruct (m w) as [[a|e|] w1]; simpl in *; [by apply Hf | by apply He | by apply Ho].
Qed.

Lemma hoare_conseq {A} (P P' : World → Prop) (m : M A) (Q Q' : result A → World → Prop) :
  hoare P' m Q' → (∀ w, P w → P' w) → (∀ r w, Q' r w → Q r w) → hoare P m Q.
Proof. intros H HP HQ w Hw. apply HQ, H, HP, Hw. Qed.

(** A state predicate kept by every step is kept by a sequence. *)
Lemma hoare_seq_inv {A B} (I : World → Prop) (m : M A) (f : A → M B) :
  hoare I m (λ _, I) → (∀ a, hoare I (f a) (λ _, I)) → hoare I (m ≫= f) (λ _, I).
Proof. intros Hm Hf. eapply hoare_bind; [exact Hm | exact Hf | auto | auto]. Qed.

Lemma hoare_for_each_inv {A} (I : World → Prop) (xs : list A) (body : A → M unit) :
  (∀ x, x ∈ xs → hoare I (body x) (λ _, I)) → hoare I (for_each xs body) (λ _, I).
Proof.
  induction xs as [|x rest IH]; intros Hbody.
  - intros w H. exact H.
  - simpl. apply hoare_seq_inv.
    + apply Hbody. by left.
    + intros _. apply IH. intros y Hy. apply Hbody. by right.
Qed.


(** ** Events *)

Lemma events_since_app w w' evs :
  trace w' = trace w ++ evs → events_since w w' = evs.
Proof. intros H. unfold events_since. rewrite H. apply drop_app_length. Qed.


Lemma written_app evs1 evs2 : written (evs1 ++ evs2) = written evs1 ++ written evs2.
Proof. apply omap_app. Qed.

Lemma write_paths_app evs1 evs2 :
  write_paths (evs1 ++ evs2) = write_paths evs1 ++ write_paths evs2.
Proof. unfold write_paths. rewrite written_app. apply fmap_app. Qed.

Lemma calls_of_app m evs1 evs2 : calls_of m (evs1 ++ evs2) = calls_of m evs1 ++ calls_of m evs2.
Proof. apply omap_app. Qed.

Lemma sleeps_app evs1 evs2 : sleeps (evs1 ++ evs2) = sleeps evs1 ++ sleeps evs2.
Proof. apply omap_app. Qed.

Lemma api_events_written m args evs : api_events m args evs → written evs = [].
Proof.
  induction 1 as [|e evs He _ IH]; [done|].
  destruct e; simpl in *; try done.
Qed.

Lemma api_events_calls m args m' evs a :
  api_events m args evs → a ∈ calls_of m' evs → m' = m ∧ a = args.
Proof.
  induction 1 as [|e evs He _ IH]; simpl; [by intros ?%elem_of_nil|].
  destruct e; simpl in *; try done.
  destruct He as [-> ->]. case_decide; [|done].
  intros [->|Hin]%elem_of_cons; [done | by apply IH].
Qed.

Lemma api_events_app m args evs1 evs2 :
  api_events m args evs1 → api_events m args evs2 → api_events m args (evs1 ++ evs2).
Proof. apply Forall_app_2. Qed.

(** ** [api_call] around a remote method *)

Lemma invoke_unfold api m args w :
  invoke api m args w
  = (match respond api (trace w) m args with
     | Returns v => Ret v
     | Fails e => Raise e
     end, log (ECall m args) w).
Proof. unfold invoke. by destruct (respond api (trace w) m args). Qed.

(** [api_call] on a remote method leaves the files and the keyboard alone,
    adds only calls of that method, notices and sleeps, and ends. *)
Lemma api_call_attempts_invoke api m args attempts w :
  let out := api_call_attempts (invoke api m args) attempts w in
  fs out.2 = fs w ∧ stdin out.2 = stdin w
  ∧ (∃ evs, trace out.2 = trace w ++ evs ∧ api_events m args evs)
  ∧ match out.1 with
    | Ret _ => True
    | Raise e => is_Exception e = false
    | OutOfFuel => False
    end.
Proof.
  cbv zeta. revert w. induction attempts as [|k rest IH]; intros w.
  - rewrite api_call_attempts_nil. simpl. repeat split.
    eexists. split; [reflexivity|]. by repeat constructor.
  - pose proof (invoke_unfold api m args w) as Hop.
    destruct (respond api (trace w) m args) as [v|e].
    + rewrite (attempt_success _ _ _ _ _ _ Hop). simpl. repeat split.
      eexists. split; [reflexivity|]. by repeat constructor.
    + destruct (is_Exception e) eqn:Hex.
      * destruct (rate_limited e) eqn:Hrl.
        -- rewrite (attempt_rate_limited _ _ _ _ _ _ Hop Hrl).
           destruct (IH (backoff (k + 1) (log (ECall m args) w)))
             as (Hfs & Hin & (evs & Htr & Hev) & Hr).
           repeat split; [done | done | | done].
           eexists. split.
           ++ rewrite Htr. simpl. rewrite <- !app_assoc. reflexivity.
           ++ simpl. repeat constructor; done.
        -- rewrite (attempt_soft_failure _ _ _ _ _ _ Hop Hex Hrl). simpl.
           unfold soft_failure.
           destruct (isinstance e GarminConnectTooManyRequestsError || isinstance e GarthHTTPError);
             simpl; repeat split.
           ++ eexists. split; [reflexivity|]. by repeat constructor.
           ++ eexists. split; [rewrite <- app_assoc; reflexivity|]. by repeat constructor.
      * rewrite (attempt_propagates _ _ _ _ _ _ Hop Hex). simpl. repeat split; [|done].
        eexists. split; [reflexivity|]. by repeat constructor.
Qed.

Lemma api_call_invoke api m args w :
  let out := api_call (invoke api m) args w in
  fs out.2 = fs w ∧ stdin out.2 = stdin w
  ∧ (∃ evs, trace out.2 = trace w ++ evs ∧ api_events m args evs)
  ∧ match out.1 with
    | Ret _ => True
    | Raise e => is_Exception e = false
    | OutOfFuel => False
    end.
Proof. apply api_call_attempts_invoke. Qed.

(** With a client that is never interrupted, [api_call] returns. *)
Lemma api_call_attempts_returns api m args attempts w :
  uninterrupted api →
  ∃ v, (api_call_attempts (invoke api m args) attempts w).1 = Ret v.
Proof.
  intros Hun. revert w. induction attempts as [|k rest IH]; intros w.
  - by eexists.
  - pose proof (invoke_unfold api m args w) as Hop.
    destruct (respond api (trace w) m args) as [v|e] eqn:Hres.
    + rewrite (attempt_success _ _ _ _ _ _ Hop). by eexists.
    + pose proof (Hun _ _ _ _ Hres) as Hex.
      destruct (rate_limited e) eqn:Hrl.
      * rewrite (attempt_rate_limited _ _ _ _ _ _ Hop Hrl). apply IH.
      * rewrite (attempt_soft_failure _ _ _ _ _ _ Hop Hex Hrl). by eexists.
Qed.

(** ** The daily sync keeps its invariant *)

Lemma daily_calls_file_of_method f1 f2 m :
  (f1, m) ∈ daily_calls → (f2, m) ∈ daily_calls → f1 = f2.
Proof.
  unfold daily_calls. intros H1 H2.
  repeat (apply elem_of_cons in H1 as [H1|H1]; [injection H1 as -> -> |]);
    try (by apply elem_of_nil in H1);
    repeat (apply elem_of_cons in H2 as [H2|H2]; [by injection H2 |]);
    by apply elem_of_nil in H2.
Qed.

Lemma body_battery_not_daily f : (f, get_body_battery) ∉ daily_calls.
Proof.
  unfold daily_calls. intros H.
  repeat (apply elem_of_cons in H as [H|H]; [discriminate |]).
  by apply elem_of_nil in H.
Qed.

(** A call determines the day and the cache file that guards it. *)
Lemma daily_guard_inj host ds1 f1 ds2 f2 m args :
  daily_guard host ds1 f1 m args → daily_guard host ds2 f2 m args → ds1 = ds2 ∧ f1 = f2.
Proof.
  intros [[H1 ->]|(-> & -> & ->)] [[H2 E]|(-> & E1 & E2)].
  - injection E as ->. split; [done|]. by eapply daily_calls_file_of_method.
  - subst. by apply body_battery_not_daily in H1.
  - discriminate.
  - by injection E2 as ->.
Qed.

Lemma daily_inv_refl host start end_ w : daily_inv host start end_ w w.
Proof.
  exists []. rewrite app_nil_r. split_and!; try done.
  - constructor.
  - by intros p ?%elem_of_nil.
  - intros ? ? ? ? _ _ ?%elem_of_nil. done.
Qed.

(** Events that are neither writes nor calls keep the invariant. *)
Lemma daily_inv_quiet host start end_ w0 w w' evs' :
  daily_inv host start end_ w0 w →
  trace w' = trace w ++ evs' → fs w' = fs w →
  written evs' = [] → (∀ m, calls_of m evs' = []) →
  daily_inv host start end_ w0 w'.
Proof.
  intros (evs & Htr & Hdom & Hnd & Hwr & Hcalls) Htr' Hfs Hw Hc.
  exists (evs ++ evs'). rewrite Htr', Htr, Hfs, write_paths_app.
  unfold write_paths at 2 4. rewrite Hw, app_nil_r, app_assoc.
  split_and!; try done.
  intros ds file m args Hg Hin. rewrite calls_of_app, Hc, app_nil_r. by eapply Hcalls.
Qed.

(** A fetch for a file that is absent keeps the invariant, whether it ends
    in a write of that file or not. *)
Lemma daily_inv_fetch host start end_ w0 w w' evs' d file m args :
  daily_inv host start end_ w0 w →
  start ≤ d ≤ end_ →
  daily_guard host (isoformat d) file m args →
  fs w !! daily_path host (isoformat d) file = None →
  trace w' = trace w ++ evs' →
  (∀ m' a, a ∈ calls_of m' evs' → m' = m ∧ a = args) →
  (written evs' = [] ∧ fs w' = fs w)
  ∨ (∃ data, written evs' = [(daily_path host (isoformat d) file, data)]
             ∧ fs w' = <[daily_path host (isoformat d) file := data]> (fs w)) →
  daily_inv host start end_ w0 w'.
Proof.
  intros (evs & Htr & Hdom & Hnd & Hwr & Hcalls) Hd Hg Hnone Htr' Hc Hcase.
  set (p := daily_path host (isoformat d) file) in *.
  assert (Hp : p ∉ dom (fs w)) by by apply not_elem_of_dom.
  assert (Hdom' : dom (fs w) ⊆ dom (fs w')).
  { destruct Hcase as [[_ ->]|(data & _ & ->)]; [done|]. rewrite dom_insert. set_solver. }
  exists (evs ++ evs'). rewrite Htr', Htr, app_assoc. split; [done|].
  split; [set_solver|].
  assert (Hcalls' : ∀ ds f m0 a, daily_guard host ds f m0 a →
            daily_path host ds f ∈ dom (fs w0) → a ∉ calls_of m0 (evs ++ evs')).
  { intros ds f m0 a Hg0 Hin. rewrite calls_of_app. intros [Hl|Hr]%elem_of_app.
    - by eapply Hcalls.
    - destruct (Hc _ _ Hr) as [-> ->].
      destruct (daily_guard_inj _ _ _ _ _ _ _ Hg0 Hg) as [-> ->]. set_solver. }
  rewrite write_paths_app.
  destruct Hcase as [[Hw _]|(data & Hw & Hfs)]; unfold write_paths at 2 4; rewrite Hw; simpl.
  - rewrite app_nil_r. split_and!; try done.
    intros q Hq. destruct (Hwr q Hq) as (? & ? & ?). split_and!; [set_solver | done | done].
  - split_and!; try done.
    + apply NoDup_app. split_and!; [done | | apply NoDup_singleton].
      intros q Hq ->%list_elem_of_singleton. apply Hp, Hwr, Hq.
    + intros q [Hq| ->%list_elem_of_singleton]%elem_of_app.
      * destruct (Hwr q Hq) as (? & ? & ?). split_and!; [set_solver | done | done].
      * split_and!; [rewrite Hfs, dom_insert; set_solver | set_solver |].
        by exists d, file, m, args.
Qed.

Lemma daily_inv_log host start end_ w0 w e :
  written [e] = [] → (∀ m, calls_of m [e] = []) →
  daily_inv host start end_ w0 w → daily_inv host start end_ w0 (log e w).
Proof. intros Hw Hc H. by eapply daily_inv_quiet. Qed.

(** The skip-if-cached fetch that [sync_daily_data] does for each metric. *)
Lemma cached_fetch_inv host start end_ w0 api d file m args :
  start ≤ d ≤ end_ →
  daily_guard host (isoformat d) file m args →
  hoare (daily_inv host start end_ w0)
    (cached ← path_exists (daily_path host (isoformat d) file);
     if cached : bool then mret tt
     else
       data ← api_call (invoke api m) args;
       (if negb (is_None data) then save_json (daily_path host (isoformat d) file) data
        else mret tt);;
       sleep API_DELAY)
    (λ _, daily_inv host start end_ w0).
Proof.
  intros Hd Hg w Hinv.
  set (p := daily_path host (isoformat d) file).
  rewrite bind_unfold. unfold path_exists at 1.
  case_bool_decide as Hsome; [exact Hinv|].
  assert (Hnone : fs w !! p = None) by by apply eq_None_not_Some.
  rewrite bind_unfold.
  destruct (api_call_invoke api m args w) as (Hfs & _ & (evs & Htr & Hev) & Hres).
  destruct (api_call (invoke api m) args w) as [[data|e|] w1]; simpl in *; [| |done].
  - destruct (is_None data); simpl.
    + eapply (daily_inv_fetch _ _ _ _ w _ (evs ++ [ESleep API_DELAY])); eauto.
      * simpl. rewrite Htr, app_assoc. reflexivity.
      * intros m' a. rewrite calls_of_app, app_nil_r. by eapply api_events_calls.
      * left. rewrite written_app, (api_events_written _ _ _ Hev). done.
    + eapply (daily_inv_fetch _ _ _ _ w _ (evs ++ [EWrite p data; ESleep API_DELAY])); eauto.
      * simpl. rewrite Htr, <- !app_assoc. reflexivity.
      * intros m' a. rewrite calls_of_app, app_nil_r. by eapply api_events_calls.
      * right. exists data. rewrite written_app, (api_events_written _ _ _ Hev), Hfs. done.
  - eapply (daily_inv_fetch _ _ _ _ w _ evs); eauto.
    + intros m' a. by eapply api_events_calls.
    + left. by rewrite (api_events_written _ _ _ Hev).
Qed.

Lemma daily_metric_inv host start end_ w0 api d call :
  start ≤ d ≤ end_ → call ∈ daily_calls →
  hoare (daily_inv host start end_ w0)
    (daily_metric api (BASE_DIR host </> "daily" </> isoformat d) (isoformat d) call)
    (λ _, daily_inv host start end_ w0).
Proof.
  intros Hd Hin. destruct call as [file m].
  apply (cached_fetch_inv host start end_ w0 api d file m [AStr (isoformat d)] Hd).
  by left.
Qed.

Lemma daily_day_inv host start end_ w0 api days i d :
  start ≤ d ≤ end_ →
  hoare (daily_inv host start end_ w0) (daily_day host api days i d)
    (λ _, daily_inv host start end_ w0).
Proof.
  intros Hd. unfold daily_day. apply hoare_seq_inv.
  { intros w H. by apply daily_inv_log. }
  intros _. apply hoare_seq_inv.
  { apply hoare_for_each_inv. intros call Hin. by apply daily_metric_inv. }
  intros _.
  apply (cached_fetch_inv host start end_ w0 api d "body_battery.json" get_body_battery
           [AStr (isoformat d); AStr (isoformat d)] Hd).
  by right.
Qed.

Lemma daily_loop_inv host start end_ w0 api fuel days i current :
  start ≤ current →
  hoare (daily_inv host start end_ w0) (daily_loop host fuel api end_ days i current)
    (λ _, daily_inv host start end_ w0).
Proof.
  revert i current. induction fuel as [|fuel IH]; intros i current Hle; simpl.
  - intros w H. exact H.
  - destruct (Z.leb_spec current end_) as [Hin|Hout]; [|by intros w H].
    apply hoare_seq_inv.
    + apply daily_day_inv. lia.
    + intros _. apply IH. lia.
Qed.

(** The loop test decides when the daily loop stops: fuel beyond one unit
    per remaining day changes nothing. *)
Lemma daily_loop_fuel host api end_ days fuel fuel' i current w :
  (Z.to_nat (end_ + 1 - current) ≤ fuel)%nat → (Z.to_nat (end_ + 1 - current) ≤ fuel')%nat →
  daily_loop host fuel api end_ days i current w
  = daily_loop host fuel' api end_ days i current w.
Proof.
  revert fuel' i current w. induction fuel as [|fuel IH]; intros fuel' i current w H H'.
  - destruct fuel' as [|fuel']; [done|]. simpl.
    destruct (Z.leb_spec current end_); [lia | done].
  - destruct fuel' as [|fuel']; simpl.
    + destruct (Z.leb_spec current end_); [lia | done].
    + destruct (Z.leb_spec current end_); [|done].
      rewrite !bind_unfold. destruct (daily_day host api days (i + 1) current w) as [[[]|e|] w1];
        [|done|done].
      apply IH; lia.
Qed.

(** C4: in one run of [sync_daily_data] no file is written twice, every
    write goes to the cache file of one of the thirteen metrics (the twelve
    of [daily_calls] and [body_battery.json]) of a day in the range, and a
    metric whose cache file exists before the run is not requested from the
    remote service for that day. *)
Theorem sync_daily_data_uses_cache (host : Host) (api : Garmin) (start end_ : date) (w : World) :
  let evs := events_since w (sync_daily_data host api start end_ w).2 in
  NoDup (write_paths evs)
  ∧ (∀ p, p ∈ write_paths evs →
       ∃ d file m args, (start ≤ d ≤ end_)
         ∧ daily_guard host (isoformat d) file m args
         ∧ p = daily_path host (isoformat d) file)
  ∧ (∀ date_str file m args,
       daily_guard host date_str file m args →
       is_Some (fs w !! daily_path host date_str file) →
       args ∉ calls_of m evs).
Proof.
  intros evs.
  destruct (daily_loop_inv host start end_ w api (Z.to_nat (end_ + 1 - start))
              (end_ - start + 1) 0 start (Z.le_refl _) w (daily_inv_refl _ _ _ _))
    as (evs' & Htr & _ & Hnd & Hwr & Hcalls).
  assert (evs = evs') as -> by (by apply events_since_app).
  split_and!; [done | |].
  - intros p Hp. by apply Hwr.
  - intros ds file m args Hg Hsome. eapply Hcalls; [done|]. by apply elem_of_dom.
Qed.

(** ** Activities *)

Lemma path_exists_unfold path w :
  path_exists path w = (Ret (bool_decide (is_Some (fs w !! path))), w).
Proof. reflexivity. Qed.

Lemma path_exists_absent path w :
  fs w !! path = None → path_exists path w = (Ret false, w).
Proof.
  intros H. rewrite path_exists_unfold, bool_decide_eq_false_2; [done|].
  rewrite H. by intros [? ?].
Qed.

Lemma path_exists_present path w :
  is_Some (fs w !! path) → path_exists path w = (Ret true, w).
Proof. intros H. by rewrite path_exists_unfold, bool_decide_eq_true_2. Qed.

Lemma incremental_activity_no_id api dir fields w :
  truthy (activity_id fields) = false →
  incremental_activity api dir (JObj fields) w = (Ret tt, w).
Proof.
  intros H. unfold incremental_activity. rewrite bind_unfold. simpl.
  fold (activity_id fields). by rewrite H.
Qed.

Lemma full_activity_no_id api dir total fields w :
  truthy (activity_id fields) = false →
  full_activity api dir total (JObj fields) w = (Ret total, w).
Proof.
  intros H. unfold full_activity. rewrite bind_unfold. simpl.
  fold (activity_id fields). by rewrite H.
Qed.

Lemma incremental_activity_cached api dir fields w :
  truthy (activity_id fields) = true →
  is_Some (fs w !! activity_file dir (activity_id fields)) →
  incremental_activity api dir (JObj fields) w = (Ret tt, w).
Proof.
  intros H Hc. unfold incremental_activity. rewrite bind_unfold. simpl.
  fold (activity_id fields). rewrite H. simpl.
  fold (activity_file dir (activity_id fields)).
  by rewrite (bind_ret _ _ _ _ _ (path_exists_present _ _ Hc)).
Qed.

Lemma full_activity_cached api dir total fields w :
  truthy (activity_id fields) = true →
  is_Some (fs w !! activity_file dir (activity_id fields)) →
  full_activity api dir total (JObj fields) w = (Ret (total + 1), w).
Proof.
  intros H Hc. unfold full_activity. rewrite bind_unfold. simpl.
  fold (activity_id fields). rewrite H. simpl.
  fold (activity_file dir (activity_id fields)).
  by rewrite (bind_ret _ _ _ _ _ (path_exists_present _ _ Hc)).
Qed.

(** An uncached activity: the body is the detail fetch followed by one
    write of the detail or, failing that, of the summary record. *)
Lemma incremental_activity_fetch api dir fields w :
  truthy (activity_id fields) = true →
  fs w !! activity_file dir (activity_id fields) = None →
  incremental_activity api dir (JObj fields) w
  = match api_call (invoke api get_activity) [AStr (py_str (activity_id fields))] w with
    | (Ret detail, w1) =>
        (Ret tt,
         log (ESleep API_DELAY)
           (log (EPrint ("  Activity " +:+ py_str (activity_id fields)))
              (save_json (activity_file dir (activity_id fields))
                 (cached_activity detail (JObj fields)) w1).2))
    | (Raise e, w1) => (Raise e, w1)
    | (OutOfFuel, w1) => (OutOfFuel, w1)
    end.
Proof.
  intros H Hc. unfold incremental_activity. rewrite bind_unfold. simpl.
  fold (activity_id fields). rewrite H. simpl.
  fold (activity_file dir (activity_id fields)).
  rewrite (bind_ret _ _ _ _ _ (path_exists_absent _ _ Hc)). simpl.
  rewrite bind_unfold.
  destruct (api_call _ _ w) as [[detail|e|] w1]; [|done|done].
  unfold cached_activity. by destruct (is_None detail).
Qed.

Lemma full_activity_fetch api dir total fields w :
  truthy (activity_id fields) = true →
  fs w !! activity_file dir (activity_id fields) = None →
  full_activity api dir total (JObj fields) w
  = match api_call (invoke api get_activity) [AStr (py_str (activity_id fields))] w with
    | (Ret detail, w1) =>
        (Ret (total + 1),
         log (ESleep API_DELAY)
           (log (EPrint ("  Activity " +:+ py_str (activity_id fields) +:+ " ("
                         +:+ pretty (total + 1) +:+ ")"))
              (save_json (activity_file dir (activity_id fields))
                 (cached_activity detail (JObj fields)) w1).2))
    | (Raise e, w1) => (Raise e, w1)
    | (OutOfFuel, w1) => (OutOfFuel, w1)
    end.
Proof.
  intros H Hc. unfold full_activity. rewrite bind_unfold. simpl.
  fold (activity_id fields). rewrite H. simpl.
  fold (activity_file dir (activity_id fields)).
  rewrite (bind_ret _ _ _ _ _ (path_exists_absent _ _ Hc)). simpl.
  rewrite bind_unfold.
  destruct (api_call _ _ w) as [[detail|e|] w1]; [|done|done].
  unfold cached_activity. by destruct (is_None detail).
Qed.

Lemma for_each_skip {A} (body : A → M unit) xs x ys w :
  (∀ w, body x w = (Ret tt, w)) →
  for_each (xs ++ x :: ys) body w = for_each (xs ++ ys) body w.
Proof.
  intros Hx. revert w. induction xs as [|y xs IH]; intros w; simpl.
  - by rewrite bind_unfold, Hx.
  - rewrite !bind_unfold. destruct (body y w) as [[[]|e|] w1]; [apply IH|done|done].
Qed.

Lemma for_fold_skip {A S} (body : S → A → M S) xs x ys s w :
  (∀ s w, body s x w = (Ret s, w)) →
  for_fold (xs ++ x :: ys) s body w = for_fold (xs ++ ys) s body w.
Proof.
  intros Hx. revert s w. induction xs as [|y xs IH]; intros s w; simpl.
  - by rewrite bind_unfold, Hx.
  - rewrite !bind_unfold. destruct (body s y w) as [[s'|e|] w1]; [apply IH|done|done].
Qed.

(** C9: an activity record whose [activityId] is missing or falsy is
    skipped in both sync paths: the loop body returns at once in the same
    world (no detail fetch, no write, no event at all), and a batch with
    such a record is processed exactly like the batch without it. *)
Theorem activity_without_id_is_skipped (api : Garmin) (activities_dir : string)
    (fields : list (string * json)) :
  truthy (activity_id fields) = false →
  (∀ total w, full_activity api activities_dir total (JObj fields) w = (Ret total, w))
  ∧ (∀ w, incremental_activity api activities_dir (JObj fields) w = (Ret tt, w))
  ∧ (∀ before after total w,
       for_fold (before ++ JObj fields :: after) total (full_activity api activities_dir) w
       = for_fold (before ++ after) total (full_activity api activities_dir) w)
  ∧ (∀ before after w,
       for_each (before ++ JObj fields :: after) (incremental_activity api activities_dir) w
       = for_each (before ++ after) (incremental_activity api activities_dir) w).
Proof.
  intros H. split_and!.
  - intros total w. by apply full_activity_no_id.
  - intros w. by apply incremental_activity_no_id.
  - intros before after total w. apply for_fold_skip.
    intros s w'. by apply full_activity_no_id.
  - intros before after w. apply for_each_skip.
    intros w'. by apply incremental_activity_no_id.
Qed.






(** ** Pagination of the full activity sync *)

Lemma api_events_other_calls m args m' evs :
  api_events m args evs → m' ≠ m → calls_of m' evs = [].
Proof.
  intros Hev Hne. destruct (calls_of m' evs) as [|a rest] eqn:Hc; [done|].
  assert (Hin : a ∈ calls_of m' evs) by (rewrite Hc; by left).
  by destruct (api_events_calls _ _ _ _ _ Hev Hin).
Qed.

Lemma api_call_returns_value api m args w v :
  respond api (trace w) m args = Returns v →
  api_call (invoke api m) args w = (Ret v, log (ECall m args) w).
Proof.
  intros H. apply attempt_success. by rewrite invoke_unfold, H.
Qed.

(** With a client that is never interrupted, the body of the full sync
    returns on every record and asks for no activity list. *)
Lemma full_activity_returns api dir total fields w :
  uninterrupted api →
  ∃ total' w' evs,
    full_activity api dir total (JObj fields) w = (Ret total', w')
    ∧ trace w' = trace w ++ evs ∧ calls_of get_activities evs = [].
Proof.
  intros Hun. destruct (truthy (activity_id fields)) eqn:Hid.
  - destruct (fs w !! activity_file dir (activity_id fields)) as [old|] eqn:Hfile.
    + exists (total + 1), w, []. rewrite full_activity_cached by (by rewrite ?Hfile).
      by rewrite app_nil_r.
    + rewrite full_activity_fetch by done.
      destruct (api_call_invoke api get_activity [AStr (py_str (activity_id fields))] w)
        as (_ & _ & (evs & Htr & Hev) & _).
      destruct (api_call_attempts_returns api get_activity
                  [AStr (py_str (activity_id fields))] (range MAX_RETRIES) w Hun) as [v Hv].
      fold (api_call (invoke api get_activity) [AStr (py_str (activity_id fields))] w) in Hv.
      destruct (api_call _ _ w) as [r w1]. simpl in Hv, Htr. subst r.
      eexists _, _, _. split; [reflexivity|]. split.
      * simpl. rewrite Htr, <- !app_assoc. reflexivity.
      * rewrite calls_of_app, (api_events_other_calls _ _ _ _ Hev); done.
  - exists total, w, []. rewrite full_activity_no_id by done. by rewrite app_nil_r.
Qed.

Lemma for_fold_full_returns api dir items total w :
  uninterrupted api → records items →
  ∃ total' w' evs,
    for_fold items total (full_activity api dir) w = (Ret total', w')
    ∧ trace w' = trace w ++ evs ∧ calls_of get_activities evs = [].
Proof.
  intros Hun Hrec. revert total w.
  induction Hrec as [|a rest [fields ->] _ IH]; intros total w; simpl.
  - exists total, w, []. by rewrite app_nil_r.
  - destruct (full_activity_returns api dir total fields w Hun)
      as (total1 & w1 & evs1 & Hbody & Htr1 & Hc1).
    destruct (IH total1 w1) as (total2 & w2 & evs2 & Hrest & Htr2 & Hc2).
    exists total2, w2, (evs1 ++ evs2). rewrite (bind_ret _ _ _ _ _ Hbody).
    split; [done|]. split.
    + by rewrite Htr2, Htr1, app_assoc.
    + by rewrite calls_of_app, Hc1, Hc2.
Qed.

(** One turn of the pagination loop, by what the list request returns. *)
Lemma full_pages_stop_empty fuel api dir start limit total w batch w1 :
  api_call (invoke api get_activities) [AInt start; AInt limit] w = (Ret batch, w1) →
  truthy batch = false →
  full_pages (S fuel) api dir start limit total w = (Ret total, w1).
Proof. intros Hlist Hb. simpl. rewrite (bind_ret _ _ _ _ _ Hlist), Hb. reflexivity. Qed.

Lemma full_pages_stop_short fuel api dir start limit total w items w1 total1 w2 :
  api_call (invoke api get_activities) [AInt start; AInt limit] w = (Ret (JList items), w1) →
  items ≠ [] →
  for_fold items total (full_activity api dir) w1 = (Ret total1, w2) →
  Z.of_nat (length items) < limit →
  full_pages (S fuel) api dir start limit total w = (Ret total1, w2).
Proof.
  intros Hlist Hne Hbody Hlt. simpl. rewrite (bind_ret _ _ _ _ _ Hlist).
  destruct items as [|a items']; [done|]. cbn [truthy negb].
  rewrite bind_unfold. cbn [py_iter]. unfold mret at 1, M_ret at 1.
  rewrite (bind_ret _ _ _ _ _ Hbody).
  rewrite bind_unfold. cbn [py_len]. unfold mret at 1, M_ret at 1.
  destruct (Z.ltb_spec (Z.of_nat (length (a :: items'))) limit); [done | lia].
Qed.

Lemma full_pages_next fuel api dir start limit total w items w1 total1 w2 :
  api_call (invoke api get_activities) [AInt start; AInt limit] w = (Ret (JList items), w1) →
  items ≠ [] →
  for_fold items total (full_activity api dir) w1 = (Ret total1, w2) →
  limit ≤ Z.of_nat (length items) →
  full_pages (S fuel) api dir start limit total w
  = full_pages fuel api dir (start + limit) limit total1 (log (ESleep API_DELAY) w2).
Proof.
  intros Hlist Hne Hbody Hge. simpl. rewrite (bind_ret _ _ _ _ _ Hlist).
  destruct items as [|a items']; [done|]. cbn [truthy negb].
  rewrite bind_unfold. cbn [py_iter]. unfold mret at 1, M_ret at 1.
  rewrite (bind_ret _ _ _ _ _ Hbody).
  rewrite bind_unfold. cbn [py_len]. unfold mret at 1, M_ret at 1.
  destruct (Z.ltb_spec (Z.of_nat (length (a :: items'))) limit); [lia | done].
Qed.

(** Pages [first], [first + 1], ... are full and are followed by a short
    one: the loop asks for each of them once, in order, and stops. *)
Lemma full_pages_terminates api dir pages last fuel first total w :
  uninterrupted api →
  Forall (λ items, length items = 100%nat ∧ records items) pages →
  (length last < 100)%nat → records last →
  (∀ (i : nat) items, (pages ++ [last]) !! i = Some items →
     ∀ h, respond api h get_activities [AInt (Z.of_nat (first + i) * 100); AInt 100]
          = Returns (JList items)) →
  (length pages < fuel)%nat →
  ∃ total' w' evs,
    full_pages fuel api dir (Z.of_nat first * 100) 100 total w = (Ret total', w')
    ∧ trace w' = trace w ++ evs
    ∧ calls_of get_activities evs = page_requests first (length pages + 1).
Proof.
  intros Hun Hfull Hshort Hlast. revert fuel first total w.
  induction Hfull as [|items pages [Hlen Hrec] _ IH]; intros fuel first total w Hserve Hfuel.
  - destruct fuel as [|fuel]; [simpl in Hfuel; lia|].
    pose proof (Hserve 0%nat last eq_refl (trace w)) as Hres.
    rewrite Nat.add_0_r in Hres.
    pose proof (api_call_returns_value _ _ _ _ _ Hres) as Hlist.
    destruct (decide (last = [])) as [->|Hne].
    + rewrite (full_pages_stop_empty _ _ _ _ _ _ _ _ _ Hlist eq_refl).
      eexists _, _, _. split; [reflexivity|]. split; reflexivity.
    + destruct (for_fold_full_returns api dir last total
                  (log (ECall get_activities [AInt (Z.of_nat first * 100); AInt 100]) w)
                  Hun Hlast) as (total1 & w1 & evs1 & Hbody & Htr1 & Hc1).
      rewrite (full_pages_stop_short _ _ _ _ _ _ _ _ _ _ _ Hlist Hne Hbody) by lia.
      eexists _, _, _. split; [reflexivity|]. split.
      * rewrite Htr1. simpl. rewrite <- app_assoc. reflexivity.
      * rewrite calls_of_app, Hc1. reflexivity.
  - destruct fuel as [|fuel]; [simpl in Hfuel; lia|]. simpl in Hfuel.
    pose proof (Hserve 0%nat items eq_refl (trace w)) as Hres.
    rewrite Nat.add_0_r in Hres.
    pose proof (api_call_returns_value _ _ _ _ _ Hres) as Hlist.
    assert (Hne : items ≠ []) by (intros ->; simpl in Hlen; lia).
    destruct (for_fold_full_returns api dir items total
                (log (ECall get_activities [AInt (Z.of_nat first * 100); AInt 100]) w)
                Hun Hrec) as (total1 & w1 & evs1 & Hbody & Htr1 & Hc1).
    rewrite (full_pages_next _ _ _ _ _ _ _ _ _ _ _ Hlist Hne Hbody) by lia.
    replace (Z.of_nat first * 100 + 100) with (Z.of_nat (S first) * 100) by lia.
    destruct (IH fuel (S first) total1 (log (ESleep API_DELAY) w1))
      as (total2 & w2 & evs2 & Hrest & Htr2 & Hc2).
    { intros i its Hi h. specialize (Hserve (S i) its Hi h).
      by replace (first + S i)%nat with (S first + i)%nat in Hserve by lia. }
    { lia. }
    exists total2, w2. eexists. split; [exact Hrest|]. split.
    + rewrite Htr2. simpl. rewrite Htr1. simpl. rewrite <- !app_assoc. reflexivity.
    + rewrite !calls_of_app, Hc1, Hc2. reflexivity.
Qed.

(** C5: the full sync asks for the activity list in pages of 100 starting
    at offset 0 and moving on by 100 after each full page, and stops at the
    first page with fewer than 100 records (an empty one included).  When
    the service holds some full pages followed by a short one, and the run
    is not interrupted, the loop ends and the list requests are exactly one
    per page, in order: three requests for pages of 100, 100 and 37. *)
Theorem full_sync_pagination (host : Host) (api : Garmin) (pages : list (list json))
    (last : list json) (fuel : nat) (w : World) :
  uninterrupted api →
  Forall (λ items, length items = 100%nat ∧ records items) pages →
  (length last < 100)%nat → records last →
  serves_pages api (pages ++ [last]) →
  (length pages < fuel)%nat →
  ∃ w', sync_activities_full host fuel api w = (Ret tt, w')
        ∧ calls_of get_activities (events_since w w') = page_requests 0 (length pages + 1).
Proof.
  intros Hun Hfull Hshort Hlast Hserve Hfuel. unfold sync_activities_full.
  run_head.
  destruct (full_pages_terminates api (BASE_DIR host </> "activities") pages last fuel 0 0
              (log (EPrint "Syncing all activities (paginated)...") w)
              Hun Hfull Hshort Hlast Hserve Hfuel) as (total & w1 & evs & Hrun & Htr & Hcalls).
  change (Z.of_nat 0 * 100) with 0 in Hrun.
  rewrite (bind_ret _ _ _ _ _ Hrun), print_run.
  eexists. split; [reflexivity|].
  erewrite events_since_app.
  2: { simpl. rewrite Htr. simpl. rewrite <- !app_assoc. reflexivity. }
  rewrite !calls_of_app, Hcalls. simpl. by rewrite app_nil_r.
Qed.

(** ** Mode selection *)

Lemma sync_all_unfold host fuel api w :
  sync_all host fuel api w
  = let today := clock host (trace w) in
    match load_sync_state host w with
    | (Ret (Some d), w1) =>
        (print (incremental_notice d today);; sync_from host fuel api true d today) w1
    | (Ret None, w1) =>
        (print (initial_notice (today - HISTORY_DAYS) today);;
         sync_from host fuel api false (today - HISTORY_DAYS) today) w1
    | (Raise e, w1) => (Raise e, w1)
    | (OutOfFuel, w1) => (OutOfFuel, w1)
    end.
Proof.
  unfold sync_all. rewrite bind_unfold. unfold date_today at 1. cbv beta iota zeta.
  rewrite bind_unfold.
  destruct (load_sync_state host w) as [[[d|]|e|] w1]; reflexivity.
Qed.

Lemma main_authenticated host fuel w api w1 :
  init_api host fuel w = (Ret (Some api), w1) → main host fuel w = sync_all host fuel api w1.
Proof. intros H. unfold main. by rewrite (bind_ret _ _ _ _ _ H). Qed.

Lemma load_sync_state_no_file host w :
  fs w !! SYNC_STATE_FILE host = None → load_sync_state host w = (Ret None, w).
Proof.
  intros H. unfold load_sync_state.
  by rewrite (bind_ret _ _ _ _ _ (path_exists_absent _ _ H)).
Qed.

Lemma load_json_run path v w : fs w !! path = Some v → load_json path w = (Ret v, w).
Proof. intros H. unfold load_json. by rewrite H. Qed.

Lemma load_sync_state_no_date host w fields :
  fs w !! SYNC_STATE_FILE host = Some (JObj fields) →
  truthy (default JNull (assoc "last_sync_date" fields)) = false →
  load_sync_state host w = (Ret None, w).
Proof.
  intros H Hfalsy. unfold load_sync_state.
  rewrite (bind_ret _ _ _ _ _ (path_exists_present _ _ (mk_is_Some _ _ H))).
  rewrite (bind_ret _ _ _ _ _ (load_json_run _ _ _ H)).
  rewrite bind_unfold. simpl. by rewrite Hfalsy.
Qed.

Lemma load_sync_state_date host w fields s d :
  fs w !! SYNC_STATE_FILE host = Some (JObj fields) →
  assoc "last_sync_date" fields = Some (JStr s) → s ≠ "" →
  strptime s = Some d →
  load_sync_state host w = (Ret (Some d), w).
Proof.
  intros H Hlast Hne Hparse. unfold load_sync_state.
  rewrite (bind_ret _ _ _ _ _ (path_exists_present _ _ (mk_is_Some _ _ H))).
  rewrite (bind_ret _ _ _ _ _ (load_json_run _ _ _ H)).
  rewrite bind_unfold. simpl. rewrite Hlast. simpl.
  destruct (String.eqb_spec s ""); [done|]. simpl. by rewrite Hparse.
Qed.

(** C3: [main] chooses the mode once, right after authentication, from
    what [load_sync_state] returns: a date [X] gives the incremental sync
    of the range [X .. today], absent gives the initial sync of the range
    [today - 365 .. today]; every later step works on that range. *)
Theorem main_selects_sync_range (host : Host) (fuel : nat) (w : World) (api : Garmin)
    (w1 : World) :
  init_api host fuel w = (Ret (Some api), w1) →
  let today := clock host (trace w1) in
  (∀ X w2, load_sync_state host w1 = (Ret (Some X), w2) →
     main host fuel w
     = (print (incremental_notice X today);; sync_from host fuel api true X today) w2)
  ∧ (∀ w2, load_sync_state host w1 = (Ret None, w2) →
       main host fuel w
       = (print (initial_notice (today - 365) today);;
          sync_from host fuel api false (today - 365) today) w2).
Proof.
  intros Hauth today. rewrite (main_authenticated _ _ _ _ _ Hauth), sync_all_unfold.
  split.
  - intros X w2 Hload. by rewrite Hload.
  - intros w2 Hload. by rewrite Hload.
Qed.

(** C10: [load_sync_state] returns absent when there is no state file, and
    also when the file holds an object whose [last_sync_date] is missing or
    falsy; [main] then runs the initial sync over the full 365 days. *)
Theorem state_without_date_selects_initial_sync (host : Host) (w : World) :
  (fs w !! SYNC_STATE_FILE host = None → load_sync_state host w = (Ret None, w))
  ∧ (∀ fields,
       fs w !! SYNC_STATE_FILE host = Some (JObj fields) →
       truthy (default JNull (assoc "last_sync_date" fields)) = false →
       load_sync_state host w = (Ret None, w)
       ∧ ∀ fuel w0 api,
           init_api host fuel w0 = (Ret (Some api), w) →
           let today := clock host (trace w) in
           main host fuel w0
           = (print (initial_notice (today - 365) today);;
              sync_from host fuel api false (today - 365) today) w).
Proof.
  split; [apply load_sync_state_no_file|].
  intros fields Hfile Hfalsy.
  pose proof (load_sync_state_no_date _ _ _ Hfile Hfalsy) as Hload.
  split; [done|]. intros fuel w0 api Hauth today.
  by rewrite (main_authenticated _ _ _ _ _ Hauth), sync_all_unfold, Hload.
Qed.

(** ** Session acquisition *)

Lemma auth_call_run r answer w :
  auth_call r answer w
  = (match answer (trace w) with None => Ret tt | Some e => Raise e end, log (EAuth r) w).
Proof. unfold auth_call. by destruct (answer (trace w)). Qed.

(** A round that reaches [resume_login] and sees it fail continues with
    the [except] clauses of the MFA step. *)
Lemma login_attempt_resume_fails host ts w w4 state code e :
  asks_mfa_code host w w4 state code →
  resume_login host (trace w4) state code = Some e →
  login_attempt host ts w
  = (proceed ← resume_except e;
     if proceed : bool then
       auth_call (DumpTokens ts) (λ h, dump_tokens host h ts);;
       print "Authenticated successfully.";;
       mret (Some (Some (garmin host)))
     else mret None) (log (EAuth (ResumeLogin state code)) w4).
Proof.
  intros (email & w1 & password & w2 & r1 & He & Hp & Hl & Hs & Hi) Hr.
  unfold login_attempt.
  rewrite (bind_ret _ _ _ _ _ He), (bind_ret _ _ _ _ _ Hp).
  rewrite bind_unfold. unfold credentials_login at 1. cbv beta iota.
  rewrite Hl, Hs. rewrite bind_unfold, (bind_ret _ _ _ _ _ Hi).
  unfold try at 1. rewrite bind_unfold, auth_call_run, Hr. cbv iota.
  symmetry. apply bind_unfold.
Qed.

Lemma prompt_loop_unfold host fuel ts w :
  prompt_loop host (S fuel) ts w
  = match try (login_attempt host ts) login_except w with
    | (Ret (Some r), w') => (Ret r, w')
    | (Ret None, w') => prompt_loop host fuel ts w'
    | (Raise e, w') => (Raise e, w')
    | (OutOfFuel, w') => (OutOfFuel, w')
    end.
Proof.
  simpl. rewrite bind_unfold.
  by destruct (try (login_attempt host ts) login_except w) as [[[r|]|e|] w'].
Qed.

(** C7 (as amended): what follows a failure of [resume_login] in a round of
    the prompting loop.  An HTTP error that mentions 429 is reported and
    ends the process ([SystemExit 1]); an HTTP error that mentions 401 or
    403 is reported as an invalid code and the loop starts its next round,
    which asks for the credentials again; any other HTTP error ends the
    process without a message; any other error of the login library is
    reported as "MFA failed" and the loop starts its next round.  A
    [SystemExit] that leaves [init_api] is the exit status of the script. *)
Theorem mfa_resume_failure (host : Host) (fuel : nat) (ts : string) (w w4 : World)
    (state : json) (code : string) (e : exn) :
  asks_mfa_code host w w4 state code →
  resume_login host (trace w4) state code = Some e →
  let w5 := log (EAuth (ResumeLogin state code)) w4 in
  (isinstance e GarthHTTPError = true → contains "429" (exn_str e) = true →
     prompt_loop host (S fuel) ts w
     = (Raise (SystemExit 1), log (EPrint "Rate limited during MFA. Try again later.") w5))
  ∧ (isinstance e GarthHTTPError = true → contains "429" (exn_str e) = false →
       contains "401" (exn_str e) || contains "403" (exn_str e) = true →
       prompt_loop host (S fuel) ts w
       = prompt_loop host fuel ts (log (EPrint "Invalid MFA code. Try again.") w5))
  ∧ (isinstance e GarthHTTPError = true → contains "429" (exn_str e) = false →
       contains "401" (exn_str e) || contains "403" (exn_str e) = false →
       prompt_loop host (S fuel) ts w = (Raise (SystemExit 1), w5))
  ∧ (isinstance e GarthHTTPError = false → isinstance e GarthException = true →
       prompt_loop host (S fuel) ts w
       = prompt_loop host fuel ts (log (EPrint "MFA failed. Try again.") w5))
  ∧ (∀ fuel' w0 status w',
       init_api host fuel' w0 = (Raise (SystemExit status), w') →
       script host fuel' w0 = (Raise (SystemExit status), w')
       ∧ exit_code (script host fuel' w0).1 = Some status).
Proof.
  intros Hask Hres w5.
  pose proof (login_attempt_resume_fails host ts w w4 state code e Hask Hres) as Hround.
  fold w5 in Hround.
  split_and!.
  - intros Hhttp H429. rewrite prompt_loop_unfold. unfold try. rewrite Hround.
    rewrite bind_unfold. unfold resume_except. rewrite Hhttp, H429. reflexivity.
  - intros Hhttp H429 H40x. rewrite prompt_loop_unfold. unfold try. rewrite Hround.
    rewrite bind_unfold. unfold resume_except. rewrite Hhttp, H429, H40x. reflexivity.
  - intros Hhttp H429 H40x. rewrite prompt_loop_unfold. unfold try. rewrite Hround.
    rewrite bind_unfold. unfold resume_except. rewrite Hhttp, H429, H40x. reflexivity.
  - intros Hhttp Hgarth. rewrite prompt_loop_unfold. unfold try. rewrite Hround.
    rewrite bind_unfold. unfold resume_except. rewrite Hhttp, Hgarth. reflexivity.
  - intros fuel' w0 status w' Hinit.
    assert (Hmain : main host fuel' w0 = (Raise (SystemExit status), w')).
    { unfold main. by rewrite (bind_raise _ _ _ _ _ Hinit). }
    assert (Hscript : script host fuel' w0 = (Raise (SystemExit status), w')).
    { unfold script. by rewrite (try_raise _ _ _ _ _ Hmain). }
    by rewrite Hscript.
Qed.

(** ** Exit status *)

Lemma script_unfold host fuel w :
  script host fuel w
  = match main host fuel w with
    | (Raise KeyboardInterrupt, w') => (Ret tt, log (EPrint (nl +:+ "Sync interrupted.")) w')
    | r => r
    end.
Proof.
  unfold script, try. destruct (main host fuel w) as [[[]|e|] w']; try reflexivity.
  by destruct e.
Qed.

(** C8 (as amended): the exit status of the script.  It is 0 when [main]
    runs to its end, and when Ctrl-C reaches the handler at the top (the
    script then prints the interruption message).  It is 1 when [init_api]
    returns no client, which includes Ctrl-C at a login prompt: [main]
    prints the failure message and exits.  It is also 1 when any
    [Exception] escapes [main].  Status 0 is reached in no other way
    (an explicit [SystemExit 0] apart). *)
Theorem script_exit_status (host : Host) (fuel : nat) (w : World) :
  (∀ w', main host fuel w = (Ret tt, w') →
     script host fuel w = (Ret tt, w') ∧ exit_code (script host fuel w).1 = Some 0)
  ∧ (∀ w', main host fuel w = (Raise KeyboardInterrupt, w') →
       script host fuel w = (Ret tt, log (EPrint (nl +:+ "Sync interrupted.")) w')
       ∧ exit_code (script host fuel w).1 = Some 0)
  ∧ (∀ w1, init_api host fuel w = (Ret None, w1) →
       script host fuel w
       = (Raise (SystemExit 1), log (EPrint "Failed to authenticate.") w1)
       ∧ exit_code (script host fuel w).1 = Some 1)
  ∧ (∀ fuel' ts w0 w', login_attempt host ts w0 = (Raise KeyboardInterrupt, w') →
       prompt_loop host (S fuel') ts w0 = (Ret None, w'))
  ∧ (∀ c msg w', main host fuel w = (Raise (Exc c msg), w') →
       exit_code (script host fuel w).1 = Some 1)
  ∧ (exit_code (script host fuel w).1 = Some 0
     ↔ (main host fuel w).1 = Ret tt
       ∨ (main host fuel w).1 = Raise KeyboardInterrupt
       ∨ (main host fuel w).1 = Raise (SystemExit 0)).
Proof.
  split_and!.
  - intros w' H. by rewrite script_unfold, H.
  - intros w' H. by rewrite script_unfold, H.
  - intros w1 H.
    assert (Hmain : main host fuel w
                    = (Raise (SystemExit 1), log (EPrint "Failed to authenticate.") w1)).
    { unfold main. by rewrite (bind_ret _ _ _ _ _ H). }
    by rewrite script_unfold, Hmain.
  - intros fuel' ts w0 w' H. rewrite prompt_loop_unfold.
    by rewrite (try_raise _ _ _ _ _ H).
  - intros c msg w' H. by rewrite script_unfold, H.
  - rewrite script_unfold.
    destruct (main host fuel w) as [[[]|[c msg| |status]|] w']; simpl.
    + naive_solver.
    + naive_solver.
    + naive_solver.
    + split.
      * intros [= ->]. auto.
      * intros [?|[?|[= ->]]]; done.
    + naive_solver.
Qed.

(** ** A service that always returns the same data *)

Lemma api_call_attempts_stateless api answers m args attempts w :
  stateless api answers → attempts ≠ [] →
  (api_call_attempts (invoke api m args) attempts w).1 = api_value (answers m args).
Proof.
  intros Hst. revert w. induction attempts as [|k rest IH]; intros w Hne; [done|].
  pose proof (invoke_unfold api m args w) as Hop. rewrite Hst in Hop.
  unfold api_value. destruct (answers m args) as [v|e].
  - by rewrite (attempt_success _ _ _ _ _ _ Hop).
  - destruct (is_Exception e) eqn:Hex.
    + destruct (rate_limited e) eqn:Hrl.
      * rewrite (attempt_rate_limited _ _ _ _ _ _ Hop Hrl).
        destruct rest as [|k' rest']; [done|].
        rewrite IH by done. unfold api_value. by rewrite Hex.
      * by rewrite (attempt_soft_failure _ _ _ _ _ _ Hop Hex Hrl).
    + by rewrite (attempt_propagates _ _ _ _ _ _ Hop Hex).
Qed.

Lemma api_call_stateless api answers m args w :
  stateless api answers →
  (api_call (invoke api m) args w).1 = api_value (answers m args).
Proof. intros Hst. by apply api_call_attempts_stateless. Qed.

(** ** Inversion of a run that returned *)

Lemma bind_ret_inv {A B} (m : M A) (f : A → M B) w b w' :
  (m ≫= f) w = (Ret b, w') → ∃ a w1, m w = (Ret a, w1) ∧ f a w1 = (Ret b, w').
Proof.
  rewrite bind_unfold. destruct (m w) as [[a|e|] w1]; [|done|done]. by exists a, w1.
Qed.

(** ** Files only appear, events are only added *)

Lemma grows_refl w : grows w w.
Proof. split; [done|]. exists []. by rewrite app_nil_r. Qed.

Lemma grows_trans w0 w1 w2 : grows w0 w1 → grows w1 w2 → grows w0 w2.
Proof.
  intros [Hd1 [e1 H1]] [Hd2 [e2 H2]]. split; [set_solver|].
  exists (e1 ++ e2). by rewrite H2, H1, app_assoc.
Qed.

Lemma grows_log w0 w e : grows w0 w → grows w0 (log e w).
Proof.
  intros H. eapply grows_trans; [exact H|]. split; [done|]. by exists [e].
Qed.

Lemma idle_grows w0 w : idle w0 w → grows w0 w.
Proof. intros [Hfs (evs & Htr & _)]. split; [by rewrite Hfs | by exists evs]. Qed.

Lemma idle_refl w : idle w w.
Proof. split; [done|]. exists []. by rewrite app_nil_r. Qed.

Lemma idle_trans w0 w1 w2 : idle w0 w1 → idle w1 w2 → idle w0 w2.
Proof.
  intros [Hf1 (e1 & H1 & Hw1)] [Hf2 (e2 & H2 & Hw2)]. split; [congruence|].
  exists (e1 ++ e2). split; [by rewrite H2, H1, app_assoc|].
  by rewrite written_app, Hw1, Hw2.
Qed.

Lemma idle_log w0 w e : written [e] = [] → idle w0 w → idle w0 (log e w).
Proof.
  intros He H. eapply idle_trans; [exact H|]. split; [done|]. by exists [e].
Qed.

Lemma api_call_idle api m args w : idle w (api_call (invoke api m) args w).2.
Proof.
  destruct (api_call_invoke api m args w) as (Hfs & _ & (evs & Htr & Hev) & _).
  split; [done|]. exists evs. split; [done|]. by eapply api_events_written.
Qed.

(** Invariants that every primitive step keeps are kept by [api_call]. *)
Lemma hoare_grows_api_call w0 api m args :
  hoare (grows w0) (api_call (invoke api m) args) (λ _, grows w0).
Proof.
  intros w H. eapply grows_trans; [exact H|]. apply idle_grows, api_call_idle.
Qed.

Lemma hoare_grows_print w0 line : hoare (grows w0) (print line) (λ _, grows w0).
Proof. intros w H. by apply grows_log. Qed.

Lemma hoare_grows_sleep w0 s : hoare (grows w0) (sleep s) (λ _, grows w0).
Proof. intros w H. by apply grows_log. Qed.

Lemma hoare_grows_save_json w0 path data :
  hoare (grows w0) (save_json path data) (λ _, grows w0).
Proof.
  intros w H. eapply grows_trans; [exact H|]. split; simpl.
  - rewrite dom_insert. set_solver.
  - by eexists.
Qed.

Lemma hoare_grows_pure {A} w0 (m : M A) :
  (∀ w, (m w).2 = w) → hoare (grows w0) m (λ _, grows w0).
Proof. intros Hm w H. by rewrite Hm. Qed.

Lemma hoare_grows_mret {A} w0 (a : A) : hoare (grows w0) (mret a) (λ _, grows w0).
Proof. by apply hoare_grows_pure. Qed.

Lemma hoare_grows_path_exists w0 path : hoare (grows w0) (path_exists path) (λ _, grows w0).
Proof. by apply hoare_grows_pure. Qed.

Lemma hoare_grows_py_get w0 d key : hoare (grows w0) (py_get d key) (λ _, grows w0).
Proof. apply hoare_grows_pure. intros w. by destruct d. Qed.

Lemma hoare_grows_py_iter w0 v : hoare (grows w0) (py_iter v) (λ _, grows w0).
Proof. apply hoare_grows_pure. intros w. by destruct v. Qed.

Lemma hoare_grows_py_len w0 v : hoare (grows w0) (py_len v) (λ _, grows w0).
Proof. apply hoare_grows_pure. intros w. by destruct v. Qed.

Lemma hoare_grows_date_today w0 host : hoare (grows w0) (date_today host) (λ _, grows w0).
Proof. by apply hoare_grows_pure. Qed.

Lemma hoare_grows_if {A} w0 (b : bool) (m1 m2 : M A) :
  hoare (grows w0) m1 (λ _, grows w0) → hoare (grows w0) m2 (λ _, grows w0) →
  hoare (grows w0) (if b then m1 else m2) (λ _, grows w0).
Proof. by destruct b. Qed.

(** Closes the invariant goals of straight-line code. *)
Ltac grows_steps :=
  repeat first
    [ apply hoare_seq_inv; [|intros ?]
    | apply hoare_grows_if
    | apply hoare_grows_api_call
    | apply hoare_grows_print
    | apply hoare_grows_sleep
    | apply hoare_grows_save_json
    | apply hoare_grows_mret
    | apply hoare_grows_path_exists
    | apply hoare_grows_py_get
    | apply hoare_grows_py_iter
    | apply hoare_grows_py_len
    | apply hoare_grows_date_today ].












(** ** What a completed run leaves behind *)

(** A computation that keeps [grows] takes a world to a larger one. *)
Lemma grows_run {A} (m : M A) w r w' :
  (∀ w0, hoare (grows w0) m (λ _, grows w0)) → m w = (r, w') → grows w w'.
Proof. intros Hm Hrun. pose proof (Hm w w (grows_refl w)) as H. by rewrite Hrun in H. Qed.

Lemma day_settled_mono host answers ds w w' :
  day_settled host answers ds w → dom (fs w) ⊆ dom (fs w') → day_settled host answers ds w'.
Proof.
  intros H Hdom file m args Hg. destruct (H file m args Hg); [left; set_solver | by right].
Qed.

Section StatelessService.

Variable host : Host.
Variable api : Garmin.
Variable answers : api_method → list arg → outcome.
Hypothesis Hstateless : stateless api answers.

(** When the skip-if-cached fetch returns, the file is there or the
    service has nothing for it. *)
Lemma cached_fetch_settles path m args w w' :
  (cached ← path_exists path;
   if cached : bool then mret tt
   else
     data ← api_call (invoke api m) args;
     (if negb (is_None data) then save_json path data else mret tt);;
     sleep API_DELAY) w = (Ret tt, w') →
  grows w w' ∧ (path ∈ dom (fs w') ∨ api_value (answers m args) = Ret JNull).
Proof.
  intros Hrun. split.
  { eapply grows_run; [|exact Hrun]. intros w0. grows_steps. }
  rewrite bind_unfold, path_exists_unfold in Hrun.
  case_bool_decide as Hc.
  - injection Hrun as <-. left. by apply elem_of_dom.
  - rewrite bind_unfold in Hrun.
    pose proof (api_call_stateless api answers m args w Hstateless) as Hval.
    destruct (api_call (invoke api m) args w) as [[data|e|] w1]; [|done|done].
    simpl in Hval. destruct (is_None data) eqn:Hnone.
    + right. by destruct data.
    + left. simpl in Hrun.
      rewrite (bind_ret _ _ _ _ _ (save_json_run _ _ _)), sleep_run in Hrun.
      injection Hrun as <-. simpl. rewrite dom_insert. set_solver.
Qed.

Lemma for_each_daily_settles calls dir ds w w' :
  for_each calls (daily_metric api dir ds) w = (Ret tt, w') →
  grows w w'
  ∧ ∀ call, call ∈ calls →
      dir </> call.1 ∈ dom (fs w') ∨ api_value (answers call.2 [AStr ds]) = Ret JNull.
Proof.
  revert w. induction calls as [|call rest IH]; intros w Hrun; simpl in Hrun.
  - injection Hrun as <-. split; [apply grows_refl|]. by intros ? ?%elem_of_nil.
  - apply bind_ret_inv in Hrun as ([] & w1 & Hcall & Hrest).
    destruct (cached_fetch_settles _ _ _ _ _ Hcall) as [Hg1 Hs1].
    destruct (IH _ Hrest) as [Hg2 Hs2].
    split; [by eapply grows_trans|].
    intros c [->|Hin]%elem_of_cons; [|by apply Hs2].
    destruct Hs1 as [Hs1|Hs1]; [left | by right]. destruct Hg2 as [Hd _]. set_solver.
Qed.

Lemma daily_day_settles days i d w w' :
  daily_day host api days i d w = (Ret tt, w') →
  grows w w' ∧ day_settled host answers (isoformat d) w'.
Proof.
  unfold daily_day. intros Hrun.
  apply bind_ret_inv in Hrun as ([] & w1 & Hprint & Hrun).
  apply bind_ret_inv in Hrun as ([] & w2 & Hcalls & Hbb).
  rewrite print_run in Hprint. injection Hprint as <-.
  destruct (for_each_daily_settles _ _ _ _ _ Hcalls) as [Hg1 Hs1].
  destruct (cached_fetch_settles _ _ _ _ _ Hbb) as [Hg2 Hs2].
  split.
  { eapply grows_trans; [|exact Hg2]. eapply grows_trans; [|exact Hg1].
    apply grows_log, grows_refl. }
  intros file m args [[Hin ->]|(-> & -> & ->)].
  - destruct (Hs1 _ Hin) as [Hl|Hr]; [left | by right].
    destruct Hg2 as [Hd _]. apply Hd, Hl.
  - exact Hs2.
Qed.



End StatelessService.


(** ** A run that finds everything in place *)





Lemma runs_written {A} (m : M A) w a ws w' :
  runs m w a ws w' → written (events_since w w') = ws.
Proof. intros [_ (evs & Htr & Hw)]. by rewrite (events_since_app _ _ _ Htr). Qed.

Section SecondRun.

Variable host : Host.
Variable api : Garmin.
Variable answers : api_method → list arg → outcome.
Hypothesis Hstateless : stateless api answers.
Hypothesis Hquiet : never_interrupts answers.





















End SecondRun.

(** ** Session acquisition writes no file *)

Lemma hoare_try_inv {A} (I : World → Prop) (body : M A) (handler : exn → M A) :
  hoare I body (λ _, I) → (∀ e, hoare I (handler e) (λ _, I)) →
  hoare I (try body handler) (λ _, I).
Proof.
  intros Hb Hh w HI. specialize (Hb w HI). unfold try.
  destruct (body w) as [[a|e|] w1]; simpl in *; [done | by apply Hh | done].
Qed.

Lemma hoare_idle_pure {A} w0 (m : M A) :
  (∀ w, (m w).2 = w) → hoare (idle w0) m (λ _, idle w0).
Proof. intros Hm w H. by rewrite Hm. Qed.

Lemma hoare_idle_print w0 line : hoare (idle w0) (print line) (λ _, idle w0).
Proof. intros w H. by apply idle_log. Qed.

Lemma hoare_idle_input w0 prompt : hoare (idle w0) (input prompt) (λ _, idle w0).
Proof.
  intros w H. eapply idle_trans; [exact H|]. unfold input.
  destruct (stdin w) as [|[line|] rest]; simpl; (split; [done|]); by exists [EPrompt prompt].
Qed.

Lemma hoare_idle_auth_call w0 r answer : hoare (idle w0) (auth_call r answer) (λ _, idle w0).
Proof. intros w H. rewrite auth_call_run. simpl. by apply idle_log. Qed.

Lemma hoare_idle_credentials_login w0 host email password :
  hoare (idle w0) (credentials_login host email password) (λ _, idle w0).
Proof. intros w H. simpl. by apply idle_log. Qed.

Lemma hoare_idle_getenv_or w0 host name ask :
  hoare (idle w0) ask (λ _, idle w0) → hoare (idle w0) (getenv_or host name ask) (λ _, idle w0).
Proof.
  intros Hask. unfold getenv_or. destruct (getenv host name) as [v|]; [|done].
  destruct (negb (String.eqb v "")); [by apply hoare_idle_pure | done].
Qed.

Lemma hoare_idle_resume_except w0 e : hoare (idle w0) (resume_except e) (λ _, idle w0).
Proof.
  unfold resume_except.
  repeat first
    [ apply hoare_seq_inv; [|intros ?]
    | apply hoare_idle_print
    | by apply hoare_idle_pure
    | match goal with |- hoare _ (if ?b then _ else _) _ => destruct b end ].
Qed.

Lemma hoare_idle_login_except w0 e : hoare (idle w0) (login_except e) (λ _, idle w0).
Proof.
  unfold login_except.
  repeat first
    [ apply hoare_seq_inv; [|intros ?]
    | apply hoare_idle_print
    | by apply hoare_idle_pure
    | match goal with |- hoare _ (if ?b then _ else _) _ => destruct b end ].
Qed.

Lemma hoare_idle_login_attempt w0 host ts :
  hoare (idle w0) (login_attempt host ts) (λ _, idle w0).
Proof.
  unfold login_attempt.
  apply hoare_seq_inv; [apply hoare_idle_getenv_or, hoare_idle_input|]. intros email.
  apply hoare_seq_inv; [apply hoare_idle_getenv_or, hoare_idle_input|]. intros password.
  apply hoare_seq_inv; [apply hoare_idle_credentials_login|]. intros [r1 r2|e].
  - apply hoare_seq_inv.
    + destruct (str_eq r1 "needs_mfa"); [|by apply hoare_idle_pure].
      apply hoare_seq_inv; [apply hoare_idle_input|]. intros code.
      apply hoare_try_inv; [|apply hoare_idle_resume_except].
      apply hoare_seq_inv; [apply hoare_idle_auth_call|]. intros _.
      by apply hoare_idle_pure.
    + intros [|]; [|by apply hoare_idle_pure].
      apply hoare_seq_inv; [apply hoare_idle_auth_call|]. intros _.
      apply hoare_seq_inv; [apply hoare_idle_print|]. intros _.
      by apply hoare_idle_pure.
  - by apply hoare_idle_pure.
Qed.

Lemma hoare_idle_prompt_loop w0 host fuel ts :
  hoare (idle w0) (prompt_loop host fuel ts) (λ _, idle w0).
Proof.
  induction fuel as [|fuel IH]; simpl; [by apply hoare_idle_pure|].
  apply hoare_seq_inv.
  - apply hoare_try_inv; [apply hoare_idle_login_attempt | apply hoare_idle_login_except].
  - intros [r|]; [by apply hoare_idle_pure | apply IH].
Qed.

Lemma init_api_idle host fuel w : idle w (init_api host fuel w).2.
Proof.
  assert (H : hoare (idle w) (init_api host fuel) (λ _, idle w)).
  { unfold init_api. apply hoare_seq_inv.
    - apply hoare_try_inv.
      + apply hoare_seq_inv; [apply hoare_idle_auth_call|]. intros _.
        apply hoare_seq_inv; [apply hoare_idle_print|]. intros _.
        by apply hoare_idle_pure.
      + intros e. match goal with |- hoare _ (if ?b then _ else _) _ => destruct b end;
          by apply hoare_idle_pure.
    - intros [|]; [by apply hoare_idle_pure | apply hoare_idle_prompt_loop]. }
  apply H, idle_refl.
Qed.

Lemma load_sync_state_world host w : (load_sync_state host w).2 = w.
Proof.
  unfold load_sync_state. rewrite bind_unfold, path_exists_unfold.
  case_bool_decide as Hc; [|done].
  destruct Hc as [state Hstate].
  rewrite (bind_ret _ _ _ _ _ (load_json_run _ _ _ Hstate)).
  destruct state as [| | | | |fields]; try done.
  rewrite bind_unfold. simpl.
  destruct (truthy (default JNull (assoc "last_sync_date" fields))); [|done].
  destruct (default JNull (assoc "last_sync_date" fields)) as [| | |s| |]; try done.
  by destruct (strptime s).
Qed.

(** ** The calendar: a date is read back from its ISO form *)

Lemma holds_from_spec check count first k :
  holds_from check count first = true →
  first ≤ k < first + Z.of_nat count → check k = true.
Proof.
  revert first. induction count as [|count IH]; intros first H Hk; [lia|].
  simpl in H. apply andb_true_iff in H as [Hfirst Hrest].
  destruct (decide (k = first)) as [->|Hne]; [done|].
  apply (IH (first + 1)); [done | lia].
Qed.

Lemma cycle_checked r : 0 ≤ r < 146097 → cycle_ok r = true.
Proof.
  intros Hr. apply (holds_from_spec cycle_ok (Z.to_nat 146097) 0); [|lia].
  vm_compute. reflexivity.
Qed.

Lemma year_field_checked n : 0 ≤ n ≤ 9999 → year_field_ok n = true.
Proof.
  intros Hn. apply (holds_from_spec year_field_ok (Z.to_nat 10000) 0); [|lia].
  vm_compute. reflexivity.
Qed.

Lemma month_day_field_checked n : 0 ≤ n ≤ 99 → month_day_field_ok n = true.
Proof.
  intros Hn. apply (holds_from_spec month_day_field_ok (Z.to_nat 100) 0); [|lia].
  vm_compute. reflexivity.
Qed.

(** The calendar repeats every 400 years, that is every 146097 days. *)
Lemma is_leap_shift q y : is_leap (q * 400 + y) = is_leap y.
Proof.
  unfold is_leap.
  replace (q * 400 + y) with (y + q * 100 * 4) at 1 by lia.
  replace (q * 400 + y) with (y + q * 4 * 100) at 1 by lia.
  replace (q * 400 + y) with (y + q * 400) by lia.
  by rewrite !Z.mod_add.
Qed.

Lemma days_before_year_shift q y :
  days_before_year (q * 400 + y) = q * 146097 + days_before_year y.
Proof.
  unfold days_before_year. cbv zeta.
  replace (q * 400 + y - 1) with (y - 1 + q * 100 * 4) at 2 by lia.
  replace (q * 400 + y - 1) with (y - 1 + q * 4 * 100) at 2 by lia.
  replace (q * 400 + y - 1) with (y - 1 + q * 400) at 2 by lia.
  rewrite !Z.div_add by lia. lia.
Qed.

Lemma days_in_month_shift q y m : days_in_month (q * 400 + y) m = days_in_month y m.
Proof. unfold days_in_month. by rewrite is_leap_shift. Qed.

Lemma ymd2ord_shift q y m d : ymd2ord (q * 400 + y) m d = q * 146097 + ymd2ord y m d.
Proof.
  unfold ymd2ord, days_before_month. rewrite days_before_year_shift, is_leap_shift. lia.
Qed.

(** Every ordinal of the date range is the ordinal of its year, month and
    day, and these form a valid date with a year of four digits. *)
Lemma ord2ymd_valid d :
  MIN_ORDINAL ≤ d ≤ MAX_ORDINAL →
  ∃ y m dd,
    ord2ymd d = (y, m, dd)
    ∧ 1 ≤ y ≤ 9999 ∧ 1 ≤ m ≤ 12 ∧ 1 ≤ dd ≤ days_in_month y m ∧ dd ≤ 31
    ∧ ymd2ord y m dd = d.
Proof.
  unfold MIN_ORDINAL, MAX_ORDINAL. intros Hd. unfold ord2ymd. cbv zeta.
  pose proof (Z.div_mod (d - 1) 146097 ltac:(lia)) as Hdm.
  pose proof (Z.mod_pos_bound (d - 1) 146097 ltac:(lia)) as Hr.
  set (q := (d - 1) / 146097) in *. set (r := (d - 1) mod 146097) in *.
  assert (0 ≤ q ≤ 24) by nia.
  pose proof (cycle_checked r Hr) as Hok. unfold cycle_ok in Hok.
  destruct (cycle_ymd r) as [[y m] dd].
  repeat (apply andb_true_iff in Hok as [Hok ?]).
  exists (q * 400 + y), m, dd. split; [done|].
  rewrite days_in_month_shift, ymd2ord_shift.
  assert (dd ≤ 31).
  { assert (days_in_month y m ≤ 31); [|lia].
    unfold days_in_month, DAYS_IN_MONTH.
    repeat match goal with |- context [if ?b then _ else _] => destruct b end; lia. }
  assert (q = 24 → y ≤ 399).
  { intros ->. destruct (145730 <? r) eqn:Hlast; [lia|]. simpl in *. lia. }
  split_and!; lia.
Qed.

Lemma append_nil_l (a : string) : "" +:+ a = a.
Proof. reflexivity. Qed.

Lemma append_cons x (a b : string) : String x a +:+ b = String x (a +:+ b).
Proof. reflexivity. Qed.

Lemma append_assoc (a b c : string) : (a +:+ b) +:+ c = a +:+ (b +:+ c).
Proof. induction a as [|x a IH]; [done|]. rewrite !append_cons. by f_equal. Qed.

Lemma append_empty_r (a : string) : a +:+ "" = a.
Proof. induction a as [|x a IH]; [done|]. rewrite append_cons. by f_equal. Qed.

Lemma split_on_lacks sep cur s :
  lacks sep s = true → split_on sep cur s = [cur +:+ s].
Proof.
  revert cur. induction s as [|c s IH]; intros cur H; simpl in *.
  - by rewrite append_empty_r.
  - apply andb_true_iff in H as [Hc Hs]. apply negb_true_iff in Hc. rewrite Hc.
    rewrite IH by done. by rewrite append_assoc.
Qed.

Lemma split_on_field sep cur s rest :
  lacks sep s = true →
  split_on sep cur (s +:+ String sep rest) = (cur +:+ s) :: split_on sep "" rest.
Proof.
  revert cur. induction s as [|c s IH]; intros cur H.
  - rewrite append_nil_l, append_empty_r. simpl. by rewrite Ascii.eqb_refl.
  - simpl in H. apply andb_true_iff in H as [Hc Hs]. apply negb_true_iff in Hc.
    rewrite append_cons. simpl. rewrite Hc.
    rewrite IH by done. by rewrite append_assoc.
Qed.

(** [strptime] reads the ISO form of every date of the range back. *)
Lemma strptime_isoformat d :
  MIN_ORDINAL ≤ d ≤ MAX_ORDINAL → strptime (isoformat d) = Some d.
Proof.
  intros Hd.
  destruct (ord2ymd_valid d Hd) as (y & m & dd & Hymd & Hy & Hm & Hdd & Hdd31 & Hord).
  unfold isoformat, strptime. rewrite Hymd.
  pose proof (year_field_checked y ltac:(lia)) as Hyf.
  pose proof (month_day_field_checked m ltac:(lia)) as Hmf.
  pose proof (month_day_field_checked dd ltac:(lia)) as Hdf.
  unfold year_field_ok in Hyf. unfold month_day_field_ok in Hmf, Hdf.
  repeat match goal with
         | H : _ && _ = true |- _ => apply andb_true_iff in H as [? ?]
         | H : bool_decide _ = true |- _ => apply bool_decide_eq_true in H
         end.
  rewrite !(append_cons "-" ""), !append_nil_l.
  rewrite (split_on_field "-" "" (pad0 4 y)) by done.
  rewrite (split_on_field "-" "" (pad0 2 m)) by done.
  rewrite (split_on_lacks "-" "" (pad0 2 dd)) by done.
  rewrite !append_nil_l.
  repeat match goal with H : _ = Some _ |- _ => rewrite H; clear H end.
  replace ((1 <=? y) && (1 <=? m) && (m <=? 12) && (1 <=? dd) && (dd <=? days_in_month y m))
    with true; [by rewrite Hord|].
  symmetry. repeat (apply andb_true_iff; split); lia.
Qed.

(** ** Idempotence of the orchestrator *)


(** ** Worked examples *)

Lemma records_summaries first count : records (summaries first count).
Proof.
  unfold records, summaries. apply Forall_fmap, Forall_forall. intros n _. by eexists.
Qed.

Lemma paged_service_serves :
  serves_pages paged_service ([summaries 1 100; summaries 101 100] ++ [summaries 201 37]).
Proof.
  intros i items Hi h. destruct i as [|[|[|i]]]; simpl in Hi; try discriminate;
    injection Hi as <-; vm_compute; reflexivity.
Qed.

Lemma steady_answers_never_interrupt : never_interrupts steady_answers.
Proof. intros m args e H. destruct m; simpl in H; try discriminate; by injection H as <-. Qed.

(** Rate limited twice, then a value: two waits, of 5 and of 10 seconds. *)
Lemma api_call_retry_policy_witness :
  api_call (invoke flaky_service get_user_profile) [] empty_world
  = (Ret (JStr "profile"),
     mkWorld ∅
       [ECall get_user_profile []; EPrint "  Rate limited, waiting 5s..."; ESleep 5;
        ECall get_user_profile []; EPrint "  Rate limited, waiting 10s..."; ESleep 10;
        ECall get_user_profile []] []).
Proof.
  eapply (proj1 (proj2 (proj2
            (api_call_retry_policy (invoke flaky_service get_user_profile) [] empty_world))));
    reflexivity.
Defined.

(** Ctrl-C during the operation leaves [api_call] as an exception, and an
    HTTP error other than 429 gives absent without any message. *)
Lemma api_call_not_always_contained :
  api_call (λ _, raise KeyboardInterrupt) [] empty_world = (Raise KeyboardInterrupt, empty_world)
  ∧ api_call (λ _, raise (Exc GarthHTTPError "500 Server Error")) [] empty_world
    = (Ret JNull, empty_world).
Proof. split; reflexivity. Qed.

(** A summary cached for today is not requested again. *)
Lemma sync_daily_data_uses_cache_witness :
  [AStr "2021-07-29"]
  ∉ calls_of get_user_summary
      (events_since blank_state
         (sync_daily_data steady_host steady_service 738000 738000 blank_state).2).
Proof.
  apply (proj2 (proj2 (sync_daily_data_uses_cache steady_host steady_service 738000 738000
                         blank_state)) "2021-07-29" "summary.json").
  - left. split; [by left | reflexivity].
  - by eexists.
Defined.

(** Pages of 100, 100 and 37 activities: three list requests. *)
Lemma full_sync_pagination_witness :
  ∃ w', sync_activities_full steady_host 3 paged_service empty_world = (Ret tt, w')
        ∧ calls_of get_activities (events_since empty_world w')
          = [[AInt 0; AInt 100]; [AInt 100; AInt 100]; [AInt 200; AInt 100]].
Proof.
  apply (full_sync_pagination steady_host paged_service
           [summaries 1 100; summaries 101 100] (summaries 201 37) 3 empty_world).
  - intros h m args e H. discriminate H.
  - constructor; [split; [reflexivity | apply records_summaries]|].
    constructor; [split; [reflexivity | apply records_summaries]|].
    constructor.
  - vm_compute. lia.
  - apply records_summaries.
  - apply paged_service_serves.
  - simpl. lia.
Defined.


(** A record without identifier leaves the world as it is. *)
Lemma activity_without_id_is_skipped_witness :
  incremental_activity steady_service "/home/user/garmin_data/activities"
    (JObj [("activityName", JStr "Walk")]) empty_world = (Ret tt, empty_world).
Proof.
  apply (proj1 (proj2 (activity_without_id_is_skipped steady_service
                         "/home/user/garmin_data/activities"
                         [("activityName", JStr "Walk")] eq_refl))).
Defined.

(** With a state file dated 2021-07-28 the range starts on that day. *)
Lemma main_selects_sync_range_witness :
  main steady_host 1 synced_yesterday
  = (print (incremental_notice 737999 738000);;
     sync_from steady_host 1 steady_service true 737999 738000)
      (init_api steady_host 1 synced_yesterday).2.
Proof.
  apply (proj1 (main_selects_sync_range steady_host 1 synced_yesterday steady_service
                  (init_api steady_host 1 synced_yesterday).2 eq_refl)).
  reflexivity.
Defined.

(** A state file with an empty date: absent, and the initial sync. *)
Lemma state_without_date_selects_initial_sync_witness :
  load_sync_state steady_host blank_state = (Ret None, blank_state).
Proof.
  apply (proj2 (state_without_date_selects_initial_sync steady_host blank_state)
           [("last_sync_date", JStr "")]); reflexivity.
Defined.

(** A rate limit at the MFA step ends the process with status 1. *)
Lemma mfa_resume_failure_witness :
  prompt_loop login_host 1 "/home/user/.garminconnect"
    (typed ["me@example.org"; "secret"; "429429"])
  = (Raise (SystemExit 1),
     mkWorld ∅
       [EPrompt "Login email: "; EPrompt "Enter password: ";
        EAuth (LoginCredentials "me@example.org" "secret");
        EPrompt "Enter MFA code: ";
        EAuth (ResumeLogin (JObj [("signin", JStr "pending")]) "429429");
        EPrint "Rate limited during MFA. Try again later."] []).
Proof.
  refine (proj1 (mfa_resume_failure login_host 0 "/home/user/.garminconnect"
                   (typed ["me@example.org"; "secret"; "429429"])
                   (mkWorld ∅
                      [EPrompt "Login email: "; EPrompt "Enter password: ";
                       EAuth (LoginCredentials "me@example.org" "secret");
                       EPrompt "Enter MFA code: "] [])
                   (JObj [("signin", JStr "pending")]) "429429"
                   (Exc GarthHTTPError "429 Client Error: Too Many Requests") _ eq_refl)
            eq_refl eq_refl).
  exists "me@example.org", (mkWorld ∅ [EPrompt "Login email: "] [Typed "secret"; Typed "429429"]),
    "secret", (mkWorld ∅ [EPrompt "Login email: "; EPrompt "Enter password: "] [Typed "429429"]),
    (JStr "needs_mfa").
  repeat split.
Defined.

(** An MFA failure that is not an HTTP error does not end the process: the
    loop reports it, asks for the credentials again and, with a good code,
    authenticates. *)
Lemma mfa_failure_reprompts :
  (init_api login_host 2
     (typed ["me@example.org"; "secret"; "000000"; "me@example.org"; "secret"; "123456"])).1
  = Ret (Some steady_service)
  ∧ trace (init_api login_host 2
             (typed ["me@example.org"; "secret"; "000000";
                     "me@example.org"; "secret"; "123456"])).2
    = [EAuth (LoginTokens "/home/user/.garminconnect");
       EPrompt "Login email: "; EPrompt "Enter password: ";
       EAuth (LoginCredentials "me@example.org" "secret");
       EPrompt "Enter MFA code: ";
       EAuth (ResumeLogin (JObj [("signin", JStr "pending")]) "000000");
       EPrint "MFA failed. Try again.";
       EPrompt "Login email: "; EPrompt "Enter password: ";
       EAuth (LoginCredentials "me@example.org" "secret");
       EPrompt "Enter MFA code: ";
       EAuth (ResumeLogin (JObj [("signin", JStr "pending")]) "123456");
       EAuth (DumpTokens "/home/user/.garminconnect");
       EPrint "Authenticated successfully."].
Proof. split; reflexivity. Qed.

(** Ctrl-C at the first login prompt: no client, and status 1. *)
Lemma script_exit_status_witness :
  script login_host 1 (mkWorld ∅ [] [CtrlC])
  = (Raise (SystemExit 1),
     mkWorld ∅
       [EAuth (LoginTokens "/home/user/.garminconnect"); EPrompt "Login email: ";
        EPrint "Failed to authenticate."] [])
  ∧ exit_code (script login_host 1 (mkWorld ∅ [] [CtrlC])).1 = Some 1.
Proof.
  apply (proj1 (proj2 (proj2 (script_exit_status login_host 1 (mkWorld ∅ [] [CtrlC]))))
           (mkWorld ∅ [EAuth (LoginTokens "/home/user/.garminconnect");
                       EPrompt "Login email: "] [])).
  reflexivity.
Defined.

(** A run interrupted by hand at the login prompt prints the failure
    message, not the interruption message, and exits with status 1. *)
Lemma interrupted_login_exits_1 :
  exit_code (script login_host 1 (mkWorld ∅ [] [CtrlC])).1 = Some 1
  ∧ trace (script login_host 1 (mkWorld ∅ [] [CtrlC])).2
    = [EAuth (LoginTokens "/home/user/.garminconnect"); EPrompt "Login email: ";
       EPrint "Failed to authenticate."].
Proof. split; reflexivity. Qed.


Lemma pair_of_fst {A B} (x : A * B) (a : A) : x.1 = a → x = (a, x.2).
Proof. destruct x. by intros <-. Qed.


Lemma steady_first_login :
  (init_api steady_host 1 synced_yesterday).1 = Ret (Some steady_service).
Proof. vm_compute. reflexivity. Qed.



Lemma steady_today_in_range : MIN_ORDINAL ≤ 738000 ≤ MAX_ORDINAL.
Proof. unfold MIN_ORDINAL, MAX_ORDINAL. lia. Qed.



(** ** Small facts used below *)

(** Reading a value changes nothing. *)
Lemma py_iter_world v w : (py_iter v w).2 = w.
Proof. by destruct v. Qed.

Lemma py_len_world v w : (py_len v w).2 = w.
Proof. by destruct v. Qed.

(** What is stored for an activity is never [None]. *)
Lemma cached_activity_data detail fields :
  is_None (cached_activity detail (JObj fields)) = false.
Proof. unfold cached_activity. by destruct detail. Qed.

Lemma idle_written_log w e : written [e] = [] → idle w (log e w).
Proof. intros H. by apply idle_log; [|apply idle_refl]. Qed.

(** Membership in a list that is written out. *)
Ltac in_list :=
  repeat first [apply list_elem_of_here | apply list_elem_of_further].

Lemma calls_of_call m args evs :
  calls_of m (ECall m args :: evs) = args :: calls_of m evs.
Proof. simpl. by rewrite decide_True. Qed.

(** A value [api_call] returns is [None] or an answer of the service. *)
Lemma api_call_attempts_value api m args attempts w v w' :
  api_call_attempts (invoke api m args) attempts w = (Ret v, w') →
  v = JNull ∨ ∃ h, respond api h m args = Returns v.
Proof.
  revert w. induction attempts as [|k rest IH]; intros w.
  - rewrite api_call_attempts_nil. intros [= <- _]. by left.
  - pose proof (invoke_unfold api m args w) as Hop.
    destruct (respond api (trace w) m args) as [v1|e] eqn:Hrespond.
    + rewrite (attempt_success _ _ _ _ _ _ Hop). intros [= <- _]. right. by eexists.
    + destruct (rate_limited e) eqn:Hrate.
      * rewrite (attempt_rate_limited _ _ _ _ _ _ Hop Hrate). apply IH.
      * destruct (is_Exception e) eqn:Hexc.
        -- rewrite (attempt_soft_failure _ _ _ _ _ _ Hop Hexc Hrate).
           intros [= <- _]. by left.
        -- by rewrite (attempt_propagates _ _ _ _ _ _ Hop Hexc).
Qed.

Lemma stateless_uninterrupted api answers :
  stateless api answers → never_interrupts answers → uninterrupted api.
Proof. intros Hst Hq h m args e He. rewrite Hst in He. by apply (Hq m args). Qed.

(** Strings and paths. *)
Lemma lacks_app c a b : lacks c (a +:+ b) = lacks c a && lacks c b.
Proof.
  induction a as [|x a IH]; [by rewrite append_nil_l|].
  rewrite append_cons. simpl. by rewrite IH, andb_assoc.
Qed.

(** Joining a relative path appends it. *)
Lemma path_join_relative a b : lacks "/" b = true → a </> b = a +:+ "/" +:+ b.
Proof.
  intros Hb. unfold path_join. replace (String.prefix "/" b) with false; [done|].
  symmetry. destruct b as [|c b]; [done|].
  simpl in Hb. apply andb_true_iff in Hb as [Hc _].
  cbn [String.prefix]. destruct (ascii_dec "/" c) as [<-|]; done.
Qed.

Lemma append_inv_head (a b c : string) : a +:+ b = a +:+ c → b = c.
Proof.
  induction a as [|x a IH]; [by rewrite !append_nil_l|].
  rewrite !append_cons. intros [= H]. by apply IH.
Qed.

(** Two strings that agree after their first [c] agree before it. *)
Lemma lacks_split c (a a' b b' : string) :
  lacks c a = true → lacks c a' = true →
  a +:+ String c b = a' +:+ String c b' → a = a' ∧ b = b'.
Proof.
  revert a'. induction a as [|x a IH]; intros a' Ha Ha'.
  - rewrite append_nil_l. destruct a' as [|x' a'].
    + rewrite append_nil_l. by intros [= ->].
    + rewrite append_cons. intros [= <- _]. simpl in Ha'.
      by rewrite Ascii.eqb_refl in Ha'.
  - simpl in Ha. apply andb_true_iff in Ha as [Hx Ha].
    destruct a' as [|x' a'].
    + rewrite append_nil_l, append_cons. intros [= -> _].
      by rewrite Ascii.eqb_refl in Hx.
    + simpl in Ha'. apply andb_true_iff in Ha' as [_ Ha'].
      rewrite !append_cons. intros [= -> H].
      destruct (IH a' Ha Ha' H) as [-> ->]. done.
Qed.

Lemma prefix_append (a x : string) : String.prefix a (a +:+ x) = true.
Proof.
  induction a as [|c a IH]; [by destruct x|].
  rewrite append_cons. cbn [String.prefix]. by destruct (ascii_dec c c).
Qed.

(** ** Relations every step of the script preserves *)

Section Steps.

Context (R : relation World) `{!PreOrder R}.

Lemma steps_pure {A} (m : M A) : (∀ w, (m w).2 = w) → steps R m.
Proof. intros H w. rewrite H. reflexivity. Qed.

Lemma steps_mret {A} (a : A) : steps R (mret a).
Proof. by apply steps_pure. Qed.

Lemma steps_bind {A B} (m : M A) (f : A → M B) :
  steps R m → (∀ a, steps R (f a)) → steps R (m ≫= f).
Proof.
  intros Hm Hf w. rewrite bind_unfold. specialize (Hm w).
  destruct (m w) as [[a| |] w1]; simpl in *; try done.
  etrans; [exact Hm|apply Hf].
Qed.

Lemma steps_try {A} (body : M A) (handler : exn → M A) :
  steps R body → (∀ e, steps R (handler e)) → steps R (try body handler).
Proof.
  intros Hm Hf w. unfold try. specialize (Hm w).
  destruct (body w) as [[a|e|] w1]; simpl in *; try done.
  etrans; [exact Hm|apply Hf].
Qed.

Lemma steps_for_each {A} (xs : list A) (body : A → M unit) :
  (∀ x, steps R (body x)) → steps R (for_each xs body).
Proof.
  intros Hbody. induction xs as [|x xs IH]; simpl.
  - apply steps_mret.
  - apply steps_bind; [apply Hbody|by intros _].
Qed.

Lemma steps_for_fold {A S} (xs : list A) (s : S) (body : S → A → M S) :
  (∀ s x, steps R (body s x)) → steps R (for_fold xs s body).
Proof.
  intros Hbody. revert s. induction xs as [|x xs IH]; intros s; simpl.
  - apply steps_mret.
  - apply steps_bind; [apply Hbody|intros s'; apply IH].
Qed.

Lemma steps_bind_post {A B} (m : M A) (f : A → M B) (Q : A → Prop) :
  (∀ w a w', m w = (Ret a, w') → Q a) →
  steps R m → (∀ a, Q a → steps R (f a)) → steps R (m ≫= f).
Proof.
  intros HQ Hm Hf w. rewrite bind_unfold. specialize (Hm w). specialize (HQ w).
  destruct (m w) as [[a| |] w1]; simpl in *; try done.
  etrans; [exact Hm|]. by apply Hf, (HQ a w1).
Qed.

Lemma steps_for_each_in {A} (xs : list A) (body : A → M unit) :
  (∀ x, x ∈ xs → steps R (body x)) → steps R (for_each xs body).
Proof.
  induction xs as [|x xs IH]; intros Hbody; simpl.
  - apply steps_mret.
  - apply steps_bind; [apply Hbody; left|intros _; apply IH].
    intros y Hy. apply Hbody. by right.
Qed.

Lemma steps_for_fold_in {A S} (xs : list A) (s : S) (body : S → A → M S) :
  (∀ s x, x ∈ xs → steps R (body s x)) → steps R (for_fold xs s body).
Proof.
  revert s. induction xs as [|x xs IH]; intros s Hbody; simpl.
  - apply steps_mret.
  - apply steps_bind; [apply Hbody; left|intros s'; apply IH].
    intros s'' y Hy. apply Hbody. by right.
Qed.

(** The relations the script preserves step by step: those that hold
    across a step that writes no file, across the write of data to a file
    that was not there and satisfies [cache], and across the write of data
    to one of [paths]. *)
Variable cache : string → Prop.

Variable paths : list string.

Hypothesis R_idle : ∀ w w', idle w w' → R w w'.

Hypothesis R_new : ∀ w path data,
  cache path → fs w !! path = None → is_None data = false →
  R w (save_json path data w).2.

Hypothesis R_rewrite : ∀ w path data,
  path ∈ paths → is_None data = false → R w (save_json path data w).2.

Lemma steps_print line : steps R (print line).
Proof. intros w. by apply R_idle, idle_written_log. Qed.

Lemma steps_sleep s : steps R (sleep s).
Proof. intros w. by apply R_idle, idle_written_log. Qed.

Lemma steps_api_call api m args : steps R (api_call (invoke api m) args).
Proof. intros w. apply R_idle, api_call_idle. Qed.

Lemma R_stored_new w w1 path data :
  cache path → idle w w1 → fs w !! path = None → is_None data = false →
  R w (save_json path data w1).2.
Proof.
  intros Hcache Hidle Hpath Hdata. etrans; [by apply R_idle|].
  apply R_new; [done| |done]. destruct Hidle as [-> _]. done.
Qed.

(** The cache check in front of a fetch: the file is written only when it
    was not there, and only with data. *)
Lemma steps_cached_fetch api path m args :
  cache path →
  steps R
    (cached ← path_exists path;
     if cached : bool then mret tt
     else
       data ← api_call (invoke api m) args;
       (if negb (is_None data) then save_json path data else mret tt);;
       sleep API_DELAY).
Proof.
  intros Hcache w. destruct (fs w !! path) as [v|] eqn:Hpath.
  - rewrite (bind_ret _ _ _ _ _ (path_exists_present _ _ (mk_is_Some _ _ Hpath))).
    reflexivity.
  - rewrite (bind_ret _ _ _ _ _ (path_exists_absent _ _ Hpath)).
    pose proof (api_call_idle api m args w) as Hidle.
    rewrite bind_unfold.
    destruct (api_call (invoke api m) args w) as [[data|e|] w1];
      try (by apply R_idle).
    unfold snd in Hidle. destruct (is_None data) eqn:Hdata; unfold negb.
    + rewrite (bind_ret _ _ _ _ _ (mret_run _ _)).
      etrans; [by apply R_idle|]. apply steps_sleep.
    + rewrite (bind_ret _ _ _ _ _ (save_json_run _ _ _)).
      etrans; [by apply (R_stored_new w w1 path data)|]. apply steps_sleep.
Qed.

Lemma steps_daily_day host api days i d :
  daily_files_in host cache d d → steps R (daily_day host api days i d).
Proof.
  intros Hcache. unfold daily_day. apply steps_bind; [apply steps_print|intros _].
  apply steps_bind; [|intros _; apply steps_cached_fetch].
  - apply steps_for_each_in. intros [file m] Hcall. apply steps_cached_fetch.
    apply (Hcache d file m [AStr (isoformat d)]); [lia|]. by left.
  - apply (Hcache d _ get_body_battery [AStr (isoformat d); AStr (isoformat d)]); [lia|].
    by right.
Qed.

Lemma steps_daily_loop host fuel api end_ days i current :
  daily_files_in host cache current end_ →
  steps R (daily_loop host fuel api end_ days i current).
Proof.
  revert i current. induction fuel as [|fuel IH]; intros i current Hcache; simpl.
  - apply steps_mret.
  - destruct (Z.leb_spec current end_); [|apply steps_mret].
    apply steps_bind; [|intros _; apply IH].
    + apply steps_daily_day. intros d file m args Hd. apply Hcache. lia.
    + intros d file m args Hd. apply Hcache. lia.
Qed.

Lemma steps_sync_daily_data host api start end_ :
  daily_files_in host cache start end_ → steps R (sync_daily_data host api start end_).
Proof. unfold sync_daily_data. apply steps_daily_loop. Qed.

Lemma R_fetched w w1 path data e1 e2 :
  cache path → idle w w1 → fs w !! path = None → is_None data = false →
  written [e1] = [] → written [e2] = [] →
  R w (log e2 (log e1 (save_json path data w1).2)).
Proof.
  intros Hcache Hidle Hpath Hdata H1 H2.
  etrans; [by apply (R_stored_new w w1 path data)|].
  apply R_idle. by apply idle_log; [|apply idle_written_log].
Qed.

Lemma steps_incremental_activity api dir a :
  activity_file_in cache dir a → steps R (incremental_activity api dir a).
Proof.
  intros Hcache w. destruct a as [| | | | |fields]; try reflexivity.
  destruct (truthy (activity_id fields)) eqn:Hid.
  - destruct (fs w !! activity_file dir (activity_id fields)) as [v|] eqn:Hfile.
    + rewrite incremental_activity_cached; [reflexivity|done|by eexists].
    + rewrite incremental_activity_fetch by done.
      pose proof (api_call_idle api get_activity [AStr (py_str (activity_id fields))] w)
        as Hidle.
      destruct (api_call _ _ w) as [[detail|e|] w1]; try (by apply R_idle).
      apply R_fetched; try done; [by apply Hcache|apply cached_activity_data].
  - rewrite incremental_activity_no_id by done. reflexivity.
Qed.

Lemma steps_full_activity api dir total a :
  activity_file_in cache dir a → steps R (full_activity api dir total a).
Proof.
  intros Hcache w. destruct a as [| | | | |fields]; try reflexivity.
  destruct (truthy (activity_id fields)) eqn:Hid.
  - destruct (fs w !! activity_file dir (activity_id fields)) as [v|] eqn:Hfile.
    + rewrite full_activity_cached; [reflexivity|done|by eexists].
    + rewrite full_activity_fetch by done.
      pose proof (api_call_idle api get_activity [AStr (py_str (activity_id fields))] w)
        as Hidle.
      destruct (api_call _ _ w) as [[detail|e|] w1]; try (by apply R_idle).
      apply R_fetched; try done; [by apply Hcache|apply cached_activity_data].
  - rewrite full_activity_no_id by done. reflexivity.
Qed.

(** The items a loop draws from a listing are records of the listing, or
    no records at all. *)

(** The items a loop draws from a listing are records of the listing, or
    no records at all. *)
Lemma listed_items_in api m dir args v :
  listed_files_in api m cache dir →
  v = JNull ∨ (∃ h, respond api h m args = Returns v) →
  ∀ w items w' a, py_iter v w = (Ret items, w') → a ∈ items →
    activity_file_in cache dir a.
Proof.
  intros Hlisted [->|[h Hh]] w items w' a Hiter Ha; [done|].
  destruct v as [| | |s|items'|fields']; try done.
  - injection Hiter as <- _. intros fields ->. clear -Ha. exfalso.
    induction s as [|c s IH]; simpl in Ha; [by apply elem_of_nil in Ha|].
    apply elem_of_cons in Ha as [Ha|Ha]; [done|auto].
  - injection Hiter as <- _. by apply (Hlisted h args items' a).
  - injection Hiter as <- _. intros fields ->.
    apply list_elem_of_fmap in Ha as (kv & Hkv & _). done.
Qed.

Lemma steps_full_pages fuel api dir start limit total :
  listed_files_in api get_activities cache dir →
  steps R (full_pages fuel api dir start limit total).
Proof.
  intros Hlisted. revert start total.
  induction fuel as [|fuel IH]; intros start total; simpl.
  - by apply steps_pure.
  - apply (steps_bind_post _ _
             (λ batch, batch = JNull
                       ∨ ∃ h, respond api h get_activities [AInt start; AInt limit]
                              = Returns batch)).
    { intros w batch w'. apply api_call_attempts_value. }
    { apply steps_api_call. }
    intros batch Hbatch. destruct (negb (truthy batch)); [apply steps_mret|].
    apply (steps_bind_post _ _ (λ items, ∀ a, a ∈ items → activity_file_in cache dir a)).
    { intros w items w' Hiter a. by eapply listed_items_in. }
    { apply steps_pure, py_iter_world. }
    intros items Hitems. apply steps_bind; [|intros total1].
    { apply steps_for_fold_in. intros s x Hx. by apply steps_full_activity, Hitems. }
    apply steps_bind; [apply steps_pure, py_len_world|intros size].
    destruct (size <? limit); [apply steps_mret|].
    apply steps_bind; [apply steps_sleep|intros _; apply IH].
Qed.

Lemma steps_sync_activities_incremental host api start_date end_date :
  listed_files_in api get_activities_by_date cache (BASE_DIR host </> "activities") →
  steps R (sync_activities_incremental host api start_date end_date).
Proof.
  intros Hlisted. unfold sync_activities_incremental.
  apply steps_bind; [apply steps_print|intros _].
  apply (steps_bind_post _ _
           (λ v, v = JNull
                 ∨ ∃ h, respond api h get_activities_by_date
                          [AStr (isoformat start_date); AStr (isoformat end_date)]
                        = Returns v)).
  { intros w v w'. apply api_call_attempts_value. }
  { apply steps_api_call. }
  intros activities Hactivities. destruct (negb (truthy activities)); [apply steps_print|].
  apply (steps_bind_post _ _
           (λ items, ∀ a, a ∈ items
                          → activity_file_in cache (BASE_DIR host </> "activities") a)).
  { intros w items w' Hiter a. by eapply listed_items_in. }
  { apply steps_pure, py_iter_world. }
  intros items Hitems. apply steps_for_each_in. intros a Ha.
  by apply steps_incremental_activity, Hitems.
Qed.

Lemma steps_sync_activities_full host fuel api :
  listed_files_in api get_activities cache (BASE_DIR host </> "activities") →
  steps R (sync_activities_full host fuel api).
Proof.
  intros Hlisted. unfold sync_activities_full.
  apply steps_bind; [apply steps_print|intros _].
  apply steps_bind; [by apply steps_full_pages|intros total].
  apply steps_print.
Qed.

Lemma steps_refresh api path m args : path ∈ paths → steps R (refresh api path m args).
Proof.
  intros Hpath. unfold refresh. apply steps_bind; [apply steps_api_call|intros data].
  destruct (is_None data) eqn:Hdata; unfold negb; [apply steps_mret|].
  intros w. by apply R_rewrite.
Qed.

Variable host : Host.

Hypothesis paths_refreshed : refreshed_paths host ⊆ paths.

Lemma refreshed_path p : p ∈ refreshed_paths host → p ∈ paths.
Proof. apply paths_refreshed. Qed.

Lemma steps_sync_body_composition api start_date end_date :
  steps R (sync_body_composition host api start_date end_date).
Proof.
  unfold sync_body_composition.
  apply steps_bind; [apply steps_print|intros _].
  apply steps_bind; [|intros _].
  { apply steps_refresh, refreshed_path. in_list. }
  apply steps_bind; [apply steps_sleep|intros _].
  apply steps_refresh, refreshed_path. in_list.
Qed.

Lemma steps_sync_weekly api : steps R (sync_weekly host api).
Proof.
  unfold sync_weekly.
  apply steps_bind; [apply steps_print|intros _].
  apply steps_bind; [by apply steps_pure|intros today].
  apply steps_bind; [|intros _].
  { apply steps_refresh, refreshed_path. in_list. }
  apply steps_bind; [apply steps_sleep|intros _].
  apply steps_refresh, refreshed_path. in_list.
Qed.

Lemma steps_sync_profile api : steps R (sync_profile host api).
Proof.
  unfold sync_profile.
  apply steps_bind; [apply steps_print|intros _].
  apply steps_bind; [|intros _].
  { apply steps_refresh, refreshed_path. in_list. }
  apply steps_bind; [apply steps_sleep|intros _].
  apply steps_refresh, refreshed_path. in_list.
Qed.

Lemma steps_sync_personal_records api : steps R (sync_personal_records host api).
Proof.
  unfold sync_personal_records.
  apply steps_bind; [apply steps_print|intros _].
  apply steps_refresh, refreshed_path. in_list.
Qed.

Hypothesis cache_all : ∀ path, cache path.

Hypothesis paths_state : SYNC_STATE_FILE host ∈ paths.

Lemma steps_save_sync_state d : steps R (save_sync_state host d).
Proof. intros w. unfold save_sync_state. by apply R_rewrite. Qed.

Lemma daily_files_in_all start end_ : daily_files_in host cache start end_.
Proof. intros d file m args _ _. apply cache_all. Qed.

Lemma listed_files_in_all api m dir : listed_files_in api m cache dir.
Proof. intros h args items a _ _ fields _ _. apply cache_all. Qed.

Lemma steps_sync_all fuel api : steps R (sync_all host fuel api).
Proof.
  unfold sync_all.
  apply steps_bind; [by apply steps_pure|intros today].
  apply steps_bind; [apply steps_pure, load_sync_state_world|intros last_sync].
  apply steps_bind; [|intros start_date].
  { destruct last_sync; (apply steps_bind; [apply steps_print|intros _; apply steps_mret]). }
  apply steps_bind; [apply steps_sync_daily_data, daily_files_in_all|intros _].
  apply steps_bind; [apply steps_sleep|intros _].
  apply steps_bind; [|intros _].
  { destruct last_sync;
      [apply steps_sync_activities_incremental|apply steps_sync_activities_full];
      apply listed_files_in_all. }
  apply steps_bind; [apply steps_sleep|intros _].
  apply steps_bind; [apply steps_sync_body_composition|intros _].
  apply steps_bind; [apply steps_sleep|intros _].
  apply steps_bind; [apply steps_sync_weekly|intros _].
  apply steps_bind; [apply steps_sleep|intros _].
  apply steps_bind; [apply steps_sync_profile|intros _].
  apply steps_bind; [apply steps_sleep|intros _].
  apply steps_bind; [apply steps_sync_personal_records|intros _].
  apply steps_bind; [apply steps_save_sync_state|intros _].
  apply steps_print.
Qed.

Lemma steps_main fuel : steps R (main host fuel).
Proof.
  unfold main. apply steps_bind.
  - intros w. apply R_idle, init_api_idle.
  - intros [api|]; [apply steps_sync_all|].
    apply steps_bind; [apply steps_print|intros _]. by apply steps_pure.
Qed.

Lemma steps_script fuel : steps R (script host fuel).
Proof.
  unfold script. apply steps_try; [apply steps_main|].
  intros e. case_bool_decide; [apply steps_print|by apply steps_pure].
Qed.

End Steps.

#[global] Instance files_kept_preorder : PreOrder files_kept.
Proof.
  split.
  - by intros w p v.
  - intros w0 w1 w2 H1 H2 p v Hp. by apply H2, H1.
Qed.

#[global] Instance files_kept_except_preorder paths : PreOrder (files_kept_except paths).
Proof.
  split.
  - by intros w p v.
  - intros w0 w1 w2 H1 H2 p v Hp Hv. apply H2; [done|]. by apply H1.
Qed.

#[global] Instance emits_preorder ok : PreOrder (emits ok).
Proof.
  split.
  - intros w. exists []. by rewrite app_nil_r.
  - intros w0 w1 w2 (evs1 & H1 & Hok1) (evs2 & H2 & Hok2).
    exists (evs1 ++ evs2). split; [by rewrite H2, H1, app_assoc|by apply Forall_app].
Qed.

Lemma files_kept_same w w' : fs w' = fs w → files_kept w w'.
Proof. intros H p v. by rewrite H. Qed.

Lemma files_kept_idle w w' : idle w w' → files_kept w w'.
Proof. intros [Hfs _] p v. by rewrite Hfs. Qed.

Lemma files_kept_new w path data :
  fs w !! path = None → files_kept w (save_json path data w).2.
Proof.
  intros Hnone p v Hp. rewrite save_json_run. simpl.
  rewrite lookup_insert_ne; [done|]. intros <-. congruence.
Qed.

Lemma files_kept_except_idle paths w w' : idle w w' → files_kept_except paths w w'.
Proof. intros [Hfs _] p v _. by rewrite Hfs. Qed.

Lemma files_kept_except_new paths w path data :
  fs w !! path = None → files_kept_except paths w (save_json path data w).2.
Proof. intros Hnone p v _. by apply files_kept_new. Qed.

Lemma files_kept_except_rewrite paths w path data :
  path ∈ paths → files_kept_except paths w (save_json path data w).2.
Proof.
  intros Hpath p v Hp Hv. rewrite save_json_run. simpl.
  rewrite lookup_insert_ne; [done|]. by intros <-.
Qed.

Lemma written_nil_writes_data evs : written evs = [] → Forall writes_data evs.
Proof.
  induction evs as [|e evs IH]; [constructor|].
  destruct e; try discriminate; intros H; constructor; try done; by apply IH.
Qed.

Lemma emits_writes_data_idle w w' : idle w w' → emits writes_data w w'.
Proof.
  intros (_ & evs & Htrace & Hevs). exists evs. split; [done|].
  by apply written_nil_writes_data.
Qed.

Lemma emits_writes_data_save w path data :
  is_None data = false → emits writes_data w (save_json path data w).2.
Proof.
  intros Hdata. exists [EWrite path data]. split; [done|]. by repeat constructor.
Qed.

Lemma refreshed_paths_rewritten host : refreshed_paths host ⊆ rewritten_paths host.
Proof. intros p Hp. unfold rewritten_paths. apply elem_of_app. by left. Qed.

Lemma state_file_rewritten host : SYNC_STATE_FILE host ∈ rewritten_paths host.
Proof. unfold rewritten_paths. apply elem_of_app. right. by left. Qed.

(** X11: the daily sync and both activity syncs never change a file that
    was there when they started, whatever the service answers and however
    the run ends: every file of the tree is found afterwards with the
    content it had. *)
Theorem cache_checked_syncs_keep_files (host : Host) (api : Garmin) (w : World)
    (p : string) (v : json) :
  fs w !! p = Some v →
  (∀ start end_, fs (sync_daily_data host api start end_ w).2 !! p = Some v)
  ∧ (∀ start_date end_date,
       fs (sync_activities_incremental host api start_date end_date w).2 !! p = Some v)
  ∧ (∀ fuel, fs (sync_activities_full host fuel api w).2 !! p = Some v).
Proof.
  intros Hp.
  pose proof files_kept_idle as Hidle.
  pose proof (λ w path data (_ : True) H (_ : is_None data = false),
                files_kept_new w path data H) as Hnew.
  split_and!.
  - intros start end_.
    by apply (steps_sync_daily_data files_kept (λ _, True) Hidle Hnew).
  - intros s e.
    by apply (steps_sync_activities_incremental files_kept (λ _, True) Hidle Hnew).
  - intros fuel.
    by apply (steps_sync_activities_full files_kept (λ _, True) Hidle Hnew).
Qed.

(** X18: a whole run of the script, however it ends, leaves every file
    other than the seven refreshed documents and the sync state with the
    content it had. *)
Theorem run_keeps_other_files (host : Host) (fuel : nat) (w : World)
    (p : string) (v : json) :
  p ∉ rewritten_paths host →
  fs w !! p = Some v →
  fs (script host fuel w).2 !! p = Some v.
Proof.
  intros Hp Hv.
  apply (steps_script (files_kept_except (rewritten_paths host)) (λ _, True)
           (rewritten_paths host)
           (files_kept_except_idle _)
           (λ w path data _ H _, files_kept_except_new _ w path data H)
           (λ w path data H _, files_kept_except_rewrite _ w path data H)
           host (refreshed_paths_rewritten host) (λ _, I) (state_file_rewritten host)
           fuel w p v Hp Hv).
Qed.

(** X19: no file the script writes holds Python's [None]: in every run,
    however it ends, each write stores a value other than [None]. *)
Theorem run_never_stores_absent (host : Host) (fuel : nat) (w : World) :
  Forall writes_data (events_since w (script host fuel w).2).
Proof.
  destruct (steps_script (emits writes_data) (λ _, True) (rewritten_paths host)
              emits_writes_data_idle
              (λ w path data _ _ H, emits_writes_data_save w path data H)
              (λ w path data _ H, emits_writes_data_save w path data H)
              host (refreshed_paths_rewritten host) (λ _, I) (state_file_rewritten host)
              fuel w) as (evs & Htrace & Hevs).
  by rewrite (events_since_app _ _ _ Htrace).
Qed.

(** ** Session acquisition only logs in *)

#[global] Instance logging_in_preorder ts : PreOrder (logging_in ts).
Proof.
  split.
  - intros w. split_and!; [done|done|reflexivity].
  - intros w0 w1 w2 (Hfs1 & Hin1 & Hev1) (Hfs2 & Hin2 & Hev2).
    split_and!; [congruence|by etrans|by etrans].
Qed.

Lemma logging_in_log ts w e : login_event ts e → logging_in ts w (log e w).
Proof.
  intros He. split_and!; [done|done|]. exists [e]. split; [done|by constructor].
Qed.

Lemma steps_logging_in_print ts line : steps (logging_in ts) (print line).
Proof. intros w. by apply logging_in_log. Qed.

Lemma steps_logging_in_input ts prompt : steps (logging_in ts) (input prompt).
Proof.
  intros w. unfold input.
  destruct (stdin w) as [|[line|] rest] eqn:Hin; simpl.
  - by apply logging_in_log.
  - split_and!; [done|rewrite Hin; by apply suffix_cons_r|].
    exists [EPrompt prompt]. split; [done|by constructor].
  - split_and!; [done|rewrite Hin; by apply suffix_cons_r|].
    exists [EPrompt prompt]. split; [done|by constructor].
Qed.

Lemma steps_logging_in_auth_call ts r answer :
  login_event ts (EAuth r) → steps (logging_in ts) (auth_call r answer).
Proof.
  intros Hr w. rewrite auth_call_run. simpl. by apply logging_in_log.
Qed.

Lemma steps_logging_in_getenv_or ts host name ask :
  steps (logging_in ts) ask → steps (logging_in ts) (getenv_or host name ask).
Proof.
  intros Hask. unfold getenv_or. destruct (getenv host name) as [v|]; [|done].
  destruct (negb (String.eqb v "")); [apply steps_mret, _|done].
Qed.

Lemma steps_logging_in_resume_except ts e : steps (logging_in ts) (resume_except e).
Proof.
  unfold resume_except.
  repeat match goal with
         | |- steps _ (if ?b then _ else _) => destruct b
         | |- steps _ (_ ≫= _) =>
             apply steps_bind; [apply _|apply steps_logging_in_print|intros _]
         end;
    by apply steps_pure; [apply _|].
Qed.

Lemma steps_logging_in_login_except ts e : steps (logging_in ts) (login_except e).
Proof.
  unfold login_except.
  repeat match goal with
         | |- steps _ (if ?b then _ else _) => destruct b
         | |- steps _ (_ ≫= _) =>
             apply steps_bind; [apply _|apply steps_logging_in_print|intros _]
         end;
    by apply steps_pure; [apply _|].
Qed.

Lemma steps_logging_in_login_attempt host ts :
  steps (logging_in ts) (login_attempt host ts).
Proof.
  unfold login_attempt.
  apply steps_bind; [apply _| |intros email].
  { apply steps_logging_in_getenv_or, steps_logging_in_input. }
  apply steps_bind; [apply _| |intros password].
  { apply steps_logging_in_getenv_or, steps_logging_in_input. }
  apply steps_bind; [apply _| |intros answer].
  { intros w. by apply logging_in_log. }
  destruct answer as [result1 result2|e]; [|by apply steps_pure; [apply _|]].
  apply steps_bind; [apply _| |intros proceed].
  - destruct (str_eq result1 "needs_mfa"); [|apply steps_mret, _].
    apply steps_bind; [apply _|apply steps_logging_in_input|intros mfa_code].
    apply steps_try; [apply _| |apply steps_logging_in_resume_except].
    apply steps_bind; [apply _| |intros _; apply steps_mret, _].
    by apply steps_logging_in_auth_call.
  - destruct proceed; [|apply steps_mret, _].
    apply steps_bind; [apply _| |intros _].
    { by apply steps_logging_in_auth_call. }
    apply steps_bind; [apply _|apply steps_logging_in_print|intros _].
    apply steps_mret, _.
Qed.

Lemma steps_logging_in_prompt_loop host fuel ts :
  steps (logging_in ts) (prompt_loop host fuel ts).
Proof.
  induction fuel as [|fuel IH]; simpl.
  - by apply steps_pure; [apply _|].
  - apply steps_bind; [apply _| |intros [r|]; [apply steps_mret, _|apply IH]].
    apply steps_try; [apply _|apply steps_logging_in_login_attempt|].
    apply steps_logging_in_login_except.
Qed.

Lemma steps_logging_in_init_api host fuel :
  steps (logging_in (tokenstore_path host)) (init_api host fuel).
Proof.
  unfold init_api. fold (tokenstore_path host).
  apply steps_bind; [apply _| |intros stored].
  - apply steps_try; [apply _| |].
    + apply steps_bind; [apply _| |intros _].
      { by apply steps_logging_in_auth_call. }
      apply steps_bind; [apply _|apply steps_logging_in_print|intros _].
      apply steps_mret, _.
    + intros e. destruct (_ || _); by apply steps_pure; [apply _|].
  - destruct stored; [apply steps_mret, _|apply steps_logging_in_prompt_loop].
Qed.

(** X1: session acquisition does nothing but log in.  Whatever happens and
    however [init_api] ends, it leaves the file tree as it was, it only
    consumes keyboard input, and every event it adds is a print, a prompt or
    a request to the login service; tokens are read from and stored at one
    place only, the token store named by GARMINTOKENS (by default
    ~/.garminconnect).  So it makes no data request, writes no data file
    and never sleeps. *)
Theorem init_api_only_logs_in (host : Host) (fuel : nat) (w : World) :
  let w' := (init_api host fuel w).2 in
  fs w' = fs w
  ∧ stdin w' `suffix_of` stdin w
  ∧ Forall (login_event (tokenstore_path host)) (events_since w w').
Proof.
  destruct (steps_logging_in_init_api host fuel w) as (Hfs & Hin & evs & Htrace & Hevs).
  split_and!; [done|done|]. by rewrite (events_since_app _ _ _ Htrace).
Qed.

(** ** The outcomes of a login *)

Lemma getenv_or_set host name ask v w :
  getenv host name = Some v → v ≠ "" → getenv_or host name ask w = (Ret v, w).
Proof.
  intros Hv Hne. unfold getenv_or. rewrite Hv.
  destruct (String.eqb_spec v ""); [done|reflexivity].
Qed.

Lemma login_attempt_fails host ts w email w1 password w2 e :
  getenv_or host "EMAIL" (input "Login email: ") w = (Ret email, w1) →
  getenv_or host "PASSWORD" (input "Enter password: ") w1 = (Ret password, w2) →
  login_credentials host (trace w2) email password = LoginFails e →
  login_attempt host ts w = (Raise e, log (EAuth (LoginCredentials email password)) w2).
Proof.
  intros Hemail Hpassword Hlogin. unfold login_attempt.
  rewrite (bind_ret _ _ _ _ _ Hemail), (bind_ret _ _ _ _ _ Hpassword).
  rewrite bind_unfold. unfold credentials_login. rewrite Hlogin. reflexivity.
Qed.

(** X3: the except clauses of the prompting loop, for a login with
    credentials that raises [e].  GarminConnectAuthenticationError prints
    "Invalid credentials. Try again." and starts the next round;
    FileNotFoundError, GarthHTTPError, GarminConnectConnectionError and the
    HTTPError of requests print "Connection error during login." and make
    the loop return None; KeyboardInterrupt makes it return None without a
    word; anything else propagates. *)
Theorem login_failure_handling (host : Host) (fuel : nat) (ts : string)
    (w : World) (email : string) (w1 : World) (password : string) (w2 : World) (e : exn) :
  getenv_or host "EMAIL" (input "Login email: ") w = (Ret email, w1) →
  getenv_or host "PASSWORD" (input "Enter password: ") w1 = (Ret password, w2) →
  login_credentials host (trace w2) email password = LoginFails e →
  let w3 := log (EAuth (LoginCredentials email password)) w2 in
  (isinstance e GarminConnectAuthenticationError = true →
     prompt_loop host (S fuel) ts w
     = prompt_loop host fuel ts (log (EPrint "Invalid credentials. Try again.") w3))
  ∧ (isinstance e GarminConnectAuthenticationError = false →
       connection_failure e = true →
       prompt_loop host (S fuel) ts w
       = (Ret None, log (EPrint "Connection error during login.") w3))
  ∧ (e = KeyboardInterrupt → prompt_loop host (S fuel) ts w = (Ret None, w3))
  ∧ (isinstance e GarminConnectAuthenticationError = false →
       connection_failure e = false → e ≠ KeyboardInterrupt →
       prompt_loop host (S fuel) ts w = (Raise e, w3)).
Proof.
  intros Hemail Hpassword Hlogin w3.
  pose proof (login_attempt_fails host ts _ _ _ _ _ _ Hemail Hpassword Hlogin) as Hattempt.
  fold w3 in Hattempt.
  rewrite prompt_loop_unfold, (try_raise _ _ _ _ _ Hattempt). unfold login_except.
  fold (connection_failure e). split_and!.
  - intros ->. by run_head.
  - intros -> ->. by run_head.
  - intros ->. reflexivity.
  - intros -> -> Hne. by rewrite bool_decide_eq_false_2.
Qed.

Lemma rejected_round_step host fuel ts w email password e :
  getenv host "EMAIL" = Some email → email ≠ "" →
  getenv host "PASSWORD" = Some password → password ≠ "" →
  login_credentials host (trace w) email password = LoginFails e →
  isinstance e GarminConnectAuthenticationError = true →
  prompt_loop host (S fuel) ts w
  = prompt_loop host fuel ts
      (log (EPrint "Invalid credentials. Try again.")
         (log (EAuth (LoginCredentials email password)) w)).
Proof.
  intros Hemail Hne1 Hpassword Hne2 Hlogin Hauth.
  rewrite prompt_loop_unfold.
  rewrite (try_raise _ _ _ _ _
             (login_attempt_fails host ts w email w password w e
                (getenv_or_set _ _ _ _ _ Hemail Hne1)
                (getenv_or_set _ _ _ _ _ Hpassword Hne2) Hlogin)).
  unfold login_except. rewrite Hauth. by run_head.
Qed.

(** X4: credentials taken from the environment are never asked again.
    When EMAIL and PASSWORD are set and the service rejects them every
    time, each round of the loop is the same login request followed by
    "Invalid credentials. Try again.", nothing is read from the keyboard,
    and no number of rounds ends the loop. *)
Theorem rejected_environment_credentials_never_end (host : Host) (email password : string)
    (ts : string) (fuel : nat) (w : World) :
  getenv host "EMAIL" = Some email → email ≠ "" →
  getenv host "PASSWORD" = Some password → password ≠ "" →
  (∀ h, ∃ e, login_credentials host h email password = LoginFails e
             ∧ isinstance e GarminConnectAuthenticationError = true) →
  let out := prompt_loop host fuel ts w in
  out.1 = OutOfFuel
  ∧ fs out.2 = fs w ∧ stdin out.2 = stdin w
  ∧ events_since w out.2 = mjoin (replicate fuel (rejected_round email password)).
Proof.
  intros Hemail Hne1 Hpassword Hne2 Hrejected. simpl.
  cut (∀ w, (prompt_loop host fuel ts w).1 = OutOfFuel
            ∧ fs (prompt_loop host fuel ts w).2 = fs w
            ∧ stdin (prompt_loop host fuel ts w).2 = stdin w
            ∧ trace (prompt_loop host fuel ts w).2
              = trace w ++ mjoin (replicate fuel (rejected_round email password))).
  { intros H. destruct (H w) as (? & ? & ? & Htrace).
    split_and!; try done. by rewrite (events_since_app _ _ _ Htrace). }
  clear w. induction fuel as [|fuel IH]; intros w.
  - simpl. by rewrite app_nil_r.
  - destruct (Hrejected (trace w)) as (e & Hlogin & Hauth).
    rewrite (rejected_round_step host fuel ts w email password e) by done.
    destruct (IH (log (EPrint "Invalid credentials. Try again.")
                    (log (EAuth (LoginCredentials email password)) w)))
      as (Hout & Hfs & Hin & Htrace).
    split_and!; try done.
    rewrite Htrace. simpl. by rewrite <- !app_assoc.
Qed.

(** X2: the first step of [init_api].  When the login with the stored
    tokens succeeds, the client is returned after that single request and
    the line "Authenticated with stored tokens.", with no prompt.  When it
    fails with FileNotFoundError, GarthHTTPError,
    GarminConnectAuthenticationError or GarminConnectConnectionError,
    [init_api] goes on to the prompting loop.  Any other exception is not
    caught: it leaves [init_api] and [main], and when it is an Exception
    the process ends with exit status 1. *)
Theorem stored_token_login (host : Host) (fuel : nat) (w : World) :
  let ts := tokenstore_path host in
  let w1 := log (EAuth (LoginTokens ts)) w in
  (login_tokens host (trace w) ts = None →
     init_api host fuel w
     = (Ret (Some (garmin host)), log (EPrint "Authenticated with stored tokens.") w1))
  ∧ (∀ e, login_tokens host (trace w) ts = Some e → token_fallback e = true →
       init_api host fuel w = prompt_loop host fuel ts w1)
  ∧ (∀ e, login_tokens host (trace w) ts = Some e → token_fallback e = false →
       init_api host fuel w = (Raise e, w1)
       ∧ main host fuel w = (Raise e, w1)
       ∧ (is_Exception e = true →
            script host fuel w = (Raise e, w1)
            ∧ exit_code (script host fuel w).1 = Some 1)).
Proof.
  intros ts w1. unfold init_api. fold (tokenstore_path host). fold ts.
  split_and!.
  - intros Hlogin. rewrite bind_unfold. unfold try.
    rewrite bind_unfold, auth_call_run, Hlogin. reflexivity.
  - intros e Hlogin Hfall. rewrite bind_unfold. unfold try.
    rewrite bind_unfold, auth_call_run, Hlogin. fold (token_fallback e).
    by rewrite Hfall.
  - intros e Hlogin Hfall.
    assert (init_api host fuel w = (Raise e, w1)) as Hinit.
    { unfold init_api. fold (tokenstore_path host). fold ts.
      rewrite bind_unfold. unfold try.
      rewrite bind_unfold, auth_call_run, Hlogin. fold (token_fallback e).
      by rewrite Hfall. }
    assert (main host fuel w = (Raise e, w1)) as Hmain.
    { unfold main. by rewrite (bind_raise _ _ _ _ _ Hinit). }
    split_and!; [exact Hinit|exact Hmain|].
    intros Hexc. rewrite script_unfold, Hmain.
    destruct e; try discriminate. done.
Qed.

(** ** A client is returned only after a login that succeeded *)

Lemma auth_call_returns r answer w w' :
  auth_call r answer w = (Ret tt, w') → answer (trace w) = None.
Proof. rewrite auth_call_run. by destruct (answer (trace w)). Qed.

Lemma resume_except_proceeds e w w' : resume_except e w ≠ (Ret true, w').
Proof.
  unfold resume_except.
  repeat match goal with
         | |- context [if ?b then _ else _] => destruct b
         end; try done;
    by rewrite (bind_ret _ _ _ _ _ (print_run _ _)).
Qed.

Lemma login_except_client e w api w' :
  login_except e w ≠ (Ret (Some (Some api)), w').
Proof.
  unfold login_except.
  repeat match goal with
         | |- context [if ?b then _ else _] => destruct b
         end; try done;
    by rewrite (bind_ret _ _ _ _ _ (print_run _ _)).
Qed.

Lemma login_attempt_accepted host ts w api w' :
  login_attempt host ts w = (Ret (Some (Some api)), w') →
  api = garmin host ∧ accepted_login host ts.
Proof.
  unfold login_attempt. intros H.
  apply bind_ret_inv in H as (email & w1 & _ & H).
  apply bind_ret_inv in H as (password & w2 & _ & H).
  apply bind_ret_inv in H as (answer & w3 & Hlogin & H).
  injection Hlogin as <- _.
  destruct (login_credentials host (trace w2) email password)
    as [result1 result2|e] eqn:Hanswer; [|discriminate].
  apply bind_ret_inv in H as (proceed & w4 & Hmfa & H).
  destruct proceed; [|discriminate].
  apply bind_ret_inv in H as ([] & w5 & Hdump & H).
  apply bind_ret_inv in H as ([] & w6 & _ & H).
  injection H as <- _. split; [done|].
  exists (trace w2), email, password, result1, result2. split_and!; [done| |].
  - intros Hneeds. rewrite Hneeds in Hmfa.
    apply bind_ret_inv in Hmfa as (mfa_code & wa & _ & Hmfa). unfold try in Hmfa.
    destruct ((auth_call (ResumeLogin result2 mfa_code)
                 (λ h, resume_login host h result2 mfa_code);; mret true) wa)
      as [[b|e|] wb] eqn:Hresume.
    + apply bind_ret_inv in Hresume as ([] & wc & Hresume & _).
      apply auth_call_returns in Hresume. by eexists _, _.
    + by destruct (resume_except_proceeds _ _ _ Hmfa).
    + discriminate.
  - apply auth_call_returns in Hdump. by eexists.
Qed.

Lemma prompt_loop_accepted host fuel ts w api w' :
  prompt_loop host fuel ts w = (Ret (Some api), w') →
  api = garmin host ∧ accepted_login host ts.
Proof.
  revert w. induction fuel as [|fuel IH]; intros w; [done|].
  rewrite prompt_loop_unfold. unfold try.
  destruct (login_attempt host ts w) as [[step|e|] w1] eqn:Hbody.
  - destruct step as [r|]; [|apply IH].
    intros [= -> _]. by apply (login_attempt_accepted _ _ _ _ _ Hbody).
  - destruct (login_except e w1) as [[[r|]|e'|] w2] eqn:Hexcept; try done; [|apply IH].
    intros [= -> _]. by destruct (login_except_client _ _ _ _ Hexcept).
  - done.
Qed.

(** The client object [init_api] returns is the one of the host. *)
Lemma init_api_client host fuel w api w' :
  init_api host fuel w = (Ret (Some api), w') → api = garmin host.
Proof.
  unfold init_api. intros H.
  apply bind_ret_inv in H as (stored & w1 & _ & H).
  destruct stored; [by injection H as <- _|]. by apply prompt_loop_accepted in H as [-> _].
Qed.

(** X21: a client is returned only after a login that succeeded.  When
    [init_api] returns a client, it is the client object of the host, and
    either the login with the stored tokens succeeded, or the service
    accepted the credentials, accepted the MFA code when it asked for one,
    and the tokens were stored in the token store. *)
Theorem returned_client_is_logged_in (host : Host) (fuel : nat) (w : World) (api : Garmin)
    (w' : World) :
  init_api host fuel w = (Ret (Some api), w') →
  api = garmin host
  ∧ (login_tokens host (trace w) (tokenstore_path host) = None
     ∨ accepted_login host (tokenstore_path host)).
Proof.
  unfold init_api. fold (tokenstore_path host). intros H.
  apply bind_ret_inv in H as (stored & w1 & Hstored & H).
  destruct stored.
  - injection H as <- _. split; [done|]. left.
    unfold try in Hstored. rewrite bind_unfold, auth_call_run in Hstored.
    destruct (login_tokens host (trace w) (tokenstore_path host)) as [e|]; [|done].
    simpl in Hstored. by destruct (_ || _).
  - apply prompt_loop_accepted in H as [-> Haccepted]. by split; [|right].
Qed.

(** ** The sync state *)

Lemma isoformat_not_empty d : MIN_ORDINAL ≤ d ≤ MAX_ORDINAL → isoformat d ≠ "".
Proof.
  intros Hd Hempty. pose proof (strptime_isoformat d Hd) as H.
  rewrite Hempty in H. discriminate H.
Qed.

(** X6: the state store round trip.  For every date Python can represent
    (years 1 to 9999), [load_sync_state] after [save_sync_state d] returns
    [d], whatever the state file held before. *)
Theorem saved_sync_date_is_loaded (host : Host) (d : date) (w : World) :
  MIN_ORDINAL ≤ d ≤ MAX_ORDINAL →
  load_sync_state host (save_sync_state host d w).2
  = (Ret (Some d), (save_sync_state host d w).2).
Proof.
  intros Hd. eapply load_sync_state_date.
  - unfold save_sync_state. rewrite save_json_run. simpl. apply lookup_insert_eq.
  - reflexivity.
  - by apply isoformat_not_empty.
  - by apply strptime_isoformat.
Qed.

Lemma load_sync_state_unfold host w :
  load_sync_state host w
  = match fs w !! SYNC_STATE_FILE host with
    | None => (Ret None, w)
    | Some (JObj fields) =>
        match default JNull (assoc "last_sync_date" fields) with
        | JStr s =>
            if negb (String.eqb s "") then
              match strptime s with
              | Some d => (Ret (Some d), w)
              | None => (Raise (Exc ValueError "time data does not match format '%Y-%m-%d'"), w)
              end
            else (Ret None, w)
        | last =>
            if truthy last then (Raise (Exc TypeError "strptime() argument 1 must be str"), w)
            else (Ret None, w)
        end
    | Some _ => (Raise (Exc AttributeError "object has no attribute 'get'"), w)
    end.
Proof.
  unfold load_sync_state. destruct (fs w !! SYNC_STATE_FILE host) as [state|] eqn:Hstate.
  - rewrite (bind_ret _ _ _ _ _ (path_exists_present _ _ (mk_is_Some _ _ Hstate))).
    rewrite (bind_ret _ _ _ _ _ (load_json_run _ _ _ Hstate)).
    destruct state as [| | | | |fields]; try reflexivity.
    simpl py_get. rewrite (bind_ret _ _ _ _ _ (mret_run _ _)).
    destruct (default JNull (assoc "last_sync_date" fields)) as [|[]|n|s|[]|[]];
      try reflexivity.
    + simpl. by destruct (n =? 0).
    + simpl. destruct (String.eqb s ""); simpl; [done|]. by destruct (strptime s).
  - by rewrite (bind_ret _ _ _ _ _ (path_exists_absent _ _ Hstate)).
Qed.

Lemma main_state_error host fuel w api w1 e :
  init_api host fuel w = (Ret (Some api), w1) →
  load_sync_state host w1 = (Raise e, w1) →
  main host fuel w = (Raise e, w1).
Proof.
  intros Hinit Hload. rewrite (main_authenticated _ _ _ _ _ Hinit), sync_all_unfold.
  by rewrite Hload.
Qed.

(** X7: a state file that cannot be read as a date ends the run right
    after the login, before anything is fetched or written (the world is
    the one [init_api] left): [ValueError] when last_sync_date is a
    non-empty string that is no YYYY-MM-DD date, [TypeError] when it is a
    truthy value that is no string, [AttributeError] when the document is
    no JSON object.  The exit status is 1. *)
Theorem unreadable_sync_state_aborts (host : Host) (fuel : nat) (w : World) (api : Garmin)
    (w1 : World) :
  init_api host fuel w = (Ret (Some api), w1) →
  let crashes c :=
    ∃ msg, script host fuel w = (Raise (Exc c msg), w1)
           ∧ exit_code (script host fuel w).1 = Some 1 in
  (∀ fields s,
     fs w !! SYNC_STATE_FILE host = Some (JObj fields) →
     assoc "last_sync_date" fields = Some (JStr s) → s ≠ "" → strptime s = None →
     crashes ValueError)
  ∧ (∀ fields last,
       fs w !! SYNC_STATE_FILE host = Some (JObj fields) →
       assoc "last_sync_date" fields = Some last → truthy last = true →
       (∀ s, last ≠ JStr s) →
       crashes TypeError)
  ∧ (∀ state,
       fs w !! SYNC_STATE_FILE host = Some state → (∀ fields, state ≠ JObj fields) →
       crashes AttributeError).
Proof.
  intros Hinit crashes.
  assert (fs w1 = fs w) as Hfs.
  { pose proof (init_api_idle host fuel w) as [H _]. by rewrite Hinit in H. }
  assert (∀ c msg, load_sync_state host w1 = (Raise (Exc c msg), w1) → crashes c)
    as Hcrash.
  { intros c msg Hload. exists msg.
    by rewrite script_unfold, (main_state_error _ _ _ _ _ _ Hinit Hload). }
  split_and!.
  - intros fields s Hstate Hlast Hne Hparse. eapply Hcrash.
    rewrite load_sync_state_unfold, Hfs, Hstate, Hlast. simpl.
    destruct (String.eqb_spec s ""); [done|]. simpl. by rewrite Hparse.
  - intros fields last Hstate Hlast Htruthy Hstr. eapply Hcrash.
    rewrite load_sync_state_unfold, Hfs, Hstate, Hlast.
    destruct last as [|b|n|s|items|fields']; simpl in Htruthy |- *.
    + discriminate.
    + by rewrite Htruthy.
    + by rewrite Htruthy.
    + by destruct (Hstr s).
    + by destruct items.
    + by destruct fields'.
  - intros state Hstate Hobj. eapply Hcrash.
    rewrite load_sync_state_unfold, Hfs, Hstate.
    destruct state as [| | | | |fields]; try reflexivity. by destruct (Hobj fields).
Qed.

(** ** The attempts of [api_call] *)

Lemma api_call_attempts_bounds api m args n a w :
  ∃ k evs,
    trace (api_call_attempts (invoke api m args) (Z.of_nat <$> seq a n) w).2 = trace w ++ evs
    ∧ (k ≤ n)%nat
    ∧ sleeps evs = retry_wait <$> seq a k
    ∧ calls_of m evs = replicate (min (k + 1) n) args.
Proof.
  revert a w. induction n as [|n IH]; intros a w.
  - exists 0%nat, [EPrint "  Giving up after max retries."].
    rewrite api_call_attempts_nil. by split_and!.
  - rewrite <- cons_seq, fmap_cons.
    pose proof (invoke_unfold api m args w) as Hop.
    destruct (respond api (trace w) m args) as [v|e] eqn:Hrespond.
    + exists 0%nat, [ECall m args]. rewrite (attempt_success _ _ _ _ _ _ Hop).
      rewrite calls_of_call. split_and!; [done|lia|done|done].
    + destruct (rate_limited e) eqn:Hrate.
      * rewrite (attempt_rate_limited _ _ _ _ _ _ Hop Hrate).
        destruct (IH (S a) (backoff (Z.of_nat a + 1) (log (ECall m args) w)))
          as (k & evs & Htrace & Hk & Hsleeps & Hcalls).
        exists (S k),
          ([ECall m args;
            EPrint ("  Rate limited, waiting " +:+ pretty (RETRY_BACKOFF * (Z.of_nat a + 1))
                    +:+ "s...");
            ESleep (RETRY_BACKOFF * (Z.of_nat a + 1))] ++ evs).
        split_and!.
        -- rewrite Htrace. simpl. by rewrite <- !app_assoc.
        -- lia.
        -- simpl. by rewrite Hsleeps.
        -- rewrite calls_of_app, Hcalls, calls_of_call. reflexivity.
      * destruct (is_Exception e) eqn:Hexc.
        -- rewrite (attempt_soft_failure _ _ _ _ _ _ Hop Hexc Hrate).
           unfold soft_failure. destruct (_ || _).
           ++ exists 0%nat, [ECall m args]. rewrite calls_of_call.
              split_and!; [done|lia|done|done].
           ++ exists 0%nat, [ECall m args; EPrint ("  Warning: " +:+ exn_str e)].
              rewrite calls_of_call. split_and!; [|lia|done|done].
              simpl. by rewrite <- app_assoc.
        -- rewrite (attempt_propagates _ _ _ _ _ _ Hop Hexc).
           exists 0%nat, [ECall m args]. rewrite calls_of_call.
           split_and!; [done|lia|done|done].
Qed.

(** X5: the cost of one [api_call], whatever the service does.  The method
    is called between one and three times, always with the same arguments,
    and the waits are an initial part of 5, 10, 15 seconds (at most 30
    seconds in all): [k] waits go with [min (k + 1) 3] calls. *)
Theorem api_call_bounded (api : Garmin) (m : api_method) (args : list arg) (w : World) :
  let evs := events_since w (api_call (invoke api m) args w).2 in
  ∃ k : nat,
    (k ≤ 3)%nat
    ∧ sleeps evs = take k [5; 10; 15]
    ∧ calls_of m evs = replicate (min (k + 1) 3) args.
Proof.
  destruct (api_call_attempts_bounds api m args 3 0 w)
    as (k & evs & Htrace & Hk & Hsleeps & Hcalls).
  change (api_call (invoke api m) args w)
    with (api_call_attempts (invoke api m args) (Z.of_nat <$> seq 0 3) w).
  cbv zeta. rewrite (events_since_app _ _ _ Htrace).
  exists k. split_and!; [done| |done]. rewrite Hsleeps.
  destruct k as [|[|[|[|k]]]]; try reflexivity. lia.
Qed.

(** ** Remote failures are not fatal *)

Lemma returns_bind {A B} (m : M A) (f : A → M B) :
  returns m → (∀ a, returns (f a)) → returns (m ≫= f).
Proof.
  intros Hm Hf w. destruct (Hm w) as (a & w1 & Ha).
  rewrite (bind_ret _ _ _ _ _ Ha). apply Hf.
Qed.

Lemma returns_mret {A} (a : A) : returns (mret a).
Proof. intros w. by eexists _, _. Qed.

Lemma returns_print line : returns (print line).
Proof. intros w. by eexists _, _. Qed.

Lemma returns_sleep s : returns (sleep s).
Proof. intros w. by eexists _, _. Qed.

Lemma returns_save_json path data : returns (save_json path data).
Proof. intros w. by eexists _, _. Qed.

Lemma returns_path_exists path : returns (path_exists path).
Proof. intros w. by eexists _, _. Qed.

Lemma returns_date_today host : returns (date_today host).
Proof. intros w. by eexists _, _. Qed.

Lemma returns_for_each {A} (xs : list A) (body : A → M unit) :
  (∀ x, x ∈ xs → returns (body x)) → returns (for_each xs body).
Proof.
  induction xs as [|x xs IH]; intros Hbody; simpl.
  - apply returns_mret.
  - apply returns_bind; [apply Hbody; left|intros _; apply IH].
    intros y Hy. apply Hbody. by right.
Qed.

Lemma returns_unit (m : M unit) : returns m → ∀ w, ∃ w', m w = (Ret tt, w').
Proof. intros H w. destruct (H w) as ([] & w' & Hw). by exists w'. Qed.

Section Uninterrupted.

Variable api : Garmin.

Hypothesis Huninterrupted : uninterrupted api.

Lemma returns_api_call m args : returns (api_call (invoke api m) args).
Proof.
  intros w.
  destruct (api_call_attempts_returns api m args (range MAX_RETRIES) w Huninterrupted)
    as (v & Hv).
  exists v, (api_call (invoke api m) args w).2. by apply pair_of_fst.
Qed.

Lemma returns_cached_fetch path m args :
  returns
    (cached ← path_exists path;
     if cached : bool then mret tt
     else
       data ← api_call (invoke api m) args;
       (if negb (is_None data) then save_json path data else mret tt);;
       sleep API_DELAY).
Proof.
  apply returns_bind; [apply returns_path_exists|intros cached].
  destruct cached; [apply returns_mret|].
  apply returns_bind; [apply returns_api_call|intros data].
  apply returns_bind; [|intros _; apply returns_sleep].
  destruct (negb (is_None data)); [apply returns_save_json|apply returns_mret].
Qed.

Lemma returns_daily_day host days i d : returns (daily_day host api days i d).
Proof.
  unfold daily_day. apply returns_bind; [apply returns_print|intros _].
  apply returns_bind; [|intros _; apply returns_cached_fetch].
  apply returns_for_each. intros call _. apply returns_cached_fetch.
Qed.

Lemma returns_daily_loop host fuel end_ days i current :
  returns (daily_loop host fuel api end_ days i current).
Proof.
  revert i current. induction fuel as [|fuel IH]; intros i current; simpl.
  - apply returns_mret.
  - destruct (current <=? end_); [|apply returns_mret].
    apply returns_bind; [apply returns_daily_day|intros _; apply IH].
Qed.

Lemma returns_refresh path m args : returns (refresh api path m args).
Proof.
  unfold refresh. apply returns_bind; [apply returns_api_call|intros data].
  destruct (negb (is_None data)); [apply returns_save_json|apply returns_mret].
Qed.

Lemma returns_incremental_activity dir fields :
  returns (incremental_activity api dir (JObj fields)).
Proof.
  unfold incremental_activity. simpl py_get.
  apply returns_bind; [apply returns_mret|intros aid].
  destruct (negb (truthy aid)); [apply returns_mret|].
  apply returns_bind; [apply returns_path_exists|intros cached].
  destruct cached; [apply returns_mret|].
  apply returns_bind; [apply returns_api_call|intros detail].
  apply returns_bind; [|intros _].
  { destruct (negb (is_None detail)); apply returns_save_json. }
  apply returns_bind; [apply returns_print|intros _; apply returns_sleep].
Qed.

Lemma returns_sync_daily_data host start end_ :
  returns (sync_daily_data host api start end_).
Proof. unfold sync_daily_data. apply returns_daily_loop. Qed.

Lemma returns_sync_body_composition host start_date end_date :
  returns (sync_body_composition host api start_date end_date).
Proof.
  unfold sync_body_composition.
  apply returns_bind; [apply returns_print|intros _].
  apply returns_bind; [apply returns_refresh|intros _].
  apply returns_bind; [apply returns_sleep|intros _]. apply returns_refresh.
Qed.

Lemma returns_sync_weekly host : returns (sync_weekly host api).
Proof.
  unfold sync_weekly.
  apply returns_bind; [apply returns_print|intros _].
  apply returns_bind; [apply returns_date_today|intros today].
  apply returns_bind; [apply returns_refresh|intros _].
  apply returns_bind; [apply returns_sleep|intros _]. apply returns_refresh.
Qed.

Lemma returns_sync_profile host : returns (sync_profile host api).
Proof.
  unfold sync_profile.
  apply returns_bind; [apply returns_print|intros _].
  apply returns_bind; [apply returns_refresh|intros _].
  apply returns_bind; [apply returns_sleep|intros _]. apply returns_refresh.
Qed.

Lemma returns_sync_personal_records host : returns (sync_personal_records host api).
Proof.
  unfold sync_personal_records.
  apply returns_bind; [apply returns_print|intros _]. apply returns_refresh.
Qed.

(** The incremental activity sync returns when every truthy listing of the
    service is a list of records. *)
Lemma returns_sync_activities_incremental host start_date end_date :
  (∀ h args v, respond api h get_activities_by_date args = Returns v →
     truthy v = true → ∃ items, v = JList items ∧ records items) →
  returns (sync_activities_incremental host api start_date end_date).
Proof.
  intros Hlisting w. unfold sync_activities_incremental. run_head.
  destruct (returns_api_call get_activities_by_date
              [AStr (isoformat start_date); AStr (isoformat end_date)]
              (log (EPrint ("Syncing activities from " +:+ isoformat start_date +:+ " to "
                            +:+ isoformat end_date +:+ "...")) w)) as (v & w1 & Hcall).
  rewrite (bind_ret _ _ _ _ _ Hcall).
  destruct (truthy v) eqn:Htruthy; simpl.
  - destruct (api_call_attempts_value _ _ _ _ _ _ _ Hcall) as [->|[h Hh]];
      [discriminate|].
    destruct (Hlisting h _ v Hh Htruthy) as (items & -> & Hrecords).
    simpl py_iter. rewrite (bind_ret _ _ _ _ _ (mret_run _ _)).
    apply returns_for_each. intros a Ha.
    unfold records in Hrecords. rewrite Forall_forall in Hrecords.
    destruct (Hrecords a Ha) as [fields ->].
    apply returns_incremental_activity.
  - by eexists _, _.
Qed.

End Uninterrupted.

(** X17: failures of the remote service are not fatal to the sync steps.
    With a client that raises only Exceptions (no Ctrl-C, no SystemExit),
    the daily sync and the four refresh steps return from every world, and
    so does the incremental activity sync when every truthy listing of the
    service is a list of records. *)
Theorem remote_failures_are_not_fatal (host : Host) (api : Garmin) :
  uninterrupted api →
  (∀ start end_ w, ∃ w', sync_daily_data host api start end_ w = (Ret tt, w'))
  ∧ (∀ start_date end_date w,
       ∃ w', sync_body_composition host api start_date end_date w = (Ret tt, w'))
  ∧ (∀ w, ∃ w', sync_weekly host api w = (Ret tt, w'))
  ∧ (∀ w, ∃ w', sync_profile host api w = (Ret tt, w'))
  ∧ (∀ w, ∃ w', sync_personal_records host api w = (Ret tt, w'))
  ∧ ((∀ h args v, respond api h get_activities_by_date args = Returns v →
        truthy v = true → ∃ items, v = JList items ∧ records items) →
     ∀ start_date end_date w,
       ∃ w', sync_activities_incremental host api start_date end_date w = (Ret tt, w')).
Proof.
  intros Hun. split_and!.
  - intros start end_. by apply returns_unit, returns_sync_daily_data.
  - intros s e. by apply returns_unit, returns_sync_body_composition.
  - by apply returns_unit, returns_sync_weekly.
  - by apply returns_unit, returns_sync_profile.
  - by apply returns_unit, returns_sync_personal_records.
  - intros Hlisting s e. by apply returns_unit, returns_sync_activities_incremental.
Qed.

(** ** The daily sync covers the whole range *)

Lemma daily_loop_settles_range host api answers fuel end_ days i current w w' :
  stateless api answers →
  daily_loop host fuel api end_ days i current w = (Ret tt, w') →
  (Z.to_nat (end_ + 1 - current) ≤ fuel)%nat →
  grows w w'
  ∧ ∀ d, current ≤ d ≤ end_ → day_settled host answers (isoformat d) w'.
Proof.
  intros Hst. revert i current w. induction fuel as [|fuel IH]; intros i current w.
  - simpl. intros [= <-] Hfuel. split; [apply grows_refl|]. intros d Hd. lia.
  - simpl. destruct (Z.leb_spec current end_) as [Hle|Hgt].
    + intros Hrun Hfuel.
      destruct (bind_ret_inv _ _ _ _ _ Hrun) as ([] & w1 & Hday & Hrest).
      destruct (daily_day_settles host api answers Hst _ _ _ _ _ Hday) as [Hg1 Hs1].
      destruct (IH _ _ _ Hrest) as [Hg2 Hs2]; [lia|].
      split; [by eapply grows_trans|].
      intros d Hd. destruct (decide (d = current)) as [->|Hne].
      * eapply day_settled_mono; [exact Hs1|apply Hg2].
      * apply Hs2. lia.
    + intros [= <-] _. split; [apply grows_refl|]. intros d Hd. lia.
Qed.

(** X9: against a service that returns the same data whenever it is asked
    and never interrupts, [sync_daily_data] returns and leaves every day of
    the range settled: each of the thirteen metrics of each day has its
    cache file, or the service has nothing for it. *)
Theorem daily_sync_settles_range (host : Host) (api : Garmin)
    (answers : api_method → list arg → outcome) (start end_ : date) (w : World) :
  stateless api answers →
  never_interrupts answers →
  ∃ w', sync_daily_data host api start end_ w = (Ret tt, w')
        ∧ ∀ d, start ≤ d ≤ end_ → day_settled host answers (isoformat d) w'.
Proof.
  intros Hst Hq.
  destruct (returns_unit _ (returns_daily_loop api (stateless_uninterrupted _ _ Hst Hq)
                              host (Z.to_nat (end_ + 1 - start)) end_ (end_ - start + 1) 0
                              start) w) as [w' Hrun].
  exists w'. split; [exact Hrun|].
  by apply (daily_loop_settles_range host api answers _ _ _ _ _ _ _ Hst Hrun).
Qed.

(** ** Cache files of the daily sync *)

Lemma digits_value_lacks_slash acc s v : digits_value acc s = Some v → lacks "/" s = true.
Proof.
  revert acc. induction s as [|c s IH]; intros acc; [done|]. simpl.
  destruct (digit_value c) as [x|] eqn:Hc; [|done]. intros Hs.
  rewrite (IH _ Hs), andb_true_r.
  destruct (Ascii.eqb_spec c "/") as [->|]; [|done]. discriminate Hc.
Qed.

Lemma number_field_lacks_slash lo hi s v :
  number_field lo hi s = Some v → lacks "/" s = true.
Proof.
  unfold number_field. destruct (_ && _); [|done]. apply digits_value_lacks_slash.
Qed.

Lemma isoformat_lacks_slash d :
  MIN_ORDINAL ≤ d ≤ MAX_ORDINAL → lacks "/" (isoformat d) = true.
Proof.
  intros Hd.
  destruct (ord2ymd_valid d Hd) as (y & m & dd & Hymd & Hy & Hm & Hdd & Hdd31 & Hord).
  unfold isoformat. rewrite Hymd.
  pose proof (year_field_checked y ltac:(lia)) as Hyf.
  pose proof (month_day_field_checked m ltac:(lia)) as Hmf.
  pose proof (month_day_field_checked dd ltac:(lia)) as Hdf.
  unfold year_field_ok in Hyf. unfold month_day_field_ok in Hmf, Hdf.
  repeat match goal with
         | H : _ && _ = true |- _ => apply andb_true_iff in H as [? ?]
         | H : bool_decide _ = true |- _ => apply bool_decide_eq_true in H
         end.
  rewrite !lacks_app.
  rewrite (number_field_lacks_slash 4 4 (pad0 4 y) y) by done.
  rewrite (number_field_lacks_slash 1 2 (pad0 2 m) m) by done.
  by rewrite (number_field_lacks_slash 1 2 (pad0 2 dd) dd) by done.
Qed.

Lemma isoformat_inj d1 d2 :
  MIN_ORDINAL ≤ d1 ≤ MAX_ORDINAL → MIN_ORDINAL ≤ d2 ≤ MAX_ORDINAL →
  isoformat d1 = isoformat d2 → d1 = d2.
Proof.
  intros H1 H2 Heq. pose proof (strptime_isoformat d1 H1) as Hs.
  rewrite Heq, (strptime_isoformat d2 H2) in Hs. by injection Hs.
Qed.

Lemma daily_guard_file host ds file m args :
  daily_guard host ds file m args → lacks "/" file = true.
Proof.
  intros [[Hin _]|(-> & _)]; [|done]. unfold daily_calls in Hin.
  repeat (apply elem_of_cons in Hin as [[= -> _]|Hin]; [done|]).
  by apply elem_of_nil in Hin.
Qed.

Lemma daily_path_relative host ds file :
  lacks "/" ds = true → lacks "/" file = true →
  daily_path host ds file
  = (BASE_DIR host </> "daily") +:+ "/" +:+ ds +:+ String "/" file.
Proof.
  intros Hds Hfile. unfold daily_path.
  rewrite (path_join_relative _ file Hfile), (path_join_relative _ ds Hds).
  by rewrite !append_assoc.
Qed.

Lemma daily_calls_method_of_file f m1 m2 :
  (f, m1) ∈ daily_calls → (f, m2) ∈ daily_calls → m1 = m2.
Proof.
  unfold daily_calls. intros H1 H2.
  repeat (apply elem_of_cons in H1 as [H1|H1]; [injection H1 as -> -> |]);
    try (by apply elem_of_nil in H1);
    repeat (apply elem_of_cons in H2 as [H2|H2]; [by injection H2 |]);
    by apply elem_of_nil in H2.
Qed.

Lemma body_battery_file_not_daily m : ("body_battery.json", m) ∉ daily_calls.
Proof.
  unfold daily_calls. intros H.
  repeat (apply elem_of_cons in H as [H|H]; [discriminate |]).
  by apply elem_of_nil in H.
Qed.

(** The file name of a daily metric determines the method and, with the
    day, the arguments. *)
Lemma daily_guard_file_inj host ds file m1 args1 m2 args2 :
  daily_guard host ds file m1 args1 → daily_guard host ds file m2 args2 →
  m1 = m2 ∧ args1 = args2.
Proof.
  intros [[H1 ->]|(-> & -> & ->)] [[H2 ->]|(E & -> & ->)].
  - split; [by eapply daily_calls_method_of_file|done].
  - subst file. by destruct (body_battery_file_not_daily _ H1).
  - by destruct (body_battery_file_not_daily _ H2).
  - done.
Qed.

(** X10: the daily sync keeps the days and the metrics apart.  For dates
    Python can represent, the cache files of two different days, or of two
    different metrics of a day, are different files; and the cache file
    determines the method called and its arguments. *)
Theorem daily_cache_files_are_distinct (host : Host) (d1 d2 : date) (file1 file2 : string)
    (m1 m2 : api_method) (args1 args2 : list arg) :
  MIN_ORDINAL ≤ d1 ≤ MAX_ORDINAL → MIN_ORDINAL ≤ d2 ≤ MAX_ORDINAL →
  daily_guard host (isoformat d1) file1 m1 args1 →
  daily_guard host (isoformat d2) file2 m2 args2 →
  (d1 ≠ d2 ∨ file1 ≠ file2 →
   daily_path host (isoformat d1) file1 ≠ daily_path host (isoformat d2) file2)
  ∧ (daily_path host (isoformat d1) file1 = daily_path host (isoformat d2) file2 →
     m1 = m2 ∧ args1 = args2).
Proof.
  intros Hd1 Hd2 Hg1 Hg2.
  assert (daily_path host (isoformat d1) file1 = daily_path host (isoformat d2) file2 →
          d1 = d2 ∧ file1 = file2) as Hsame.
  { intros Hpath.
    rewrite !daily_path_relative in Hpath
      by eauto using isoformat_lacks_slash, daily_guard_file.
    apply append_inv_head, append_inv_head in Hpath.
    apply lacks_split in Hpath as [Hiso ->]; [|by apply isoformat_lacks_slash..].
    by rewrite (isoformat_inj d1 d2 Hd1 Hd2 Hiso). }
  split.
  - intros Hne Hpath. destruct (Hsame Hpath) as [-> ->]. by destruct Hne.
  - intros Hpath. destruct (Hsame Hpath) as [-> ->].
    by apply (daily_guard_file_inj _ _ _ _ _ _ _ Hg1 Hg2).
Qed.

(** ** The days the daily sync visits *)

Lemma progress_lines_progress days i d :
  progress_lines [EPrint (progress_line days i d)] = [progress_line days i d].
Proof.
  unfold progress_lines, progress_line. cbn [omap list_omap].
  by rewrite prefix_append.
Qed.

Lemma progress_lines_app evs1 evs2 :
  progress_lines (evs1 ++ evs2) = progress_lines evs1 ++ progress_lines evs2.
Proof. apply omap_app. Qed.

Lemma yields_bind {A B} (m : M A) (f : A → M B) lines1 lines2 :
  yields m lines1 → (∀ a, yields (f a) lines2) → yields (m ≫= f) (lines1 ++ lines2).
Proof.
  intros Hm Hf w. destruct (Hm w) as (a & w1 & evs1 & Ha & Htr1 & Hl1).
  destruct (Hf a w1) as (b & w2 & evs2 & Hb & Htr2 & Hl2).
  exists b, w2, (evs1 ++ evs2). rewrite (bind_ret _ _ _ _ _ Ha).
  split_and!; [done|by rewrite Htr2, Htr1, app_assoc|].
  by rewrite progress_lines_app, Hl1, Hl2.
Qed.

Lemma yields_quiet {A} (m : M A) :
  (∀ w, ∃ a, m w = (Ret a, w)) → yields m [].
Proof.
  intros H w. destruct (H w) as [a Ha]. exists a, w, []. by rewrite app_nil_r.
Qed.

Lemma yields_mret {A} (a : A) : yields (mret a) [].
Proof. apply yields_quiet. intros w. by eexists. Qed.

Lemma yields_log (m : M unit) e lines :
  (∀ w, m w = (Ret tt, log e w)) → progress_lines [e] = lines → yields m lines.
Proof. intros H Hl w. exists tt, (log e w), [e]. by rewrite H. Qed.

Lemma yields_for_each {A} (xs : list A) (body : A → M unit) :
  (∀ x, yields (body x) []) → yields (for_each xs body) [].
Proof.
  intros Hbody. induction xs as [|x xs IH]; simpl.
  - apply yields_mret.
  - apply (yields_bind _ _ [] []); [apply Hbody|by intros _].
Qed.

Lemma api_call_attempts_yields api m args attempts :
  uninterrupted api → yields (api_call_attempts (invoke api m args) attempts) [].
Proof.
  intros Hun. induction attempts as [|k rest IH]; intros w.
  - exists JNull, (log (EPrint "  Giving up after max retries.") w),
      [EPrint "  Giving up after max retries."].
    by rewrite api_call_attempts_nil.
  - pose proof (invoke_unfold api m args w) as Hop.
    destruct (respond api (trace w) m args) as [v|e] eqn:Hrespond.
    + exists v, (log (ECall m args) w), [ECall m args].
      by rewrite (attempt_success _ _ _ _ _ _ Hop).
    + destruct (rate_limited e) eqn:Hrate.
      * rewrite (attempt_rate_limited _ _ _ _ _ _ Hop Hrate).
        destruct (IH (backoff (k + 1) (log (ECall m args) w)))
          as (v & w' & evs & Hrest & Htrace & Hlines).
        exists v, w',
          ([ECall m args;
            EPrint ("  Rate limited, waiting " +:+ pretty (RETRY_BACKOFF * (k + 1))
                    +:+ "s...");
            ESleep (RETRY_BACKOFF * (k + 1))] ++ evs).
        split_and!; [done| |].
        -- rewrite Htrace. simpl. by rewrite <- !app_assoc.
        -- by rewrite progress_lines_app, Hlines.
      * rewrite (attempt_soft_failure _ _ _ _ _ _ Hop (Hun _ _ _ _ Hrespond) Hrate).
        unfold soft_failure. destruct (_ || _).
        -- by exists JNull, (log (ECall m args) w), [ECall m args].
        -- eexists JNull, _, [ECall m args; EPrint ("  Warning: " +:+ exn_str e)].
           split_and!; [done| |done]. simpl. by rewrite <- app_assoc.
Qed.

Lemma yields_cached_fetch api path m args :
  uninterrupted api →
  yields
    (cached ← path_exists path;
     if cached : bool then mret tt
     else
       data ← api_call (invoke api m) args;
       (if negb (is_None data) then save_json path data else mret tt);;
       sleep API_DELAY) [].
Proof.
  intros Hun. apply (yields_bind _ _ [] []).
  { apply yields_quiet. intros w. by eexists. }
  intros [|]; [apply yields_mret|].
  apply (yields_bind _ _ [] []); [by apply api_call_attempts_yields|intros data].
  apply (yields_bind _ _ [] []); [|intros _; apply (yields_log _ (ESleep API_DELAY)); [intros w|]; reflexivity].
  destruct (negb (is_None data)); [|apply yields_mret].
  intros w. eexists tt, _, [EWrite path data]. by rewrite save_json_run.
Qed.

Lemma yields_daily_day host api days i d :
  uninterrupted api → yields (daily_day host api days i d) [progress_line days i d].
Proof.
  intros Hun. unfold daily_day.
  apply (yields_bind _ _ [progress_line days i d] []); [|intros _].
  { apply (yields_log _ (EPrint (progress_line days i d)));
      [intros w; reflexivity|apply progress_lines_progress]. }
  apply (yields_bind _ _ [] []); [|intros _; by apply yields_cached_fetch].
  apply yields_for_each. intros call. by apply yields_cached_fetch.
Qed.

Lemma yields_daily_loop host api fuel end_ days i current :
  uninterrupted api →
  (Z.to_nat (end_ + 1 - current) ≤ fuel)%nat →
  yields (daily_loop host fuel api end_ days i current)
    (progress_from days (Z.to_nat (end_ + 1 - current)) i current).
Proof.
  intros Hun. revert i current. induction fuel as [|fuel IH]; intros i current Hfuel.
  - replace (Z.to_nat (end_ + 1 - current)) with 0%nat by lia. apply yields_mret.
  - simpl. destruct (Z.leb_spec current end_) as [Hle|Hgt].
    + replace (Z.to_nat (end_ + 1 - current))
        with (S (Z.to_nat (end_ + 1 - (current + 1)))) by lia.
      apply (yields_bind _ _ [_] _); [by apply yields_daily_day|intros _].
      apply IH. lia.
    + replace (Z.to_nat (end_ + 1 - current)) with 0%nat by lia. apply yields_mret.
Qed.

Lemma progress_from_length days count i d :
  length (progress_from days count i d) = count.
Proof. revert i d. induction count as [|count IH]; intros i d; simpl; [done|by rewrite IH]. Qed.

(** X8: [sync_daily_data] visits every date of [start .. end_], both ends
    included, once and in ascending order.  With a client that is not
    interrupted it returns, and its progress lines are exactly those of the
    dates start, start + 1, ..., end_, numbered 1/days to days/days where
    days = end_ - start + 1 (there is none when end_ < start). *)
Theorem daily_sync_visits_range (host : Host) (api : Garmin) (start end_ : date)
    (w : World) :
  uninterrupted api →
  ∃ w', sync_daily_data host api start end_ w = (Ret tt, w')
        ∧ progress_lines (events_since w w')
          = progress_from (end_ - start + 1) (Z.to_nat (end_ - start + 1)) 0 start
        ∧ length (progress_lines (events_since w w')) = Z.to_nat (end_ - start + 1).
Proof.
  intros Hun. unfold sync_daily_data.
  assert (end_ + 1 - start = end_ - start + 1) as Heq by lia. rewrite Heq.
  destruct (yields_daily_loop host api (Z.to_nat (end_ - start + 1)) end_
              (end_ - start + 1) 0 start Hun ltac:(lia) w)
    as ([] & w' & evs & Hrun & Htrace & Hlines).
  rewrite Heq in Hlines.
  exists w'. rewrite (events_since_app _ _ _ Htrace), Hlines.
  split_and!; [done|done|apply progress_from_length].
Qed.

(** ** What the full sync counts *)

Lemma identified_count_cons a items :
  identified_count (a :: items)
  = (if identified a then 1 else 0) + identified_count items.
Proof.
  unfold identified_count. simpl. destruct (identified a); simpl length; lia.
Qed.

Lemma identified_count_app xs ys :
  identified_count (xs ++ ys) = identified_count xs + identified_count ys.
Proof.
  induction xs as [|x xs IH]; [done|].
  rewrite <- app_comm_cons, !identified_count_cons, IH. lia.
Qed.

Lemma full_activity_counts api dir total fields w :
  uninterrupted api →
  ∃ w', full_activity api dir total (JObj fields) w
        = (Ret (total + (if identified (JObj fields) then 1 else 0)), w').
Proof.
  intros Hun. simpl identified. destruct (truthy (activity_id fields)) eqn:Hid.
  - destruct (fs w !! activity_file dir (activity_id fields)) as [old|] eqn:Hfile.
    + exists w. by rewrite full_activity_cached by (by rewrite ?Hfile).
    + rewrite full_activity_fetch by done.
      destruct (returns_api_call api Hun get_activity
                  [AStr (py_str (activity_id fields))] w) as (v & w1 & ->).
      by eexists.
  - exists w. rewrite full_activity_no_id by done. by rewrite Z.add_0_r.
Qed.

Lemma for_fold_full_counts api dir items total w :
  uninterrupted api → records items →
  ∃ w', for_fold items total (full_activity api dir) w
        = (Ret (total + identified_count items), w').
Proof.
  intros Hun Hrec. revert total w.
  induction Hrec as [|a rest [fields ->] _ IH]; intros total w; simpl.
  - exists w. by rewrite Z.add_0_r.
  - destruct (full_activity_counts api dir total fields w Hun) as (w1 & Hbody).
    rewrite (bind_ret _ _ _ _ _ Hbody).
    destruct (IH (total + (if identified (JObj fields) then 1 else 0)) w1) as (w2 & Hrest).
    exists w2. rewrite Hrest, identified_count_cons. do 2 f_equal. lia.
Qed.

Lemma full_pages_counts api dir pages last fuel first total w :
  uninterrupted api →
  Forall (λ items, length items = 100%nat ∧ records items) pages →
  (length last < 100)%nat → records last →
  (∀ (i : nat) items, (pages ++ [last]) !! i = Some items →
     ∀ h, respond api h get_activities [AInt (Z.of_nat (first + i) * 100); AInt 100]
          = Returns (JList items)) →
  (length pages < fuel)%nat →
  ∃ w', full_pages fuel api dir (Z.of_nat first * 100) 100 total w
        = (Ret (total + identified_count (mjoin (pages ++ [last]))), w').
Proof.
  intros Hun Hfull Hshort Hlast. revert fuel first total w.
  induction Hfull as [|items pages [Hlen Hrec] _ IH]; intros fuel first total w Hserve Hfuel.
  - destruct fuel as [|fuel]; [simpl in Hfuel; lia|].
    pose proof (Hserve 0%nat last eq_refl (trace w)) as Hres.
    rewrite Nat.add_0_r in Hres.
    pose proof (api_call_returns_value _ _ _ _ _ Hres) as Hlist.
    simpl mjoin. rewrite app_nil_r.
    destruct (decide (last = [])) as [->|Hne].
    + rewrite (full_pages_stop_empty _ _ _ _ _ _ _ _ _ Hlist eq_refl).
      eexists. by rewrite Z.add_0_r.
    + destruct (for_fold_full_counts api dir last total
                  (log (ECall get_activities [AInt (Z.of_nat first * 100); AInt 100]) w)
                  Hun Hlast) as (w1 & Hbody).
      rewrite (full_pages_stop_short _ _ _ _ _ _ _ _ _ _ _ Hlist Hne Hbody) by lia.
      by eexists.
  - destruct fuel as [|fuel]; [simpl in Hfuel; lia|]. simpl in Hfuel.
    pose proof (Hserve 0%nat items eq_refl (trace w)) as Hres.
    rewrite Nat.add_0_r in Hres.
    pose proof (api_call_returns_value _ _ _ _ _ Hres) as Hlist.
    assert (Hne : items ≠ []) by (intros ->; simpl in Hlen; lia).
    destruct (for_fold_full_counts api dir items total
                (log (ECall get_activities [AInt (Z.of_nat first * 100); AInt 100]) w)
                Hun Hrec) as (w1 & Hbody).
    rewrite (full_pages_next _ _ _ _ _ _ _ _ _ _ _ Hlist Hne Hbody) by lia.
    replace (Z.of_nat first * 100 + 100) with (Z.of_nat (S first) * 100) by lia.
    destruct (IH fuel (S first) (total + identified_count items)
                (log (ESleep API_DELAY) w1)) as (w2 & Hrest).
    { intros i its Hi h. specialize (Hserve (S i) its Hi h).
      by replace (first + S i)%nat with (S first + i)%nat in Hserve by lia. }
    { lia. }
    exists w2. rewrite Hrest. do 2 f_equal.
    rewrite <- app_comm_cons. simpl mjoin. rewrite identified_count_app. lia.
Qed.

(** X14: the number the full sync reports.  When the service holds some
    full pages of 100 records followed by a shorter page and the run is not
    interrupted, [sync_activities_full] returns and its last line is
    "N activities synced." where N is the number of listed records with a
    truthy activityId: cached ones count, records without identifier do
    not. *)
Theorem full_sync_reports_count (host : Host) (api : Garmin) (pages : list (list json))
    (last_page : list json) (fuel : nat) (w : World) :
  uninterrupted api →
  Forall (λ items, length items = 100%nat ∧ records items) pages →
  (length last_page < 100)%nat → records last_page →
  serves_pages api (pages ++ [last_page]) →
  (length pages < fuel)%nat →
  ∃ w', sync_activities_full host fuel api w = (Ret tt, w')
        ∧ last (trace w')
          = Some (EPrint ("  " +:+ pretty (identified_count (mjoin (pages ++ [last_page])))
                          +:+ " activities synced.")).
Proof.
  intros Hun Hfull Hshort Hlast Hserve Hfuel.
  destruct (full_pages_counts api (BASE_DIR host </> "activities") pages last_page fuel 0 0
              (log (EPrint "Syncing all activities (paginated)...") w)
              Hun Hfull Hshort Hlast) as (w1 & Hpages); [exact Hserve|exact Hfuel|].
  unfold sync_activities_full. run_head.
  change (Z.of_nat 0 * 100) with 0 in Hpages.
  rewrite (bind_ret _ _ _ _ _ Hpages), print_run.
  eexists. split; [reflexivity|]. simpl. by rewrite last_snoc.
Qed.

(** ** The incremental activity listing *)

Lemma sync_activities_incremental_unfold host api start_date end_date w :
  sync_activities_incremental host api start_date end_date w
  = match api_call (invoke api get_activities_by_date)
            [AStr (isoformat start_date); AStr (isoformat end_date)]
            (log (EPrint (activities_notice start_date end_date)) w) with
    | (Ret activities, w1) =>
        if truthy activities then
          (items ← py_iter activities;
           for_each items (incremental_activity api (BASE_DIR host </> "activities"))) w1
        else (Ret tt, log (EPrint "  No new activities.") w1)
    | (Raise e, w1) => (Raise e, w1)
    | (OutOfFuel, w1) => (OutOfFuel, w1)
    end.
Proof.
  unfold sync_activities_incremental. run_head. rewrite bind_unfold.
  fold (activities_notice start_date end_date).
  destruct (api_call _ _ _) as [[activities| |] w1]; try reflexivity.
  by destruct (truthy activities).
Qed.

(** X15: the incremental sync cannot tell a failed listing from an empty
    one.  When the request for the list fails with an Exception that is not
    a rate limit, or returns a falsy value (None, an empty list),
    [sync_activities_incremental] prints "No new activities." and returns
    normally, having written nothing. *)
Theorem failed_listing_reads_as_no_activities (host : Host) (api : Garmin)
    (start_date end_date : date) (w : World) :
  let args := [AStr (isoformat start_date); AStr (isoformat end_date)] in
  let w0 := log (EPrint (activities_notice start_date end_date)) w in
  let w1 := log (ECall get_activities_by_date args) w0 in
  (∀ e, respond api (trace w0) get_activities_by_date args = Fails e →
     is_Exception e = true → rate_limited e = false →
     sync_activities_incremental host api start_date end_date w
     = (Ret tt, log (EPrint "  No new activities.") (soft_failure e w1)))
  ∧ (∀ v, respond api (trace w0) get_activities_by_date args = Returns v →
       truthy v = false →
       sync_activities_incremental host api start_date end_date w
       = (Ret tt, log (EPrint "  No new activities.") w1)).
Proof.
  intros args w0 w1. split.
  - intros e Hfails Hexc Hrate. rewrite sync_activities_incremental_unfold.
    fold args w0.
    change (api_call (invoke api get_activities_by_date) args w0)
      with (api_call_attempts (invoke api get_activities_by_date args) [0; 1; 2] w0).
    pose proof (invoke_unfold api get_activities_by_date args w0) as Hop.
    rewrite Hfails in Hop.
    by rewrite (attempt_soft_failure _ _ _ _ _ _ Hop Hexc Hrate).
  - intros v Hreturns Hfalsy. rewrite sync_activities_incremental_unfold.
    fold args w0. rewrite (api_call_returns_value _ _ _ _ _ Hreturns).
    by rewrite Hfalsy.
Qed.

(** X16: a listing that is truthy but no list of records ends the
    incremental sync with an exception right after the list request, with
    nothing written: a value that is no list (iterating a dict or a string
    yields strings, a number is not iterable), or a list whose first item
    is no dict, raises AttributeError or TypeError. *)
Theorem malformed_listing_crashes (host : Host) (api : Garmin)
    (start_date end_date : date) (w : World) (v : json) :
  let args := [AStr (isoformat start_date); AStr (isoformat end_date)] in
  let w0 := log (EPrint (activities_notice start_date end_date)) w in
  let w1 := log (ECall get_activities_by_date args) w0 in
  respond api (trace w0) get_activities_by_date args = Returns v →
  truthy v = true →
  (∀ items, v ≠ JList items)
  ∨ (∃ a rest, v = JList (a :: rest) ∧ ∀ fields, a ≠ JObj fields) →
  ∃ c msg,
    sync_activities_incremental host api start_date end_date w = (Raise (Exc c msg), w1)
    ∧ (c = AttributeError ∨ c = TypeError).
Proof.
  intros args w0 w1 Hreturns Htruthy Hshape.
  rewrite sync_activities_incremental_unfold. fold args w0.
  rewrite (api_call_returns_value _ _ _ _ _ Hreturns), Htruthy. fold w1.
  destruct Hshape as [Hnolist|(a & rest & -> & Hnodict)].
  - destruct v as [|b|n|s|items|fields]; simpl in Htruthy; try discriminate.
    + eexists _, _. split; [reflexivity|by right].
    + eexists _, _. split; [reflexivity|by right].
    + destruct s as [|c s]; [discriminate|]. eexists _, _. split; [reflexivity|by left].
    + by destruct (Hnolist items).
    + destruct fields as [|[k x] fields]; [discriminate|].
      eexists _, _. split; [reflexivity|by left].
  - destruct a as [| | | | |fields]; try (eexists _, _; split; [reflexivity|by left]).
    by destruct (Hnodict fields).
Qed.

(** ** Activities are fetched when they are not cached, and only then *)

#[global] Instance activity_cache_preorder dir : PreOrder (activity_cache dir).
Proof.
  split.
  - intros w. split; [done|]. exists []. rewrite app_nil_r.
    split_and!; [done|constructor|intros p Hp; by apply elem_of_nil in Hp|].
    intros s Hs. by apply elem_of_nil in Hs.
  - intros w0 w1 w2 (Hk1 & evs1 & Htr1 & Hnd1 & Hw1 & Hc1) (Hk2 & evs2 & Htr2 & Hnd2 & Hw2 & Hc2).
    assert (∀ p, fs w1 !! p = None → fs w0 !! p = None) as Habsent.
    { intros p Hp. destruct (fs w0 !! p) as [v|] eqn:Hv; [|done].
      apply Hk1 in Hv. congruence. }
    split; [by etrans|]. exists (evs1 ++ evs2).
    split_and!.
    + by rewrite Htr2, Htr1, app_assoc.
    + rewrite write_paths_app. apply NoDup_app. split_and!; [done| |done].
      intros p Hp1 Hp2. destruct (Hw1 p Hp1) as [_ [v Hv]].
      destruct (Hw2 p Hp2) as [Hnone _]. congruence.
    + intros p Hp. rewrite write_paths_app in Hp. apply elem_of_app in Hp as [Hp|Hp].
      * destruct (Hw1 p Hp) as [Hnone [v Hv]]. split; [done|]. exists v. by apply Hk2.
      * destruct (Hw2 p Hp) as [Hnone Hsome]. split; [by apply Habsent|done].
    + intros s Hs. rewrite calls_of_app in Hs. apply elem_of_app in Hs as [Hs|Hs].
      * by apply Hc1.
      * by apply Habsent, Hc2.
Qed.

Lemma activity_cache_quiet dir w w' evs :
  fs w' = fs w → trace w' = trace w ++ evs →
  written evs = [] → calls_of get_activity evs = [] →
  activity_cache dir w w'.
Proof.
  intros Hfs Htrace Hwritten Hcalls. split; [by apply files_kept_same|].
  exists evs. unfold write_paths. rewrite Hwritten, Hcalls.
  split_and!; [done|constructor|intros p Hp; by apply elem_of_nil in Hp|].
  intros s Hs. by apply elem_of_nil in Hs.
Qed.

Lemma activity_cache_log dir w e :
  written [e] = [] → calls_of get_activity [e] = [] → activity_cache dir w (log e w).
Proof. intros Hw Hc. by apply (activity_cache_quiet dir w (log e w) [e]). Qed.

Lemma steps_activity_cache_listing dir api m args :
  m ≠ get_activity → steps (activity_cache dir) (api_call (invoke api m) args).
Proof.
  intros Hm w. destruct (api_call_invoke api m args w) as (Hfs & _ & (evs & Htrace & Hevs) & _).
  apply (activity_cache_quiet dir _ _ evs); [done|done| |].
  - by eapply api_events_written.
  - by eapply api_events_other_calls.
Qed.

(** The fetch of an activity that is not cached. *)
Lemma activity_cache_fetch dir api s w data e1 e2 :
  fs w !! (dir </> (s +:+ ".json")) = None →
  written [e1] = [] → calls_of get_activity [e1] = [] →
  written [e2] = [] → calls_of get_activity [e2] = [] →
  let w1 := (api_call (invoke api get_activity) [AStr s] w).2 in
  activity_cache dir w (log e2 (log e1 (save_json (dir </> (s +:+ ".json")) data w1).2)).
Proof.
  intros Hpath Hw1 Hc1 Hw2 Hc2 w1.
  destruct (api_call_invoke api get_activity [AStr s] w)
    as (Hfs & _ & (evs & Htrace & Hevs) & _). fold w1 in Hfs, Htrace.
  split.
  - intros p v Hp. simpl. rewrite lookup_insert_ne; [by rewrite Hfs|].
    intros <-. congruence.
  - exists (evs ++ [EWrite (dir </> (s +:+ ".json")) data; e1; e2]).
    assert (write_paths (evs ++ [EWrite (dir </> (s +:+ ".json")) data; e1; e2])
            = [dir </> (s +:+ ".json")]) as Hpaths.
    { rewrite write_paths_app. unfold write_paths at 1.
      rewrite (api_events_written _ _ _ Hevs). unfold write_paths.
      change [EWrite (dir </> (s +:+ ".json")) data; e1; e2]
        with ([EWrite (dir </> (s +:+ ".json")) data] ++ [e1] ++ [e2]).
      by rewrite !written_app, Hw1, Hw2. }
    rewrite Hpaths. split_and!.
    + simpl. rewrite Htrace, <- !app_assoc. done.
    + apply NoDup_singleton.
    + intros p Hp. apply list_elem_of_singleton in Hp as ->. split; [done|].
      simpl. rewrite lookup_insert_eq. by eexists.
    + intros s' Hs'. rewrite calls_of_app in Hs'.
      apply elem_of_app in Hs' as [Hs'|Hs'].
      * destruct (api_events_calls _ _ _ _ _ Hevs Hs') as [_ [= ->]]. done.
      * change [EWrite (dir </> (s +:+ ".json")) data; e1; e2]
          with ([EWrite (dir </> (s +:+ ".json")) data] ++ [e1] ++ [e2]) in Hs'.
        rewrite !calls_of_app, Hc1, Hc2 in Hs'. by apply elem_of_nil in Hs'.
Qed.

(** The request for the detail of an activity that is not cached. *)
Lemma activity_cache_call dir api s w :
  fs w !! (dir </> (s +:+ ".json")) = None →
  activity_cache dir w (api_call (invoke api get_activity) [AStr s] w).2.
Proof.
  intros Hpath.
  destruct (api_call_invoke api get_activity [AStr s] w)
    as (Hfs & _ & (evs & Htrace & Hevs) & _).
  split; [by apply files_kept_same|]. exists evs.
  unfold write_paths. rewrite (api_events_written _ _ _ Hevs).
  split_and!; [done|constructor|intros p Hp; by apply elem_of_nil in Hp|].
  intros s' Hs'. by destruct (api_events_calls _ _ _ _ _ Hevs Hs') as [_ [= ->]].
Qed.

Lemma steps_activity_cache_incremental dir api a :
  steps (activity_cache dir) (incremental_activity api dir a).
Proof.
  intros w. destruct a as [| | | | |fields]; try reflexivity.
  destruct (truthy (activity_id fields)) eqn:Hid.
  - destruct (fs w !! activity_file dir (activity_id fields)) as [v|] eqn:Hfile.
    + rewrite incremental_activity_cached; [reflexivity|done|by eexists].
    + rewrite incremental_activity_fetch by done.
      pose proof (activity_cache_fetch dir api (py_str (activity_id fields)) w) as Hfetch.
      pose proof (activity_cache_call dir api (py_str (activity_id fields)) w Hfile) as Hcall.
      destruct (api_call _ _ w) as [[detail|e|] w1]; [|exact Hcall..].
      by apply Hfetch.
  - rewrite incremental_activity_no_id by done. reflexivity.
Qed.

Lemma steps_activity_cache_full dir api total a :
  steps (activity_cache dir) (full_activity api dir total a).
Proof.
  intros w. destruct a as [| | | | |fields]; try reflexivity.
  destruct (truthy (activity_id fields)) eqn:Hid.
  - destruct (fs w !! activity_file dir (activity_id fields)) as [v|] eqn:Hfile.
    + rewrite full_activity_cached; [reflexivity|done|by eexists].
    + rewrite full_activity_fetch by done.
      pose proof (activity_cache_fetch dir api (py_str (activity_id fields)) w) as Hfetch.
      pose proof (activity_cache_call dir api (py_str (activity_id fields)) w Hfile) as Hcall.
      destruct (api_call _ _ w) as [[detail|e|] w1]; [|exact Hcall..].
      by apply Hfetch.
  - rewrite full_activity_no_id by done. reflexivity.
Qed.

Lemma steps_activity_cache_print dir line : steps (activity_cache dir) (print line).
Proof. intros w. by apply activity_cache_log. Qed.

Lemma steps_activity_cache_sleep dir s : steps (activity_cache dir) (sleep s).
Proof. intros w. by apply activity_cache_log. Qed.

Lemma steps_activity_cache_full_pages dir fuel api start limit total :
  steps (activity_cache dir) (full_pages fuel api dir start limit total).
Proof.
  revert start total. induction fuel as [|fuel IH]; intros start total; simpl.
  - by apply steps_pure; [apply _|].
  - apply steps_bind; [apply _|by apply steps_activity_cache_listing|intros batch].
    destruct (negb (truthy batch)); [apply steps_mret, _|].
    apply steps_bind; [apply _|apply steps_pure; [apply _|apply py_iter_world]|intros items].
    apply steps_bind; [apply _| |intros total1].
    { apply steps_for_fold; [apply _|]. intros s x. apply steps_activity_cache_full. }
    apply steps_bind; [apply _|apply steps_pure; [apply _|apply py_len_world]|intros size].
    destruct (size <? limit); [apply steps_mret, _|].
    apply steps_bind; [apply _|apply steps_activity_cache_sleep|intros _; apply IH].
Qed.

Lemma activity_cache_events dir w w' :
  activity_cache dir w w' → uses_activity_cache dir w (events_since w w').
Proof.
  intros (Hkept & evs & Htrace & Hnodup & Hwritten & Hcalls).
  rewrite (events_since_app _ _ _ Htrace). split_and!; [done| |].
  - intros p Hp. by apply Hwritten.
  - intros s [v Hv] Hs. apply Hcalls in Hs. congruence.
Qed.

(** X12: both activity syncs use the cache the way the daily sync does.
    Whatever the service answers and however the run ends: every file
    written is written once and was not there at the start, and no detail
    is requested for an activity whose cache file was there at the start. *)
Theorem activity_syncs_use_cache (host : Host) (api : Garmin) (w : World) :
  let dir := BASE_DIR host </> "activities" in
  (∀ start_date end_date,
     uses_activity_cache dir w
       (events_since w (sync_activities_incremental host api start_date end_date w).2))
  ∧ (∀ fuel,
       uses_activity_cache dir w (events_since w (sync_activities_full host fuel api w).2)).
Proof.
  intros dir. split.
  - intros start_date end_date. apply activity_cache_events.
    revert w. fold (steps (activity_cache dir)
                      (sync_activities_incremental host api start_date end_date)).
    unfold sync_activities_incremental. fold dir.
    apply steps_bind; [apply _|apply steps_activity_cache_print|intros _].
    apply steps_bind; [apply _|by apply steps_activity_cache_listing|intros activities].
    destruct (negb (truthy activities)); [apply steps_activity_cache_print|].
    apply steps_bind; [apply _|apply steps_pure; [apply _|apply py_iter_world]|intros items].
    apply steps_for_each; [apply _|]. intros a. apply steps_activity_cache_incremental.
  - intros fuel. apply activity_cache_events.
    revert w. fold (steps (activity_cache dir) (sync_activities_full host fuel api)).
    unfold sync_activities_full. fold dir.
    apply steps_bind; [apply _|apply steps_activity_cache_print|intros _].
    apply steps_bind; [apply _|apply steps_activity_cache_full_pages|intros total].
    apply steps_activity_cache_print.
Qed.

(** ** Cache files of activities with numeric identifiers *)

Lemma pretty_N_go_lacks c x s :
  (∀ d, pretty_N_char d ≠ c) → lacks c s = true → lacks c (pretty_N_go x s) = true.
Proof.
  intros Hc. revert s. induction (N.lt_wf_0 x) as [x _ IH]; intros s Hs.
  assert (x = 0 ∨ 0 < x)%N as [->|Hpos] by lia.
  - by rewrite pretty_N_go_0.
  - rewrite pretty_N_go_step by done. apply IH; [by apply N.div_lt|].
    cbn [lacks]. rewrite Hs, andb_true_r.
    destruct (Ascii.eqb_spec (pretty_N_char (x `mod` 10)) c) as [Heq|]; [|done].
    by destruct (Hc _ Heq).
Qed.

Lemma pretty_Z_lacks c (n : Z) :
  (∀ d, pretty_N_char d ≠ c) → c ≠ "-"%char → lacks c (pretty n) = true.
Proof.
  intros Hc Hdash.
  assert (∀ p : positive, lacks c (pretty p) = true) as Hpos.
  { intros p. unfold pretty, pretty_positive, pretty, pretty_N.
    case_decide; [done|]. by apply pretty_N_go_lacks. }
  destruct n as [|p|p]; unfold pretty, pretty_Z.
  - cbn [lacks]. destruct (Ascii.eqb_spec "0" c) as [<-|]; [|done]. by destruct (Hc 0%N).
  - apply Hpos.
  - rewrite lacks_app, Hpos, andb_true_r. cbn [lacks].
    destruct (Ascii.eqb_spec "-" c) as [<-|]; done.
Qed.

Lemma digit_not_slash d : pretty_N_char d ≠ "/"%char.
Proof. unfold pretty_N_char. by repeat case_match. Qed.

Lemma digit_not_dot d : pretty_N_char d ≠ "."%char.
Proof. unfold pretty_N_char. by repeat case_match. Qed.

Lemma activity_file_numeric dir n :
  activity_file dir (JNum n) = dir +:+ "/" +:+ pretty n +:+ ".json".
Proof.
  unfold activity_file. simpl py_str. apply path_join_relative.
  rewrite lacks_app, (pretty_Z_lacks "/" n digit_not_slash) by done. done.
Qed.

(** X13: an activity whose identifier is a number is cached in the file
    named by its decimal digits inside the activities directory, and two
    different numbers never share a file. *)
Theorem numeric_ids_have_their_own_files (dir : string) (n1 n2 : Z) :
  n1 ≠ n2 →
  activity_file dir (JNum n1) = dir +:+ "/" +:+ pretty n1 +:+ ".json"
  ∧ activity_file dir (JNum n1) ≠ activity_file dir (JNum n2).
Proof.
  intros Hne. split; [apply activity_file_numeric|].
  rewrite !activity_file_numeric. intros Hfile.
  apply append_inv_head, append_inv_head in Hfile.
  apply (lacks_split "." (pretty n1) (pretty n2) "json" "json") in Hfile as [Hpretty _];
    [|apply pretty_Z_lacks; [apply digit_not_dot|done]..].
  by apply Hne, (inj pretty).
Qed.

(** ** The sync state is written at the end, or not at all *)

Lemma base_child_ne (base : string) a b rest1 rest2 :
  a ≠ b → base +:+ String "/" (String a rest1) ≠ base +:+ String "/" (String b rest2).
Proof. intros Hne Heq. apply append_inv_head in Heq. by injection Heq. Qed.

Lemma state_file_child host :
  SYNC_STATE_FILE host = BASE_DIR host +:+ String "/" (String "s" "ync_state.json").
Proof. unfold SYNC_STATE_FILE. by rewrite path_join_relative. Qed.

Lemma daily_path_not_state host ds file :
  lacks "/" ds = true → lacks "/" file = true →
  daily_path host ds file ≠ SYNC_STATE_FILE host.
Proof.
  intros Hds Hfile. rewrite daily_path_relative, state_file_child by done.
  rewrite (path_join_relative _ "daily") by done. rewrite !append_assoc.
  by apply (base_child_ne _ "d" "s").
Qed.

Lemma activity_file_not_state host n :
  activity_file (BASE_DIR host </> "activities") (JNum n) ≠ SYNC_STATE_FILE host.
Proof.
  rewrite activity_file_numeric, state_file_child.
  rewrite (path_join_relative _ "activities") by done. rewrite !append_assoc.
  by apply (base_child_ne _ "a" "s").
Qed.

Lemma refreshed_not_state host p : p ∈ refreshed_paths host → p ≠ SYNC_STATE_FILE host.
Proof.
  intros Hp. rewrite state_file_child. unfold refreshed_paths in Hp.
  repeat (apply elem_of_cons in Hp as [->|Hp];
          [rewrite !path_join_relative by done; rewrite ?append_assoc;
           by first [apply (base_child_ne _ "b" "s") | apply (base_child_ne _ "w" "s")
                    | apply (base_child_ne _ "p" "s")]|]).
  by apply elem_of_nil in Hp.
Qed.

#[global] Instance state_kept_preorder host : PreOrder (state_kept host).
Proof.
  split.
  - by intros w.
  - intros w0 w1 w2 H1 H2. unfold state_kept in *. congruence.
Qed.

Lemma state_kept_idle host w w' : idle w w' → state_kept host w w'.
Proof. intros [Hfs _]. unfold state_kept. by rewrite Hfs. Qed.

Lemma state_kept_save host w path data :
  path ≠ SYNC_STATE_FILE host → state_kept host w (save_json path data w).2.
Proof. intros Hne. unfold state_kept. rewrite save_json_run. simpl. by rewrite lookup_insert_ne. Qed.

Lemma days_before_year_nonneg y : 1 ≤ y → 0 ≤ days_before_year y.
Proof.
  intros Hy. unfold days_before_year. cbv zeta.
  pose proof (Z.div_le_compat_l (y - 1) 4 100 ltac:(lia) ltac:(lia)).
  pose proof (Z.div_pos (y - 1) 400 ltac:(lia) ltac:(lia)). nia.
Qed.

Lemma days_before_month_nonneg y m : 0 ≤ days_before_month y m.
Proof.
  unfold days_before_month, DAYS_BEFORE_MONTH.
  repeat case_match; lia.
Qed.

Lemma strptime_lower s d : strptime s = Some d → MIN_ORDINAL ≤ d.
Proof.
  unfold strptime. intros H.
  repeat match type of H with
         | match ?x with _ => _ end = _ => destruct x eqn:?; try discriminate
         | (if ?b then _ else _) = _ => destruct b eqn:Hb; try discriminate
         end.
  injection H as <-.
  repeat (apply andb_true_iff in Hb as [Hb ?]).
  pose proof (days_before_year_nonneg z ltac:(lia)).
  pose proof (days_before_month_nonneg z z0).
  unfold ymd2ord, MIN_ORDINAL. lia.
Qed.

Lemma load_sync_state_lower host w d w' :
  load_sync_state host w = (Ret (Some d), w') → MIN_ORDINAL ≤ d.
Proof.
  rewrite load_sync_state_unfold. intros H.
  repeat match type of H with
         | match ?x with _ => _ end = _ => destruct x eqn:?; try discriminate
         | (if ?b then _ else _) = _ => destruct b eqn:?; try discriminate
         end.
  injection H as <- _. by eapply strptime_lower.
Qed.

(** ** Where a run writes the sync state *)

Lemma spares_write_paths path evs : Forall (spares path) evs ↔ path ∉ write_paths evs.
Proof.
  unfold write_paths. induction evs as [|e evs IH]; simpl.
  - split; [intros _; apply not_elem_of_nil|constructor].
  - destruct e; simpl;
      try (rewrite <- IH; split; [by inversion 1|by constructor]).
    rewrite not_elem_of_cons, <- IH. split.
    + inversion 1; subst. split; [by apply not_eq_sym|done].
    + intros [Hne Hevs]. constructor; [by apply not_eq_sym|done].
Qed.

Lemma written_nil_spares path evs : written evs = [] → Forall (spares path) evs.
Proof.
  intros Hevs. apply spares_write_paths. unfold write_paths. rewrite Hevs.
  apply not_elem_of_nil.
Qed.

#[global] Instance state_untouched_preorder host : PreOrder (state_untouched host).
Proof.
  split.
  - intros w. split; reflexivity.
  - intros w0 w1 w2 [Hfs1 Hev1] [Hfs2 Hev2]. split; by etrans.
Qed.

Lemma state_untouched_idle host w w' : idle w w' → state_untouched host w w'.
Proof.
  intros Hidle. split; [by apply state_kept_idle|].
  destruct Hidle as (_ & evs & Htrace & Hevs). exists evs. split; [done|].
  by apply written_nil_spares.
Qed.

Lemma state_untouched_save host w path data :
  path ≠ SYNC_STATE_FILE host → state_untouched host w (save_json path data w).2.
Proof.
  intros Hne. split; [by apply state_kept_save|].
  rewrite save_json_run. exists [EWrite path data]. split; [done|]. by repeat constructor.
Qed.

(** What happened before the write counts as before the write. *)
Lemma state_written_last_after host w0 w1 w2 :
  state_untouched host w0 w1 → state_written_last host w1 w2 →
  state_written_last host w0 w2.
Proof.
  intros [_ (evs & Htrace & Hevs)] (pre & v & post & Htrace' & Hpre & Hpost).
  exists (evs ++ pre), v, post. split_and!; [|by apply Forall_app|done].
  by rewrite Htrace', Htrace, <- !app_assoc.
Qed.

Lemma ends_in_bind_post {A B} (R Q : relation World) `{!PreOrder R} (m : M A) (f : A → M B)
    (P : A → Prop) :
  (∀ w0 w1 w2, R w0 w1 → Q w1 w2 → Q w0 w2) →
  (∀ w a w', m w = (Ret a, w') → P a) →
  steps R m → (∀ a, P a → ends_in R Q (f a)) → ends_in R Q (m ≫= f).
Proof.
  intros HQ HP Hm Hf w. rewrite bind_unfold. specialize (Hm w). specialize (HP w).
  destruct (m w) as [[a| |] w1] eqn:Hrun; simpl in *; try done.
  specialize (Hf a (HP a w1 eq_refl) w1).
  destruct (f a w1) as [[b| |] w2]; simpl in *; try done; [by eapply HQ|by etrans..].
Qed.

Lemma ends_in_bind {A B} (R Q : relation World) `{!PreOrder R} (m : M A) (f : A → M B) :
  (∀ w0 w1 w2, R w0 w1 → Q w1 w2 → Q w0 w2) →
  steps R m → (∀ a, ends_in R Q (f a)) → ends_in R Q (m ≫= f).
Proof.
  intros HQ Hm Hf.
  apply (ends_in_bind_post R Q m f (λ _, True)); [done|done|done|]. intros a _. apply Hf.
Qed.

Section StateWritten.

Variable host : Host.

Hypothesis Hclock : ∀ h, MIN_ORDINAL + HISTORY_DAYS ≤ clock host h ≤ MAX_ORDINAL.

Hypothesis Hnumeric : numeric_ids (garmin host).

Lemma state_untouched_new w path data :
  path ≠ SYNC_STATE_FILE host → fs w !! path = None → is_None data = false →
  state_untouched host w (save_json path data w).2.
Proof. intros Hne _ _. by apply state_untouched_save. Qed.

Lemma state_untouched_rewrite w path data :
  path ∈ refreshed_paths host → is_None data = false →
  state_untouched host w (save_json path data w).2.
Proof. intros Hpath _. by apply state_untouched_save, refreshed_not_state. Qed.

Lemma daily_files_not_state start end_ :
  MIN_ORDINAL ≤ start → end_ ≤ MAX_ORDINAL →
  daily_files_in host (λ path, path ≠ SYNC_STATE_FILE host) start end_.
Proof.
  intros Hstart Hend d file m args Hd Hguard.
  apply daily_path_not_state; [apply isoformat_lacks_slash; lia|].
  by eapply daily_guard_file.
Qed.

Lemma listed_files_not_state m :
  m = get_activities ∨ m = get_activities_by_date →
  listed_files_in (garmin host) m (λ path, path ≠ SYNC_STATE_FILE host)
    (BASE_DIR host </> "activities").
Proof.
  intros Hm h args items a Hres Ha fields -> Hid.
  destruct (Hnumeric h m args items fields Hm Hres Ha Hid) as [n ->].
  apply activity_file_not_state.
Qed.

(** The last two lines of [main]. *)
Lemma ends_in_save_sync_state today line :
  ends_in (state_untouched host) (state_written_last host)
    (save_sync_state host today;; print line).
Proof.
  intros w. unfold save_sync_state.
  rewrite (bind_ret _ _ _ _ _ (save_json_run _ _ _)), print_run. simpl.
  exists [], (state_record today), [EPrint line].
  split_and!; [unfold log; simpl; by rewrite <- app_assoc|constructor|by repeat constructor].
Qed.

Lemma ends_in_sync_all fuel :
  ends_in (state_untouched host) (state_written_last host) (sync_all host fuel (garmin host)).
Proof.
  pose proof (state_written_last_after host) as Hafter.
  unfold sync_all.
  apply (ends_in_bind_post _ _ _ _
           (λ today, MIN_ORDINAL + HISTORY_DAYS ≤ today ≤ MAX_ORDINAL) Hafter).
  { intros w today w' [= <- _]. apply Hclock. }
  { by apply steps_pure; [apply _|]. }
  intros today Htoday.
  apply (ends_in_bind_post _ _ _ _ (λ last, ∀ d, last = Some d → MIN_ORDINAL ≤ d) Hafter).
  { intros w last w' Hload d ->. by eapply load_sync_state_lower. }
  { apply steps_pure; [apply _|apply load_sync_state_world]. }
  intros last_sync Hlast.
  apply (ends_in_bind_post _ _ _ _ (λ start_date, MIN_ORDINAL ≤ start_date) Hafter).
  { intros w start_date w'. destruct last_sync as [d|].
    - rewrite (bind_ret _ _ _ _ _ (print_run _ _)). intros [= <- _]. by apply Hlast.
    - rewrite (bind_ret _ _ _ _ _ (print_run _ _)). intros [= <- _]. lia. }
  { destruct last_sync;
      (apply steps_bind; [apply _| |intros _; apply steps_mret, _]);
      apply (steps_print (state_untouched host) (state_untouched_idle host)). }
  intros start_date Hstart.
  pose proof (state_untouched_idle host) as Hidle.
  pose proof state_untouched_new as Hnew.
  pose proof state_untouched_rewrite as Hrewrite.
  apply ends_in_bind; [apply _|done| |intros _].
  { apply (steps_sync_daily_data _ _ Hidle Hnew), daily_files_not_state; lia. }
  apply ends_in_bind; [apply _|done|apply (steps_sleep _ Hidle)|intros _].
  apply ends_in_bind; [apply _|done| |intros _].
  { destruct last_sync.
    - apply (steps_sync_activities_incremental _ _ Hidle Hnew), listed_files_not_state.
      by right.
    - apply (steps_sync_activities_full _ _ Hidle Hnew), listed_files_not_state.
      by left. }
  apply ends_in_bind; [apply _|done|apply (steps_sleep _ Hidle)|intros _].
  apply ends_in_bind; [apply _|done| |intros _].
  { by apply (steps_sync_body_composition _ _ Hidle Hrewrite). }
  apply ends_in_bind; [apply _|done|apply (steps_sleep _ Hidle)|intros _].
  apply ends_in_bind; [apply _|done| |intros _].
  { by apply (steps_sync_weekly _ _ Hidle Hrewrite). }
  apply ends_in_bind; [apply _|done|apply (steps_sleep _ Hidle)|intros _].
  apply ends_in_bind; [apply _|done| |intros _].
  { by apply (steps_sync_profile _ _ Hidle Hrewrite). }
  apply ends_in_bind; [apply _|done|apply (steps_sleep _ Hidle)|intros _].
  apply ends_in_bind; [apply _|done| |intros _].
  { by apply (steps_sync_personal_records _ _ Hidle Hrewrite). }
  apply ends_in_save_sync_state.
Qed.

Lemma ends_in_main fuel :
  ends_in (state_untouched host) (state_written_last host) (main host fuel).
Proof.
  intros w. unfold main. rewrite bind_unfold.
  pose proof (state_untouched_idle host _ _ (init_api_idle host fuel w)) as Hinit.
  destruct (init_api host fuel w) as [[[api|]| |] w1] eqn:Hrun; simpl in Hinit;
    [| |exact Hinit..].
  - apply init_api_client in Hrun as ->.
    pose proof (ends_in_sync_all fuel w1) as Hsync.
    destruct (sync_all host fuel (garmin host) w1) as [[| |] w2]; simpl in *;
      [by eapply state_written_last_after|by etrans..].
  - simpl. etrans; [exact Hinit|].
    apply state_untouched_idle. split; [done|]. by exists [EPrint "Failed to authenticate."].
Qed.

End StateWritten.

(** X20: the sync state is the last thing a run stores.  When the clock
    shows dates Python can represent that are at least 365 days after
    0001-01-01, and the service lists activities under numeric identifiers,
    the events of a run of the script, however it ends, are of one of two
    kinds.  Either no [save_json] was started on the sync-state file, and
    the file is as the run found it; or there is exactly one, made after
    every event that is not a printed line: the events before it hold no
    write to the sync-state file, and nothing is requested, stored or waited
    for after it. *)
Theorem sync_state_is_written_last (host : Host) (fuel : nat) (w : World) :
  (∀ h, MIN_ORDINAL + HISTORY_DAYS ≤ clock host h ≤ MAX_ORDINAL) →
  numeric_ids (garmin host) →
  let w' := (script host fuel w).2 in
  ((SYNC_STATE_FILE host ∉ write_paths (events_since w w'))
   ∧ fs w' !! SYNC_STATE_FILE host = fs w !! SYNC_STATE_FILE host)
  ∨ ∃ pre v post,
      events_since w w' = pre ++ EWrite (SYNC_STATE_FILE host) v :: post
      ∧ (SYNC_STATE_FILE host ∉ write_paths pre)
      ∧ Forall printed post.
Proof.
  intros Hclock Hnumeric w'.
  assert (state_untouched host w w' ∨ state_written_last host w w') as [Hkept|Hlast].
  { pose proof (ends_in_main host Hclock Hnumeric fuel w) as Hmain.
    subst w'. rewrite script_unfold.
    destruct (main host fuel w) as [[[]|e|] w1]; simpl in *; [by right| |by left].
    left. destruct e; simpl; try done.
    etrans; [exact Hmain|]. apply state_untouched_idle. split; [done|].
    by exists [EPrint (nl +:+ "Sync interrupted.")]. }
  - left. destruct Hkept as [Hfs (evs & Htrace & Hevs)].
    rewrite (events_since_app _ _ _ Htrace). split; [by apply spares_write_paths|done].
  - right. destruct Hlast as (pre & v & post & Htrace & Hpre & Hpost).
    exists pre, v, post. rewrite (events_since_app _ _ _ Htrace).
    split_and!; [done|by apply spares_write_paths|done].
Qed.

(** ** Pagination goes on while the pages are full *)

Lemma full_pages_goes_on api dir fuel first total w :
  uninterrupted api →
  (∀ h args, ∃ items, respond api h get_activities args = Returns (JList items)
                      ∧ (100 ≤ length items)%nat ∧ records items) →
  ∃ w' evs,
    full_pages fuel api dir (Z.of_nat first * 100) 100 total w = (OutOfFuel, w')
    ∧ trace w' = trace w ++ evs
    ∧ calls_of get_activities evs = page_requests first fuel.
Proof.
  intros Hun Hfull. revert first total w.
  induction fuel as [|fuel IH]; intros first total w.
  - exists w, []. by rewrite app_nil_r.
  - destruct (Hfull (trace w) [AInt (Z.of_nat first * 100); AInt 100])
      as (items & Hres & Hlen & Hrec).
    pose proof (api_call_returns_value _ _ _ _ _ Hres) as Hlist.
    assert (Hne : items ≠ []) by (intros ->; simpl in Hlen; lia).
    destruct (for_fold_full_returns api dir items total
                (log (ECall get_activities [AInt (Z.of_nat first * 100); AInt 100]) w)
                Hun Hrec) as (total1 & w1 & evs1 & Hbody & Htr1 & Hc1).
    rewrite (full_pages_next _ _ _ _ _ _ _ _ _ _ _ Hlist Hne Hbody) by lia.
    replace (Z.of_nat first * 100 + 100) with (Z.of_nat (S first) * 100) by lia.
    destruct (IH (S first) total1 (log (ESleep API_DELAY) w1))
      as (w2 & evs2 & Hrest & Htr2 & Hc2).
    exists w2. eexists. split; [exact Hrest|]. split.
    + rewrite Htr2. simpl. rewrite Htr1. simpl. rewrite <- !app_assoc. reflexivity.
    + rewrite !calls_of_app, Hc1, Hc2. reflexivity.
Qed.

(** X22: the full sync stops at a short or empty page only.  Against a
    service that answers every list request with a page of 100 records or
    more, and never interrupts, [sync_activities_full] does not end: with
    room for any number of rounds, it is still running after that many,
    having asked for the pages at offsets 0, 100, 200, ... one per round. *)
Theorem full_sync_goes_on_while_pages_are_full (host : Host) (api : Garmin) (fuel : nat)
    (w : World) :
  uninterrupted api →
  (∀ h args, ∃ items, respond api h get_activities args = Returns (JList items)
                      ∧ (100 ≤ length items)%nat ∧ records items) →
  ∃ w', sync_activities_full host fuel api w = (OutOfFuel, w')
        ∧ calls_of get_activities (events_since w w') = page_requests 0 fuel.
Proof.
  intros Hun Hfull. unfold sync_activities_full. run_head.
  destruct (full_pages_goes_on api (BASE_DIR host </> "activities") fuel 0 0
              (log (EPrint "Syncing all activities (paginated)...") w) Hun Hfull)
    as (w' & evs & Hrun & Htrace & Hcalls).
  change (Z.of_nat 0 * 100) with 0 in Hrun.
  rewrite (bind_out_of_fuel _ _ _ _ Hrun). exists w'. split; [done|].
  erewrite events_since_app; [|rewrite Htrace; simpl; by rewrite <- app_assoc].
  done.
Qed.

(** ** A run that completes records today's date *)

Lemma sync_from_state host fuel api incremental start_date today w w' :
  sync_from host fuel api incremental start_date today w = (Ret tt, w') →
  fs w' !! SYNC_STATE_FILE host = Some (state_record today).
Proof.
  unfold sync_from. intros H.
  do 11 (apply bind_ret_inv in H as ([] & ? & _ & H)).
  apply bind_ret_inv in H as ([] & w1 & Hsave & H).
  injection H as <-. unfold save_sync_state in Hsave. rewrite save_json_run in Hsave.
  injection Hsave as <-. simpl. apply lookup_insert_eq.
Qed.

Lemma returns_sync_from_incremental host fuel api start_date today :
  uninterrupted api →
  (∀ h args v, respond api h get_activities_by_date args = Returns v →
     truthy v = true → ∃ items, v = JList items ∧ records items) →
  returns (sync_from host fuel api true start_date today).
Proof.
  intros Hun Hlisting. unfold sync_from.
  apply returns_bind; [by apply returns_sync_daily_data|intros _].
  apply returns_bind; [apply returns_sleep|intros _].
  apply returns_bind; [by apply returns_sync_activities_incremental|intros _].
  apply returns_bind; [apply returns_sleep|intros _].
  apply returns_bind; [by apply returns_sync_body_composition|intros _].
  apply returns_bind; [apply returns_sleep|intros _].
  apply returns_bind; [by apply returns_sync_weekly|intros _].
  apply returns_bind; [apply returns_sleep|intros _].
  apply returns_bind; [by apply returns_sync_profile|intros _].
  apply returns_bind; [apply returns_sleep|intros _].
  apply returns_bind; [by apply returns_sync_personal_records|intros _].
  apply returns_bind; [apply returns_save_json|intros _]. apply returns_print.
Qed.

(** X23: a run that completes has recorded today's date.  Once a client is
    at hand, whenever [main] returns, the sync-state file holds the date
    the clock showed when the sync began.  And an incremental run does
    complete, with exit status 0, when the client raises only Exceptions
    and every truthy listing of the service is a list of records. *)
Theorem completed_run_records_today (host : Host) (fuel : nat) (w : World) (api : Garmin)
    (w1 : World) :
  init_api host fuel w = (Ret (Some api), w1) →
  let today := clock host (trace w1) in
  (∀ w', main host fuel w = (Ret tt, w') →
     fs w' !! SYNC_STATE_FILE host = Some (state_record today))
  ∧ (∀ d, load_sync_state host w1 = (Ret (Some d), w1) →
       uninterrupted api →
       (∀ h args v, respond api h get_activities_by_date args = Returns v →
          truthy v = true → ∃ items, v = JList items ∧ records items) →
       ∃ w', main host fuel w = (Ret tt, w')
             ∧ fs w' !! SYNC_STATE_FILE host = Some (state_record today)
             ∧ exit_code (script host fuel w).1 = Some 0).
Proof.
  intros Hinit today.
  assert (∀ w', main host fuel w = (Ret tt, w') →
            fs w' !! SYNC_STATE_FILE host = Some (state_record today)) as Hstate.
  { intros w'. rewrite (main_authenticated _ _ _ _ _ Hinit), sync_all_unfold.
    fold today. destruct (load_sync_state host w1) as [[[d|]| |] w2]; try done.
    - rewrite (bind_ret _ _ _ _ _ (print_run _ _)). apply sync_from_state.
    - rewrite (bind_ret _ _ _ _ _ (print_run _ _)). apply sync_from_state. }
  split; [exact Hstate|].
  intros d Hload Hun Hlisting.
  destruct (returns_unit _ (returns_sync_from_incremental host fuel api d today Hun Hlisting)
              (log (EPrint (incremental_notice d today)) w1)) as [w' Hrun].
  assert (main host fuel w = (Ret tt, w')) as Hmain.
  { rewrite (main_authenticated _ _ _ _ _ Hinit), sync_all_unfold. fold today.
    rewrite Hload. by rewrite (bind_ret _ _ _ _ _ (print_run _ _)). }
  exists w'. split_and!; [done|by apply Hstate|].
  by rewrite script_unfold, Hmain.
Qed.

(** ** Worked examples of the further properties *)

Lemma steady_service_uninterrupted : uninterrupted steady_service.
Proof. intros h m args e H. by apply (steady_answers_never_interrupt m args e). Qed.

Lemma steady_service_stateless : stateless steady_service steady_answers.
Proof. by intros h m args. Qed.

(** With stored tokens the client is returned after one request. *)
Lemma stored_token_login_witness :
  init_api steady_host 1 synced_yesterday
  = (Ret (Some steady_service),
     log (EPrint "Authenticated with stored tokens.")
       (log (EAuth (LoginTokens "/home/user/.garminconnect")) synced_yesterday)).
Proof.
  apply (proj1 (stored_token_login steady_host 1 synced_yesterday)). reflexivity.
Defined.

(** The client of the first run was returned after the stored tokens were
    accepted. *)
Lemma returned_client_is_logged_in_witness :
  steady_service = garmin steady_host
  ∧ (login_tokens steady_host (trace synced_yesterday) (tokenstore_path steady_host) = None
     ∨ accepted_login steady_host (tokenstore_path steady_host)).
Proof.
  apply (returned_client_is_logged_in steady_host 1 synced_yesterday steady_service
           (init_api steady_host 1 synced_yesterday).2 (pair_of_fst _ _ steady_first_login)).
Defined.

(** Rejected credentials lead to the next round. *)
Lemma login_failure_handling_witness :
  prompt_loop locked_out_host 1 "/home/user/.garminconnect" empty_world
  = prompt_loop locked_out_host 0 "/home/user/.garminconnect"
      (log (EPrint "Invalid credentials. Try again.")
         (log (EAuth (LoginCredentials "user@example.org" "secret")) empty_world)).
Proof.
  apply (proj1 (login_failure_handling locked_out_host 0 "/home/user/.garminconnect"
                  empty_world "user@example.org" empty_world "secret" empty_world
                  (Exc GarminConnectAuthenticationError "401 Unauthorized")
                  eq_refl eq_refl eq_refl)).
  reflexivity.
Defined.

(** A thousand rounds are not enough. *)
Lemma rejected_environment_credentials_never_end_witness :
  (prompt_loop locked_out_host 1000 "/home/user/.garminconnect" empty_world).1 = OutOfFuel.
Proof.
  apply (rejected_environment_credentials_never_end locked_out_host
           "user@example.org" "secret" "/home/user/.garminconnect" 1000 empty_world).
  - reflexivity.
  - discriminate.
  - reflexivity.
  - discriminate.
  - intros h. eexists. split; reflexivity.
Defined.

(** The date saved on 2021-07-29 is the date loaded. *)
Lemma saved_sync_date_is_loaded_witness :
  load_sync_state steady_host (save_sync_state steady_host 738000 synced_yesterday).2
  = (Ret (Some 738000), (save_sync_state steady_host 738000 synced_yesterday).2).
Proof.
  apply (saved_sync_date_is_loaded steady_host 738000 synced_yesterday
           steady_today_in_range).
Defined.

Lemma garbled_login :
  (init_api steady_host 1 garbled_state).1 = Ret (Some steady_service).
Proof. vm_compute. reflexivity. Qed.

(** A state file that says "yesterday" stops the run after the login. *)
Lemma unreadable_sync_state_aborts_witness :
  ∃ msg, script steady_host 1 garbled_state
         = (Raise (Exc ValueError msg), (init_api steady_host 1 garbled_state).2)
         ∧ exit_code (script steady_host 1 garbled_state).1 = Some 1.
Proof.
  apply (proj1 (unreadable_sync_state_aborts steady_host 1 garbled_state steady_service
                  (init_api steady_host 1 garbled_state).2
                  (pair_of_fst _ _ garbled_login))
           [("last_sync_date", JStr "yesterday")] "yesterday").
  - reflexivity.
  - reflexivity.
  - discriminate.
  - vm_compute. reflexivity.
Defined.

(** Two days, two progress lines. *)
Lemma daily_sync_visits_range_witness :
  ∃ w', sync_daily_data steady_host steady_service 737999 738000 empty_world = (Ret tt, w')
        ∧ progress_lines (events_since empty_world w')
          = [ "Syncing daily data: 2021-07-28... 1/2";
              "Syncing daily data: 2021-07-29... 2/2" ]
        ∧ length (progress_lines (events_since empty_world w')) = 2%nat.
Proof.
  apply (daily_sync_visits_range steady_host steady_service 737999 738000 empty_world
           steady_service_uninterrupted).
Defined.

Lemma daily_sync_settles_range_witness :
  ∃ w', sync_daily_data steady_host steady_service 737999 738000 empty_world = (Ret tt, w')
        ∧ ∀ d, 737999 ≤ d ≤ 738000 → day_settled steady_host steady_answers (isoformat d) w'.
Proof.
  apply (daily_sync_settles_range steady_host steady_service steady_answers 737999 738000
           empty_world steady_service_stateless steady_answers_never_interrupt).
Defined.

(** The sleep data of two consecutive days go to two files. *)
Lemma daily_cache_files_are_distinct_witness :
  daily_path steady_host (isoformat 737999) "sleep.json"
  ≠ daily_path steady_host (isoformat 738000) "sleep.json".
Proof.
  apply (proj1 (daily_cache_files_are_distinct steady_host 737999 738000
                  "sleep.json" "sleep.json" get_sleep_data get_sleep_data
                  [AStr (isoformat 737999)] [AStr (isoformat 738000)]
                  ltac:(unfold MIN_ORDINAL, MAX_ORDINAL; lia)
                  ltac:(unfold MIN_ORDINAL, MAX_ORDINAL; lia)
                  ltac:(left; split; [unfold daily_calls; in_list|reflexivity])
                  ltac:(left; split; [unfold daily_calls; in_list|reflexivity]))).
  left. lia.
Defined.

(** A summary cached before the run is still there after the daily sync. *)
Lemma cache_checked_syncs_keep_files_witness :
  fs (sync_daily_data steady_host steady_service 738000 738000 blank_state).2
    !! daily_path steady_host "2021-07-29" "summary.json" = Some (JStr "cached").
Proof.
  apply (proj1 (cache_checked_syncs_keep_files steady_host steady_service blank_state
                  (daily_path steady_host "2021-07-29" "summary.json") (JStr "cached")
                  eq_refl) 738000 738000).
Defined.

(** Activities 7 and 8 have their own files. *)
Lemma numeric_ids_have_their_own_files_witness :
  activity_file "/home/user/garmin_data/activities" (JNum 7)
  = "/home/user/garmin_data/activities" +:+ "/" +:+ pretty 7 +:+ ".json"
  ∧ activity_file "/home/user/garmin_data/activities" (JNum 7)
    ≠ activity_file "/home/user/garmin_data/activities" (JNum 8).
Proof.
  apply (numeric_ids_have_their_own_files "/home/user/garmin_data/activities" 7 8). lia.
Defined.

(** The full sync of 237 activities reports 237. *)
Lemma full_sync_reports_count_witness :
  ∃ w', sync_activities_full steady_host 3 paged_service empty_world = (Ret tt, w')
        ∧ last (trace w') = Some (EPrint "  237 activities synced.").
Proof.
  apply (full_sync_reports_count steady_host paged_service
           [summaries 1 100; summaries 101 100] (summaries 201 37) 3 empty_world).
  - intros h m args e H. discriminate H.
  - constructor; [split; [reflexivity | apply records_summaries]|].
    constructor; [split; [reflexivity | apply records_summaries]|].
    constructor.
  - vm_compute. lia.
  - apply records_summaries.
  - apply paged_service_serves.
  - simpl. lia.
Defined.

(** A service that cannot be reached looks like one without activities. *)
Lemma failed_listing_reads_as_no_activities_witness :
  sync_activities_incremental steady_host offline_service 737999 738000 empty_world
  = (Ret tt,
     log (EPrint "  No new activities.")
       (log (EPrint "  Warning: connection refused")
          (log (ECall get_activities_by_date [AStr "2021-07-28"; AStr "2021-07-29"])
             (log (EPrint "Syncing activities from 2021-07-28 to 2021-07-29...")
                empty_world)))).
Proof.
  apply (proj1 (failed_listing_reads_as_no_activities steady_host offline_service
                  737999 738000 empty_world)
           (Exc GarminConnectConnectionError "connection refused")); reflexivity.
Defined.

(** An error document in place of the list ends the run. *)
Lemma malformed_listing_crashes_witness :
  ∃ c msg,
    sync_activities_incremental steady_host confused_service 737999 738000 empty_world
    = (Raise (Exc c msg),
       log (ECall get_activities_by_date [AStr (isoformat 737999); AStr (isoformat 738000)])
         (log (EPrint (activities_notice 737999 738000)) empty_world))
    ∧ (c = AttributeError ∨ c = TypeError).
Proof.
  apply (malformed_listing_crashes steady_host confused_service 737999 738000 empty_world
           (JObj [("message", JStr "Service unavailable")])).
  - reflexivity.
  - reflexivity.
  - left. discriminate.
Defined.

(** Every sync step survives the failures of the steady service. *)
Lemma remote_failures_are_not_fatal_witness :
  ∃ w', sync_profile steady_host steady_service synced_yesterday = (Ret tt, w').
Proof.
  apply (proj1 (proj2 (proj2 (proj2
           (remote_failures_are_not_fatal steady_host steady_service
              steady_service_uninterrupted))))).
Defined.

(** A summary cached before the run is still there after the whole run. *)
Lemma run_keeps_other_files_witness :
  fs (script steady_host 1 blank_state).2
    !! daily_path steady_host "2021-07-29" "summary.json" = Some (JStr "cached").
Proof.
  apply (run_keeps_other_files steady_host 1 blank_state
           (daily_path steady_host "2021-07-29" "summary.json") (JStr "cached")).
  - apply (bool_decide_unpack _). vm_compute. reflexivity.
  - reflexivity.
Defined.

Lemma interrupting_service_numeric : numeric_ids interrupting_service.
Proof.
  intros h m args items fields _ Hres Hin Hid.
  destruct m; simpl in Hres; try discriminate; injection Hres as <-;
    repeat (apply elem_of_cons in Hin as [[= ->]|Hin]; [by eexists|]);
    by apply elem_of_nil in Hin.
Qed.

(** Ctrl-C during the weekly sync: the state file still says 2021-07-28. *)
Lemma sync_state_is_written_last_witness :
  (SYNC_STATE_FILE interrupted_host
     ∉ write_paths (events_since synced_yesterday
                      (script interrupted_host 1 synced_yesterday).2))
  ∧ fs (script interrupted_host 1 synced_yesterday).2 !! SYNC_STATE_FILE interrupted_host
    = Some (JObj [("last_sync_date", JStr "2021-07-28")]).
Proof.
  destruct (sync_state_is_written_last interrupted_host 1 synced_yesterday) as [H|H].
  - intros h. unfold MIN_ORDINAL, MAX_ORDINAL, HISTORY_DAYS. simpl. lia.
  - apply interrupting_service_numeric.
  - exact H.
  - exfalso. destruct H as (pre & v & post & Hevs & _).
    assert (SYNC_STATE_FILE interrupted_host
              ∈ write_paths (events_since synced_yesterday
                               (script interrupted_host 1 synced_yesterday).2)) as Hin.
    { rewrite Hevs. unfold write_paths. rewrite written_app, fmap_app. apply elem_of_app.
      right. simpl. apply list_elem_of_here. }
    vm_compute in Hin. repeat (apply elem_of_cons in Hin as [Hin|Hin]; [discriminate Hin|]).
    by apply elem_of_nil in Hin.
Defined.

(** Five rounds against an endless list: five requests, and no end. *)
Lemma full_sync_goes_on_while_pages_are_full_witness :
  ∃ w', sync_activities_full steady_host 5 endless_service empty_world = (OutOfFuel, w')
        ∧ calls_of get_activities (events_since empty_world w')
          = [[AInt 0; AInt 100]; [AInt 100; AInt 100]; [AInt 200; AInt 100];
             [AInt 300; AInt 100]; [AInt 400; AInt 100]].
Proof.
  apply (full_sync_goes_on_while_pages_are_full steady_host endless_service 5 empty_world).
  - intros h m args e H. destruct m; discriminate H.
  - intros h args. exists (summaries 1 100).
    split_and!; [reflexivity|vm_compute; lia|apply records_summaries].
Defined.

(** The first run of 2021-07-29 completes and records that date. *)
Lemma completed_run_records_today_witness :
  ∃ w', main steady_host 1 synced_yesterday = (Ret tt, w')
        ∧ fs w' !! SYNC_STATE_FILE steady_host = Some (state_record 738000)
        ∧ exit_code (script steady_host 1 synced_yesterday).1 = Some 0.
Proof.
  apply (proj2 (completed_run_records_today steady_host 1 synced_yesterday steady_service
                  (init_api steady_host 1 synced_yesterday).2
                  (pair_of_fst _ _ steady_first_login)) 737999).
  - reflexivity.
  - apply steady_service_uninterrupted.
  - intros h args v Hres _. injection Hres as <-. eexists. split; [reflexivity|].
    repeat constructor; by eexists.
Defined.
